(** * QuandeLibC: the Fock-state encoding of [src/fockstate.cpp]

    A shallow embedding of the [fockstate] class (construction, parsing,
    successor, tensor product, indexing, slicing, equality, occupation
    vector, text form, hash, combinatorial weight, annotation checks) and
    the properties of its specification.  [separate_state] is not part of
    the embedding: it works on the [annotation] class and on [photon2mode],
    which are declared outside this file.

    Conventions of the embedding.
    - [int] values are integers of [Z]; signed [int] overflow is undefined
      behaviour in C++ and lies outside the model.
    - [char] values are 8-bit; every store of an [int] expression into the
      [char] buffer goes through [to_char], the conversion written out.
      Whether plain [char] is signed depends on the platform, so the
      development is parametric in [char_signed].
    - The buffer [_code] is an [option (list Z)]: [None] is the null pointer,
      [Some l] a buffer holding the bytes [l].  Buffers have value semantics;
      the flag [_owned_data], which only governs deallocation and
      copy-before-write, is not part of the model.
    - A call either returns, throws, or runs into undefined behaviour
      (a read through the null pointer): type [result]. *)

From Stdlib Require Import String Ascii ZArith List Lia Bool Arith Sorted FinFun.
From Stdlib Require DecimalString DecimalNat.
Import ListNotations.
Open Scope Z_scope.

(** ** Outcomes of a call *)

Inductive exn : Type :=
| invalid_argument (what : string)
| out_of_range (what : string).

Inductive result (A : Type) : Type :=
| Ok (a : A)
| Throw (e : exn)
| UB.

Arguments Ok {A} a.
Arguments Throw {A} e.
Arguments UB {A}.

Definition bind {A B : Type} (r : result A) (k : A -> result B) : result B :=
  match r with
  | Ok a => k a
  | Throw e => Throw e
  | UB => UB
  end.

Notation "x <- r ;; k" := (bind r (fun x => k))
  (at level 61, r at next level, right associativity).
Notation "' p <- r ;; k" := (bind r (fun x => match x with p => k end))
  (at level 61, p pattern, r at next level, right associativity).

(** The exception every guarded operation throws on a state without code. *)
Definition ndef_error : exn :=
  invalid_argument "cannot make operation on ndef-state".

(** ** The state *)

Record fockstate : Type := mk_fockstate {
  _m : Z;                      (* number of modes *)
  _n : Z;                      (* number of particles (cached) *)
  _code : option (list Z)      (* char buffer, 'A' + mode per particle *)
}.

(** ['A'] *)
Definition chr_A : Z := 65.

(** Writing position [i] of a buffer. *)
Fixpoint list_set (i : nat) (v : Z) (l : list Z) : list Z :=
  match l, i with
  | [], _ => []
  | _ :: r, O => v :: r
  | x :: r, S i' => x :: list_set i' v r
  end.

Section Model.

(** Signedness of plain [char] on the target. *)
Variable char_signed : bool.

Definition CHAR_MAX : Z := if char_signed then 127 else 255.

(** Conversion of an [int] to [char]. *)
Definition to_char (z : Z) : Z :=
  if char_signed then (z + 128) mod 256 - 128 else z mod 256.

(** *** Constructors *)

(** [fockstate::fockstate()] *)
Definition fockstate_default : fockstate := mk_fockstate 0 0 None.

(** [fockstate::fockstate(int m)]: the shared zero-length buffer. *)
Definition fockstate_m (m : Z) : fockstate := mk_fockstate m 0 (Some []).

(** [fockstate::fockstate(int m, int n)]: [memset(_code, 'A', _n)].
    The count is non-negative at every call ([new char[_n]]). *)
Definition fockstate_mn (m n : Z) : fockstate :=
  if n =? 0 then mk_fockstate m 0 (Some [])
  else mk_fockstate m n (Some (repeat chr_A (Z.to_nat n))).

(** [fockstate::fockstate(int m, int n, const char *code, bool owned_data)] *)
Definition fockstate_raw (m n : Z) (code : option (list Z)) : fockstate :=
  mk_fockstate m n code.

(** The nested loops of [_set_fs_vect] (and of the end of [_parse_str]):
    [for i < _m: for j < fs_vect[i]: _code[k++] = char(i + 65)]. *)
Definition fill_code (m : nat) (fs_vect : list Z) : list Z :=
  flat_map (fun i => repeat (to_char (Z.of_nat i + chr_A))
                            (Z.to_nat (nth i fs_vect 0)))
           (seq 0 m).

(** [for (i = 0; i < _m; i++) _n += fs_vect[i]] *)
Definition sum_vect (m : nat) (fs_vect : list Z) : Z :=
  fold_left (fun acc i => acc + nth i fs_vect 0) (seq 0 m) 0.

(** [fockstate::fockstate(const std::vector<int> &fs_vect)] with
    [_set_fs_vect]. *)
Definition fockstate_of_vect (fs_vect : list Z) : fockstate :=
  let m := length fs_vect in
  let n := sum_vect m fs_vect in
  if n =? 0 then mk_fockstate (Z.of_nat m) 0 (Some [])
  else mk_fockstate (Z.of_nat m) n (Some (fill_code m fs_vect)).

(** Copy constructor: [memcpy] of [_n] bytes, or the shared empty buffer. *)
Definition copy (b : fockstate) : fockstate :=
  match _code b with
  | Some code =>
      if _n b =? 0 then mk_fockstate (_m b) (_n b) (Some [])
      else mk_fockstate (_m b) (_n b) (Some (firstn (Z.to_nat (_n b)) code))
  | None => mk_fockstate (_m b) (_n b) None
  end.

(** [operator=]: assigning an object to itself ([&b == this]) leaves it as
    it is; otherwise the previous buffer of the target is released and the
    fields are taken from [b] as in the copy constructor. *)
Definition assign (target b : fockstate) (same_object : bool) : fockstate :=
  if same_object then target else copy b.

(** *** Successor *)

(** [for (i = _n-1; i >= 0 && _code[i] == _m-1+'A'; i--);]
    with [k = i + 1]; [None] is [i < 0]. *)
Fixpoint scan_last (code : list Z) (top : Z) (k : nat) : option nat :=
  match k with
  | O => None
  | S i => if nth i code 0 =? top then scan_last code top i else Some i
  end.

(** The body of [operator++] on the buffer: [None] when the scan ends with
    [i < 0]; otherwise [_code[i] += 1; for (j = i+1; j < _n; j++)
    _code[j] = _code[i];]. *)
Definition inc_code (code : list Z) (top : Z) (n : nat) : option (list Z) :=
  match scan_last code top n with
  | None => None
  | Some i =>
      let code1 := list_set i (to_char (nth i code 0 + 1)) code in
      Some (fold_left (fun c j => list_set j (nth i c 0) c)
                      (seq (S i) (n - S i)) code1)
  end.

(** [fockstate::operator++]: on exhaustion only [_code] is reset. *)
Definition operator_inc (s : fockstate) : result fockstate :=
  match _code s with
  | None => Throw ndef_error
  | Some code =>
      Ok (mk_fockstate (_m s) (_n s)
            (inc_code code (_m s - 1 + chr_A) (Z.to_nat (_n s))))
  end.

(** [while (c) { ++fs; c--; }] for a count [c >= 0]. *)
Fixpoint inc_loop (c : nat) (s : fockstate) : result fockstate :=
  match c with
  | O => Ok s
  | S c' => s' <- operator_inc s ;; inc_loop c' s'
  end.

(** [fockstate::operator+(int c)] *)
Definition operator_plus (s : fockstate) (c : nat) : result fockstate :=
  match _code s with
  | None => Throw ndef_error
  | Some _ => inc_loop c (copy s)
  end.

(** [fockstate::operator+=(int c)] *)
Definition operator_plus_assign (s : fockstate) (c : nat) : result fockstate :=
  inc_loop c s.

(** *** Tensor product *)

(** [fockstate::operator*]: [k] is the value the two [while] loops leave. *)
Definition operator_mul (a b : fockstate) : result fockstate :=
  match _code a, _code b with
  | Some ca, Some cb =>
      let k1 := Z.max 0 (_n a) in
      let k2 := Z.max k1 (_n a + _n b) in
      let new_code :=
        firstn (Z.to_nat (_n a)) ca
        ++ map (fun c => to_char (c + _m a)) (firstn (Z.to_nat (_n b)) cb) in
      Ok (mk_fockstate (_m a + _m b) k2 (Some new_code))
  | _, _ => Throw ndef_error
  end.

(** *** Equality *)

(** [fockstate::operator==] *)
Definition operator_eq (a b : fockstate) : bool :=
  if negb (_m a =? _m b) || negb (_n a =? _n b) then false
  else if (_m a =? 0) && (_m b =? 0) then true
  else match _code a, _code b with
       | None, None => true
       | None, Some _ | Some _, None => false
       | Some ca, Some cb =>
           forallb (fun i => nth i ca 0 =? nth i cb 0)
                   (seq 0 (Z.to_nat (_n a)))
       end.

(** [fockstate::operator!=] *)
Definition operator_neq (a b : fockstate) : bool := negb (operator_eq a b).

(** *** Occupation query *)

(** [for (i = 0; i < _n && _code[i]-'A' <= idx; i++) if (_code[i]-'A' == idx) nc++] *)
Fixpoint count_mode (code : list Z) (idx : Z) : Z :=
  match code with
  | [] => 0
  | c :: r =>
      if c - chr_A <=? idx
      then (if c - chr_A =? idx then 1 else 0) + count_mode r idx
      else 0
  end.

(** [fockstate::operator[]].  Without a buffer the loop body reads through
    the null pointer as soon as [_n > 0]; with [_n = 0] it never runs. *)
Definition operator_index (s : fockstate) (idx : Z) : result Z :=
  if (idx <? 0) || (idx >=? _m s) then Throw (out_of_range "invalid mode")
  else match _code s with
       | Some code => Ok (count_mode (firstn (Z.to_nat (_n s)) code) idx)
       | None => if 0 <? _n s then UB else Ok 0
       end.

(** *** Slicing *)

(** [for (int i = start; i < end; i += step) slice_m++;] for [step >= 1]. *)
Fixpoint count_steps (fuel : nat) (i end_ step : Z) : Z :=
  match fuel with
  | O => 0
  | S f => if i <? end_ then 1 + count_steps f (i + step) end_ step else 0
  end.

(** The test on one particle in [_check_slice] and [slice]; [%] truncates. *)
Definition in_slice (start end_ step c : Z) : bool :=
  (c >=? start + chr_A) && (c <? end_ + chr_A)
  && ((step =? 1) || (Z.rem (c - start - chr_A) step =? 0)).

(** [fockstate::_check_slice]: the normalised [start] and [end], [slice_m]
    and [slice_n].  With [start < end] and [step <= 0] the counting loop
    only stops by overflowing an [int]. *)
Definition _check_slice (s : fockstate) (start end_ step : Z)
  : result (Z * Z * Z * Z) :=
  let start := if start <? 0 then start + _m s else start in
  let end_ := if end_ <? 0 then end_ + _m s else end_ in
  let start := if start <? 0 then 0 else start in
  let end_ := if end_ <? 0 then 0 else end_ in
  let end_ := if end_ >? _m s then _m s else end_ in
  match _code s with
  | None => Throw ndef_error
  | Some code =>
      if (start <? end_) && (step <=? 0) then UB
      else
        let slice_m := count_steps (Z.to_nat (end_ - start)) start end_ step in
        let slice_n :=
          Z.of_nat (length (filter (in_slice start end_ step)
                                   (firstn (Z.to_nat (_n s)) code))) in
        Ok (start, end_, slice_m, slice_n)
  end.

(** [fockstate::slice] *)
Definition slice (s : fockstate) (start end_ step : Z) : result fockstate :=
  '(start, end_, slice_m, slice_n) <- _check_slice s start end_ step ;;
  if slice_n =? 0 then Ok (fockstate_mn slice_m 0)
  else
    match _code s with
    | None => UB
    | Some code =>
        let new_code :=
          map (fun c => to_char (Z.quot (c - start - chr_A) step + chr_A))
              (filter (in_slice start end_ step)
                      (firstn (Z.to_nat (_n s)) code)) in
        Ok (mk_fockstate slice_m slice_n (Some new_code))
    end.

(** [for (; i < _n && _code[i] < bound; i++)]: the particles passed over,
    and those left. *)
Fixpoint take_below (bound : Z) (code : list Z) : list Z :=
  match code with
  | [] => []
  | c :: r => if c <? bound then c :: take_below bound r else []
  end.

Fixpoint drop_below (bound : Z) (code : list Z) : list Z :=
  match code with
  | [] => []
  | c :: r => if c <? bound then drop_below bound r else code
  end.

(** [fockstate::set_slice] *)
Definition set_slice (s fs : fockstate) (start end_ : Z) : result fockstate :=
  '(start, end_, slice_m, slice_n) <- _check_slice s start end_ 1 ;;
  if negb (slice_m =? _m fs)
  then Throw (invalid_argument "invalid fockstate to replace in slice")
  else
    let new_n := _n s - slice_n + _n fs in
    if new_n =? 0 then Ok (fockstate_mn (_m s) 0)
    else
      match _code s with
      | None => UB
      | Some code =>
          let buf := firstn (Z.to_nat (_n s)) code in
          let lower := take_below (start + chr_A) buf in
          let rest := drop_below (start + chr_A) buf in
          let higher := drop_below (end_ + chr_A) rest in
          match _code fs with
          | None =>
              if 0 <? _n fs then UB
              else Ok (mk_fockstate (_m s) new_n (Some (lower ++ higher)))
          | Some fcode =>
              let inserted :=
                map (fun c => to_char (c + start))
                    (firstn (Z.to_nat (_n fs)) fcode) in
              Ok (mk_fockstate (_m s) new_n
                               (Some (lower ++ inserted ++ higher)))
          end
      end.

(** *** Parsing *)

(** A C string: the bytes before the terminator; reading at the end gives
    the terminating zero byte. *)
Definition cstr : Type := list ascii.

Definition peek (str : cstr) : ascii :=
  match str with
  | c :: _ => c
  | [] => zero
  end.

(** [std::isdigit] *)
Definition isdigit (c : ascii) : bool :=
  ((48 <=? N_of_ascii c) && (N_of_ascii c <=? 57))%N.

(** [strchr("0123456789,{", c)] for a non-zero [c] *)
Definition term_char (c : ascii) : bool :=
  isdigit c || (c =? ",")%char || (c =? "{")%char.

(** [skip_blanks] *)
Fixpoint skip_blanks (str : cstr) : cstr :=
  match str with
  | c :: r => if (c =? " ")%char then skip_blanks r else str
  | [] => str
  end.

(** [while (std::isdigit( *str)) { cn = 10 * cn + ( *str - '0'); str++; }] *)
Fixpoint read_digits (str : cstr) (cn : Z) : Z * cstr :=
  match str with
  | c :: r =>
      if isdigit c then read_digits r (10 * cn + (Z.of_N (N_of_ascii c) - 48))
      else (cn, str)
  | [] => (cn, str)
  end.

(** [for (j = 1; str[j] && str[j] != '}'; j++);] on [str + 1]: the
    annotation text and the input after the closing brace, or [None] when
    the terminator comes first. *)
Fixpoint find_close (str : cstr) : option (cstr * cstr) :=
  match str with
  | [] => None
  | c :: r =>
      if (c =? zero)%char then None
      else if (c =? "}")%char then Some ([], r)
      else match find_close r with
           | Some (sa, rest) => Some (c :: sa, rest)
           | None => None
           end
  end.

(** The class [annotation] is a collaborator: [annotation_new sa] is the
    text [to_str()] of [new annotation(sa)], or the exception of the
    constructor.  The parser keeps these texts in the local
    [count_annot_map], which it never reads back; the map is left out. *)
Variable annotation_new : cstr -> result cstr.

(** The loop over the sub-terms of one mode,
    [while (std::isdigit( *str) || *str == '{')]; [None] is a loop cut off
    by the fuel (excluded by [parse_term_fuel]). *)
Fixpoint parse_term (fuel : nat) (str : cstr) (total_cn : Z)
  : option (result (Z * cstr)) :=
  match fuel with
  | O => None
  | S f =>
      if isdigit (peek str) || (peek str =? "{")%char then
        let '(cn, str1) :=
          if (peek str =? "{")%char then (1, str) else read_digits str 0 in
        if (peek str1 =? "{")%char then
          if cn =? 0 then
            Some (Throw (invalid_argument
              "invalid fock state representation (annotation on 0 photons)"))
          else
            match find_close (tl str1) with
            | None =>
                Some (Throw (invalid_argument
                  "invalid fock state representation (no annotation close)"))
            | Some (sa, str2) =>
                match annotation_new sa with
                | Ok _ => parse_term f str2 (total_cn + Z.max 0 cn)
                | Throw e => Some (Throw e)
                | UB => Some UB
                end
            end
        else parse_term f str1 (total_cn + Z.max 0 cn)
      else Some (Ok (total_cn, str))
  end.

(** The main loop [while (true)] over the modes: the input left, [fs_vect]
    and [_n] at the [break]. *)
Fixpoint parse_modes (fuel : nat) (str : cstr) (fs_vect : list Z) (n : Z)
  : option (result (cstr * list Z * Z)) :=
  match fuel with
  | O => None
  | S f =>
      let str := skip_blanks str in
      let c := peek str in
      let empty := match fs_vect with [] => true | _ => false end in
      if (c =? zero)%char || negb (term_char c)
         || (negb empty && negb (c =? ",")%char)
         || (empty && (c =? ",")%char)
      then Some (Ok (str, fs_vect, n))
      else
        let str := if (c =? ",")%char then skip_blanks (tl str) else str in
        match parse_term (S (length str)) str 0 with
        | None => None
        | Some (Ok (total_cn, str')) =>
            parse_modes f str' (fs_vect ++ [total_cn]) (n + total_cn)
        | Some (Throw e) => Some (Throw e)
        | Some UB => Some UB
        end
  end.

(** [while (true) { str = skip_blanks(str); if ( *str != ',') break;
    _m += 1; str++; }] *)
Fixpoint count_commas (str : cstr) (m : Z) : Z * cstr :=
  match str with
  | c :: r =>
      if (c =? " ")%char then count_commas r m
      else if (c =? ",")%char then count_commas r (m + 1)
      else (m, str)
  | [] => (m, str)
  end.

(** The three bytes of the closing angle bracket U+3009. *)
Definition rangle : cstr :=
  [ascii_of_nat 227; ascii_of_nat 128; ascii_of_nat 137].

Definition cstr_eqb (a b : cstr) : bool :=
  (string_of_list_ascii a =? string_of_list_ascii b)%string.

(** The test before ["bad close"]. *)
Definition bad_close (open_char : ascii) (str : cstr) : bool :=
  ((open_char =? "[")%char && negb (peek str =? "]")%char)
  || ((open_char =? "(")%char && negb (peek str =? ")")%char)
  || ((open_char =? "|")%char
      && negb ((peek str =? ">")%char || cstr_eqb (firstn 3 str) rangle)).

(** [fockstate::_parse_str] on the bytes of the string. *)
Definition parse_cstr (str : cstr) : option (result fockstate) :=
  let str := skip_blanks str in
  let open_char := peek str in
  if negb (open_char =? "[")%char && negb (open_char =? "|")%char
     && negb (open_char =? "(")%char
  then Some (Throw (invalid_argument "invalid fock state representation"))
  else
    let str := tl str in
    match parse_modes (S (length str)) str [] 0 with
    | None => None
    | Some (Throw e) => Some (Throw e)
    | Some UB => Some UB
    | Some (Ok (str, fs_vect, n)) =>
        let '(m, str) :=
          match fs_vect with
          | [] => if (peek str =? ",")%char then count_commas str 1
                  else (0, str)
          | _ => (0, str)
          end in
        if bad_close open_char str then
          Some (Throw (invalid_argument
            "invalid fock state representation (bad close)"))
        else
          let c := peek str in
          let str :=
            if (c =? ">")%char || (c =? ")")%char || (c =? "]")%char
               || (c =? zero)%char
            then tl str else skipn 3 str in
          let str := skip_blanks str in
          if negb (peek str =? zero)%char then
            Some (Throw (invalid_argument
              "invalid fock state representation (extra chars)"))
          else if negb (m =? 0) then Some (Ok (mk_fockstate m n None))
          else
            let m := length fs_vect in
            if negb (n =? 0)
            then Some (Ok (mk_fockstate (Z.of_nat m) n
                                        (Some (fill_code m fs_vect))))
            else Some (Ok (mk_fockstate (Z.of_nat m) n (Some [])))
    end.

(** [fockstate::fockstate(const char *str)] *)
Definition _parse_str (str : string) : option (result fockstate) :=
  parse_cstr (list_ascii_of_string str).

(** ** The invariants of the data model *)

(** The particle data of a state; a state without code has none. *)
Definition particles (s : fockstate) : list Z :=
  match _code s with
  | Some code => code
  | None => []
  end.

Definition mode_index (c : Z) : Z := c - chr_A.

(** Occupation of mode [k]: the number of particles in it. *)
Definition occupation (s : fockstate) (k : Z) : Z :=
  Z.of_nat (count_occ Z.eq_dec (particles s) (k + chr_A)).

(** Sum of the occupations of the modes [0 .. k-1]. *)
Fixpoint sum_occupation (s : fockstate) (k : nat) : Z :=
  match k with
  | O => 0
  | S k' => sum_occupation s k' + occupation s (Z.of_nat k')
  end.

(** A value a [char] can hold. *)
Definition is_char (c : Z) : Prop := to_char c = c.

(** The invariant set: the buffer holds chars; every particle has a mode
    index in [0, modes); the particles are in non-decreasing order; the
    particle count is the sum of the occupations; the mode count is not
    negative.  For a state without code, [particles] is empty. *)
Record inv (s : fockstate) : Prop := mk_inv {
  inv_chars : Forall is_char (particles s);
  inv_range : Forall (fun c => 0 <= mode_index c < _m s) (particles s);
  inv_order : Sorted Z.le (particles s);
  inv_count : _n s = sum_occupation s (Z.to_nat (_m s));
  inv_modes : 0 <= _m s
}.

(** Mode counts whose codes ['A' + mode] all fit a [char]. *)
Definition fits (m : Z) : Prop := m + 64 <= CHAR_MAX.

(** A boolean check of [inv], for concrete states. *)
Fixpoint sortedb (l : list Z) : bool :=
  match l with
  | [] => true
  | x :: r => match r with
              | [] => true
              | y :: _ => (x <=? y) && sortedb r
              end
  end.

Definition invb (s : fockstate) : bool :=
  forallb (fun c => to_char c =? c) (particles s)
  && forallb (fun c => (0 <=? mode_index c) && (mode_index c <? _m s))
             (particles s)
  && sortedb (particles s)
  && (_n s =? sum_occupation s (Z.to_nat (_m s)))
  && (0 <=? _m s).

(** ** Enumeration of the non-decreasing tuples *)

(** Binomial coefficients by Pascal's rule. *)
Fixpoint binom (n k : nat) : nat :=
  match n, k with
  | _, O => 1%nat
  | O, S _ => 0%nat
  | S n', S k' => (binom n' k' + binom n' k)%nat
  end.

(** [enum n d lo]: the non-decreasing [n]-tuples over the [d] codes
    [lo, lo+1, ..., lo+d-1], in lexicographic order. *)
Fixpoint enum (n : nat) : nat -> Z -> list (list Z) :=
  match n with
  | O => fun _ _ => [[]]
  | S n' =>
      fix go (d : nat) (lo : Z) : list (list Z) :=
        match d with
        | O => []
        | S d' => map (cons lo) (enum n' d lo) ++ go d' (lo + 1)
        end
  end.

(** The successor on the buffer, read from the front: the tail is advanced
    when it can be; otherwise the head is incremented and copied over the
    tail. *)
Fixpoint next_code (top : Z) (code : list Z) : option (list Z) :=
  match code with
  | [] => None
  | x :: r =>
      match next_code top r with
      | Some r' => Some (x :: r')
      | None =>
          if x =? top then None
          else Some (repeat (to_char (x + 1)) (S (length r)))
      end
  end.

(** Number of occurrences of a character in a text. *)
Definition count_char (c : ascii) (str : string) : Z :=
  Z.of_nat (length (filter (Ascii.eqb c) (list_ascii_of_string str))).

(** The pairs of an opening delimiter and a closing one that
    [_parse_str] accepts. *)
Definition delimiters : list (ascii * cstr) :=
  [("["%char, ["]"%char]); ("("%char, [")"%char]);
   ("|"%char, [">"%char]); ("|"%char, rangle)].

(** [path top a xs b]: the list [xs] starts with [a], ends with [b], and
    each of its elements is followed by its successor. *)
Inductive path (top : Z) : list Z -> list (list Z) -> list Z -> Prop :=
| path_one (a : list Z) : path top a [a] a
| path_step (a b z : list Z) (xs : list (list Z)) :
    next_code top a = Some b -> path top b xs z -> path top a (a :: xs) z.

(** An [annotation] class whose constructor accepts every token. *)
Definition annotation_any (sa : cstr) : result cstr := Ok sa.

(** ** Further operations of the class *)

(** *** Occupation vector *)

(** [fs_vect[idx]++] on a [std::vector<int>]; an index outside the vector
    is undefined behaviour. *)
Definition vect_incr (fs_vect : list Z) (idx : Z) : result (list Z) :=
  if (idx <? 0) || (idx >=? Z.of_nat (length fs_vect)) then UB
  else Ok (list_set (Z.to_nat idx) (nth (Z.to_nat idx) fs_vect 0 + 1) fs_vect).

(** [for (int i = 0; i < _n; i++) fs_vect[_code[i]-65]++;] *)
Fixpoint count_into (fs_vect : list Z) (code : list Z) : result (list Z) :=
  match code with
  | [] => Ok fs_vect
  | c :: r => v <- vect_incr fs_vect (c - chr_A) ;; count_into v r
  end.

(** [std::vector<int> fs_vect(m)] (and [resize(m)] followed by [fill]):
    [m] zeros.  A negative [int] converts to a size above [max_size()] and
    the call throws [std::length_error]; that exception is not one of
    [exn], and the call is rendered as one without a result. *)
Definition new_vect (m : Z) : result (list Z) :=
  if m <? 0 then UB else Ok (repeat 0 (Z.to_nat m)).

(** [fockstate::to_vect] (both overloads return the same vector): [_m]
    zeros, then one increment per particle.  Without code the loop reads
    through the null pointer as soon as [_n > 0]. *)
Definition to_vect (s : fockstate) : result (list Z) :=
  zeros <- new_vect (_m s) ;;
  match _code s with
  | Some code => count_into zeros (firstn (Z.to_nat (_n s)) code)
  | None => if 0 <? _n s then UB else Ok zeros
  end.

(** *** Text form *)

(** The decimal digits of a natural number. *)
Definition digits (n : nat) : cstr :=
  list_ascii_of_string
    (DecimalString.NilEmpty.string_of_uint (Nat.to_uint n)).

(** [ss << i] for an [int]. *)
Definition show_int (z : Z) : cstr :=
  if z <? 0 then "-"%char :: digits (Z.to_nat (- z)) else digits (Z.to_nat z).

(** [for (i < _m) { if (i) ss << ","; ss << field(i); }] *)
Definition join_fields (fields : list cstr) : cstr :=
  match fields with
  | [] => []
  | f :: r => f ++ flat_map (fun g => ","%char :: g) r
  end.

(** [fockstate::to_str], as the bytes written to the stream.  The vector
    [annots_vect] holds empty strings only, so every mode prints its count;
    without code every field is empty. *)
Definition to_str_cstr (s : fockstate) : result cstr :=
  match _code s with
  | Some code =>
      zeros <- new_vect (_m s) ;;
      fs_vect <- count_into zeros (firstn (Z.to_nat (_n s)) code) ;;
      Ok ("|"%char :: join_fields (map show_int fs_vect) ++ [">"%char])
  | None =>
      Ok ("|"%char :: join_fields (repeat [] (Z.to_nat (_m s)))
                   ++ [">"%char])
  end.

Definition to_str (s : fockstate) : result string :=
  c <- to_str_cstr s ;; Ok (string_of_list_ascii c).

(** The string hash is a collaborator. *)
Variable hash_function : string -> Z.

(** [fockstate::hash] *)
Definition hash (s : fockstate) : result Z :=
  str <- to_str s ;; Ok (hash_function str).

(** *** Combinatorial weight *)

(** Arithmetic of [unsigned long long]. *)
Definition wrap64 (z : Z) : Z := z mod 2 ^ 64.

(** [while (i+k < _n && _code[i+k] == _code[i]) p *= ++k;] on the buffer
    behind position [i]: the product and the buffer from [i+k] on. *)
Fixpoint run_loop (rest : list Z) (c k p : Z) : Z * list Z :=
  match rest with
  | x :: r => if x =? c then run_loop r c (k + 1) (wrap64 (p * (k + 1)))
              else (p, rest)
  | [] => (p, rest)
  end.

(** [for (int i = 0; i < _n;) { int k = 1; ...; i += k; }] *)
Fixpoint prod_loop (fuel : nat) (code : list Z) (p : Z) : Z :=
  match fuel with
  | O => p
  | S f =>
      match code with
      | [] => p
      | c :: r => let '(p', rest) := run_loop r c 1 p in prod_loop f rest p'
      end
  end.

(** [fockstate::prodnfact].  Without code the first read is [_code[1]],
    reached as soon as [_n >= 2]. *)
Definition prodnfact (s : fockstate) : result Z :=
  match _code s with
  | Some code =>
      let buf := firstn (Z.to_nat (_n s)) code in
      Ok (prod_loop (length buf) buf 1)
  | None => if 2 <=? _n s then UB else Ok 1
  end.

(** *** Annotations *)






(** ** Reference values for the further operations *)

(** The occupation vector of a buffer over [m] modes. *)
Definition occupations (code : list Z) (m : nat) : list Z :=
  map (fun k => Z.of_nat (count_occ Z.eq_dec code (Z.of_nat k + chr_A)))
      (seq 0 m).

(** The product of the factorials of the occupations of [m] modes. *)
Fixpoint prod_fact (code : list Z) (m : nat) : Z :=
  match m with
  | O => 1
  | S m' =>
      prod_fact code m'
      * Z.of_nat (fact (count_occ Z.eq_dec code (Z.of_nat m' + chr_A)))
  end.

(** * Properties *)

(** ** Characters *)

Lemma CHAR_MAX_cases : CHAR_MAX = 127 \/ CHAR_MAX = 255.
Proof. unfold CHAR_MAX; destruct char_signed; auto. Qed.

Lemma to_char_id (z : Z) : 0 <= z <= CHAR_MAX -> to_char z = z.
Proof.
  unfold to_char, CHAR_MAX; destruct char_signed; intros H.
  - rewrite Z.mod_small; lia.
  - apply Z.mod_small; lia.
Qed.

Lemma is_char_bound (c : Z) : is_char c -> c <= CHAR_MAX.
Proof.
  unfold is_char, to_char, CHAR_MAX; destruct char_signed; intros H.
  - pose proof (Z.mod_pos_bound (c + 128) 256); lia.
  - pose proof (Z.mod_pos_bound c 256); lia.
Qed.

(** ** The boolean check of the invariant is sound *)

Lemma sortedb_Sorted (l : list Z) : sortedb l = true -> Sorted Z.le l.
Proof.
  induction l as [|x r IH]; intros H; [constructor|].
  destruct r as [|y r'].
  - repeat constructor.
  - cbn [sortedb] in H. apply andb_true_iff in H as [Hxy Hr].
    constructor; [apply IH; exact Hr|].
    constructor. apply Z.leb_le; exact Hxy.
Qed.

Lemma invb_sound (s : fockstate) : invb s = true -> inv s.
Proof.
  unfold invb; intros H.
  apply andb_true_iff in H as [H Hm].
  apply andb_true_iff in H as [H Hn].
  apply andb_true_iff in H as [H Hs].
  apply andb_true_iff in H as [Hc Hr].
  constructor.
  - apply Forall_forall; intros c Hin.
    rewrite forallb_forall in Hc. apply Z.eqb_eq, Hc, Hin.
  - apply Forall_forall; intros c Hin.
    rewrite forallb_forall in Hr. specialize (Hr c Hin).
    apply andb_true_iff in Hr as [Ha Hb].
    apply Z.leb_le in Ha; apply Z.ltb_lt in Hb; lia.
  - apply sortedb_Sorted; assumption.
  - apply Z.eqb_eq; assumption.
  - apply Z.leb_le; assumption.
Qed.

(** ** Particle count and occupations *)

Lemma sum_occupation_nil (m n : Z) (c : option (list Z)) (k : nat) :
  particles (mk_fockstate m n c) = [] ->
  sum_occupation (mk_fockstate m n c) k = 0.
Proof.
  intros H; induction k as [|k IH]; [reflexivity|].
  cbn [sum_occupation]. rewrite IH. unfold occupation. rewrite H. reflexivity.
Qed.

Lemma sum_occupation_cons (m n m' n' x : Z) (l : list Z) (k : nat) :
  sum_occupation (mk_fockstate m n (Some (x :: l))) k
  = sum_occupation (mk_fockstate m' n' (Some l)) k
    + (if (0 <=? mode_index x) && (mode_index x <? Z.of_nat k) then 1 else 0).
Proof.
  induction k as [|k IH].
  - cbn [sum_occupation].
    destruct (0 <=? mode_index x) eqn:E0; [|reflexivity].
    destruct (mode_index x <? Z.of_nat 0) eqn:E1; [|reflexivity].
    apply Z.leb_le in E0; apply Z.ltb_lt in E1; lia.
  - cbn [sum_occupation]. rewrite IH. unfold occupation, particles, mode_index, chr_A.
    cbn [_code count_occ].
    destruct (Z.eq_dec x (Z.of_nat k + 65)) as [E|E];
      destruct (0 <=? x - 65) eqn:E0; destruct (x - 65 <? Z.of_nat k) eqn:E1;
      destruct (x - 65 <? Z.of_nat (S k)) eqn:E2; cbn [andb];
      try apply Z.leb_le in E0; try apply Z.leb_gt in E0;
      try apply Z.ltb_lt in E1; try apply Z.ltb_ge in E1;
      try apply Z.ltb_lt in E2; try apply Z.ltb_ge in E2; lia.
Qed.

Lemma sum_occupation_length (m n : Z) (l : list Z) (k : nat) :
  Forall (fun c => 0 <= mode_index c < Z.of_nat k) l ->
  sum_occupation (mk_fockstate m n (Some l)) k = Z.of_nat (length l).
Proof.
  induction l as [|x l IH]; intros H.
  - apply sum_occupation_nil; reflexivity.
  - inversion H as [|? ? Hx Hl]; subst.
    rewrite (sum_occupation_cons m n m n), (IH Hl).
    replace (0 <=? mode_index x) with true by (symmetry; apply Z.leb_le; lia).
    replace (mode_index x <? Z.of_nat k) with true
      by (symmetry; apply Z.ltb_lt; lia).
    cbn [andb length]. lia.
Qed.

Lemma range_to_nat (m : Z) (l : list Z) :
  Forall (fun c => 0 <= mode_index c < m) l ->
  Forall (fun c => 0 <= mode_index c < Z.of_nat (Z.to_nat m)) l.
Proof. apply Forall_impl; intros c H; lia. Qed.

(** The cached count of a state satisfying the invariant is the length of
    its particle data. *)
Lemma inv_length (s : fockstate) :
  inv s -> _n s = Z.of_nat (length (particles s)).
Proof.
  intros [_ Hr _ Hc _]. destruct s as [m n [l|]]; cbn [_n _m particles _code] in *.
  - rewrite Hc. apply sum_occupation_length, range_to_nat, Hr.
  - rewrite Hc. apply sum_occupation_nil; reflexivity.
Qed.

Lemma inv_defined (m n : Z) (l : list Z) :
  0 <= m ->
  Forall is_char l ->
  Forall (fun c => 0 <= mode_index c < m) l ->
  Sorted Z.le l ->
  n = Z.of_nat (length l) ->
  inv (mk_fockstate m n (Some l)).
Proof.
  intros Hm Hc Hr Hs Hn. constructor; cbn [particles _code _m _n]; auto.
  rewrite sum_occupation_length; [exact Hn|]. apply range_to_nat, Hr.
Qed.

Lemma inv_firstn (s : fockstate) (l : list Z) :
  inv s -> _code s = Some l ->
  firstn (Z.to_nat (_n s)) l = l /\ length l = Z.to_nat (_n s).
Proof.
  intros Hi Hc. pose proof (inv_length s Hi) as Hn.
  unfold particles in Hn. rewrite Hc in Hn.
  split; [apply firstn_all2|]; lia.
Qed.

(** ** Equality *)

Lemma forallb_nth_eq (la lb : list Z) (n : nat) :
  length la = n -> length lb = n ->
  (forallb (fun i => nth i la 0 =? nth i lb 0) (seq 0 n) = true <-> la = lb).
Proof.
  intros Ha Hb; split.
  - intros H. rewrite forallb_forall in H.
    apply (nth_ext la lb 0 0); [congruence|].
    intros i Hi. apply Z.eqb_eq, H, in_seq. lia.
  - intros ->. apply forallb_forall. intros i _. apply Z.eqb_refl.
Qed.

Lemma operator_eq_fields (a b : fockstate) :
  operator_eq a b = true -> _m a = _m b /\ _n a = _n b.
Proof.
  unfold operator_eq.
  destruct (_m a =? _m b) eqn:Em; [|discriminate].
  destruct (_n a =? _n b) eqn:En; [|discriminate].
  intros _. split; apply Z.eqb_eq; assumption.
Qed.

Lemma inv_no_mode_no_particle (s : fockstate) :
  inv s -> _m s = 0 -> particles s = [].
Proof.
  intros [_ Hr _ _ _] Hm. destruct (particles s) as [|c l]; [reflexivity|].
  inversion Hr; subst; lia.
Qed.


Lemma operator_eq_code (a b : fockstate) (la lb : list Z) :
  _code a = Some la -> _code b = Some lb -> inv a -> inv b ->
  (operator_eq a b = true <-> _m a = _m b /\ _n a = _n b /\ la = lb).
Proof.
  intros Ha Hb Ia Ib.
  destruct (inv_firstn a la Ia Ha) as [_ La].
  destruct (inv_firstn b lb Ib Hb) as [_ Lb].
  split.
  - intros H. destruct (operator_eq_fields a b H) as [Hm Hn].
    split; [exact Hm|split; [exact Hn|]].
    unfold operator_eq in H. rewrite Ha, Hb, Hm, Hn, !Z.eqb_refl in H.
    cbn [negb orb] in H.
    destruct (_m b =? 0) eqn:E0; cbn [andb] in H.
    + apply Z.eqb_eq in E0.
      pose proof (inv_no_mode_no_particle a Ia (eq_trans Hm E0)) as Pa.
      pose proof (inv_no_mode_no_particle b Ib E0) as Pb.
      unfold particles in Pa, Pb. rewrite Ha in Pa. rewrite Hb in Pb.
      congruence.
    + rewrite <- Hn in H.
      apply (forallb_nth_eq la lb (Z.to_nat (_n a))); [exact La| |exact H].
      rewrite Hn; exact Lb.
  - intros (Hm & Hn & Hl). subst lb.
    unfold operator_eq. rewrite Ha, Hb, Hm, Hn, !Z.eqb_refl.
    cbn [negb orb].
    destruct ((_m b =? 0) && (_m b =? 0)); [reflexivity|].
    apply forallb_forall. intros i _. apply Z.eqb_refl.
Qed.


(** C10.  Two states with no mode and no particle are equal, with or
    without code. *)
Theorem C10_eq_no_mode (a b : fockstate) :
  _m a = 0 -> _m b = 0 -> _n a = 0 -> _n b = 0 -> operator_eq a b = true.
Proof.
  intros Ha Hb Na Nb. unfold operator_eq. rewrite Ha, Hb, Na, Nb. reflexivity.
Qed.

(** ** Parsing of concrete texts *)

(** C4.  The text [|,,>] parses to a state without code, with three modes
    and no particle; [|0,0,0>] parses to the state with code, three modes
    and no particle; the two are not equal. *)
Theorem C4_ndef_distinct_from_zero :
  _parse_str "|,,>" = Some (Ok (mk_fockstate 3 0 None))
  /\ _parse_str "|0,0,0>" = Some (Ok (mk_fockstate 3 0 (Some [])))
  /\ operator_eq (mk_fockstate 3 0 None) (mk_fockstate 3 0 (Some [])) = false
  /\ operator_eq (mk_fockstate 3 0 (Some [])) (mk_fockstate 3 0 None) = false.
Proof. repeat split. Qed.

Lemma count_commas_run (k : nat) (rest : cstr) (m : Z) :
  (forall m', count_commas rest m' = (m', rest)) ->
  count_commas (repeat ","%char k ++ rest) m = (m + Z.of_nat k, rest).
Proof.
  intros Hrest. revert m. induction k as [|k IH]; intros m.
  - cbn [repeat app]. rewrite Hrest. f_equal. lia.
  - cbn [repeat app count_commas]. cbn. rewrite IH. f_equal. lia.
Qed.

(** C3 (as amended).  A text made of an opening delimiter, a run of [k >= 1]
    commas and the matching closing delimiter parses to a state without
    code, without particle, and with [k + 1] modes. *)
Theorem C3_comma_run (k : nat) (open_char : ascii) (close : cstr) :
  (1 <= k)%nat ->
  In (open_char, close) delimiters ->
  _parse_str (string_of_list_ascii (open_char :: repeat ","%char k ++ close))
  = Some (Ok (mk_fockstate (Z.of_nat k + 1) 0 None)).
Proof.
  intros Hk Hd. unfold _parse_str.
  rewrite list_ascii_of_string_of_list_ascii.
  destruct k as [|k]; [lia|].
  cbn [In delimiters] in Hd. cbn [repeat app].
  remember (Z.of_nat (S k) + 1) as M eqn:EM.
  assert (HM : (M =? 0) = false) by (apply Z.eqb_neq; lia).
  remember (repeat ","%char k ++ close) as tail eqn:Et.
  destruct Hd as [E|[E|[E|[E|[]]]]]; inversion E; subst open_char close;
    unfold parse_cstr; cbn; subst tail;
    (rewrite count_commas_run by (intros; reflexivity));
    (replace (2 + Z.of_nat k) with M by lia);
    clear EM; cbn; rewrite HM; reflexivity.
Qed.

(** ** States without code *)

(** The guarded operations throw on a state without code. *)
Lemma ndef_guarded (s : fockstate) :
  _code s = None ->
  operator_inc s = Throw ndef_error
  /\ (forall c, operator_plus s c = Throw ndef_error)
  /\ (forall c, operator_plus_assign s (S c) = Throw ndef_error)
  /\ (forall b, operator_mul s b = Throw ndef_error)
  /\ (forall a, operator_mul a s = Throw ndef_error)
  /\ (forall start end_ step, slice s start end_ step = Throw ndef_error)
  /\ (forall fs start end_, set_slice s fs start end_ = Throw ndef_error).
Proof.
  intros H. repeat split; intros.
  - unfold operator_inc; rewrite H; reflexivity.
  - unfold operator_plus; rewrite H; reflexivity.
  - unfold operator_plus_assign; cbn [inc_loop]. unfold operator_inc.
    rewrite H; reflexivity.
  - unfold operator_mul; rewrite H; reflexivity.
  - unfold operator_mul; rewrite H; destruct (_code a); reflexivity.
  - unfold slice, _check_slice; rewrite H; reflexivity.
  - unfold set_slice, _check_slice; rewrite H; reflexivity.
Qed.

(** C2 (the code at the inputs where it departs from the claim).  On the
    state without code of three modes the occupation query returns 0 for
    every mode instead of throwing; on a state without code that kept a
    positive particle count it reads through the null pointer; an index out
    of range gets the out-of-range exception. *)
Theorem C2_index_without_code :
  operator_index (mk_fockstate 3 0 None) 0 = Ok 0
  /\ operator_index (mk_fockstate 3 0 None) 1 = Ok 0
  /\ operator_index (mk_fockstate 3 0 None) 2 = Ok 0
  /\ operator_index (mk_fockstate 1 1 None) 0 = UB
  /\ operator_index (mk_fockstate 3 0 None) 3
     = Throw (out_of_range "invalid mode").
Proof. repeat split. Qed.

(** Incrementing by the count 0 in place leaves a state without code as
    it is. *)
Lemma plus_assign_zero_without_code (s : fockstate) :
  operator_plus_assign s 0 = Ok s.
Proof. reflexivity. Qed.

(** ** Successor: the scan and the exhausted state *)

Lemma scan_last_cons (x : Z) (r : list Z) (top : Z) (k : nat) :
  scan_last (x :: r) top (S k)
  = match scan_last r top k with
    | Some i => Some (S i)
    | None => if x =? top then None else Some O
    end.
Proof.
  induction k as [|k IH].
  - cbn. destruct (x =? top); reflexivity.
  - change (scan_last (x :: r) top (S (S k)))
      with (if nth k r 0 =? top then scan_last (x :: r) top (S k)
            else Some (S k)).
    rewrite IH. cbn [scan_last]. destruct (nth k r 0 =? top); reflexivity.
Qed.

Lemma scan_last_none (code : list Z) (top : Z) (k : nat) :
  (forall i, (i < k)%nat -> nth i code 0 = top) ->
  scan_last code top k = None.
Proof.
  induction k as [|k IH]; intros H; [reflexivity|].
  cbn [scan_last]. rewrite (H k) by lia. rewrite Z.eqb_refl.
  apply IH. intros i Hi. apply H. lia.
Qed.

(** C9.  When every particle is in the last mode, the successor drops the
    code and keeps the mode count and the particle count as they were. *)
Theorem C9_exhaustion_keeps_counts (s : fockstate) (code : list Z) :
  _code s = Some code ->
  (forall i, (i < Z.to_nat (_n s))%nat ->
             mode_index (nth i code 0) = _m s - 1) ->
  operator_inc s = Ok (mk_fockstate (_m s) (_n s) None).
Proof.
  intros Hc Hall. unfold operator_inc. rewrite Hc. unfold inc_code.
  rewrite scan_last_none; [reflexivity|].
  intros i Hi. specialize (Hall i Hi). unfold mode_index in Hall. lia.
Qed.

(** ** Successor: the loops against the front-recursive form *)

Lemma fold_set_shift (i : nat) (x : Z) (js : list nat) (c : list Z) :
  fold_left (fun c j => list_set j (nth (S i) c 0) c) (map S js) (x :: c)
  = x :: fold_left (fun c j => list_set j (nth i c 0) c) js c.
Proof.
  revert c. induction js as [|j js IH]; intros c; [reflexivity|].
  cbn [map fold_left]. cbn [nth list_set]. apply IH.
Qed.

Lemma list_set_app (a b : list Z) (y v : Z) :
  list_set (length a) v (a ++ y :: b) = a ++ v :: b.
Proof. induction a as [|z a IH]; cbn; [reflexivity|]. now rewrite IH. Qed.

Lemma repeat_snoc (v : Z) (k : nat) : repeat v k ++ [v] = repeat v (S k).
Proof. induction k as [|k IH]; cbn; [reflexivity|]. now rewrite IH. Qed.

Lemma fold_set_fill (v : Z) (len k : nat) (r : list Z) :
  length r = len ->
  fold_left (fun c j => list_set j (nth 0 c 0) c) (seq (S k) len)
            (repeat v (S k) ++ r)
  = repeat v (S k + len).
Proof.
  revert k r. induction len as [|len IH]; intros k r Hr.
  - destruct r; [|discriminate]. rewrite app_nil_r, Nat.add_0_r. reflexivity.
  - destruct r as [|y r]; [discriminate|]. injection Hr as Hr.
    cbn [seq fold_left].
    replace (nth 0 (repeat v (S k) ++ y :: r) 0) with v by reflexivity.
    replace (list_set (S k) v (repeat v (S k) ++ y :: r))
      with (repeat v (S (S k)) ++ r).
    + rewrite (IH (S k) r Hr). f_equal. lia.
    + pose proof (list_set_app (repeat v (S k)) r y v) as E.
      rewrite repeat_length in E. rewrite E.
      rewrite <- (repeat_snoc v (S k)), <- app_assoc. reflexivity.
Qed.

Lemma inc_code_cons (x : Z) (r : list Z) (top : Z) (n : nat) :
  length r = n ->
  inc_code (x :: r) top (S n)
  = match inc_code r top n with
    | Some r' => Some (x :: r')
    | None => if x =? top then None
              else Some (repeat (to_char (x + 1)) (S n))
    end.
Proof.
  intros Hr. unfold inc_code. rewrite scan_last_cons.
  destruct (scan_last r top n) as [i|].
  - cbn [nth list_set]. f_equal.
    replace (S n - S (S i))%nat with (n - S i)%nat by lia.
    rewrite <- seq_shift. apply fold_set_shift.
  - destruct (x =? top); [reflexivity|]. f_equal.
    cbn [nth list_set]. replace (S n - 1)%nat with n by lia.
    exact (fold_set_fill (to_char (x + 1)) n 0 r Hr).
Qed.

(** The loops of [operator++] compute [next_code]. *)
Lemma inc_code_next (code : list Z) (top : Z) (n : nat) :
  length code = n -> inc_code code top n = next_code top code.
Proof.
  revert n. induction code as [|x r IH]; intros n Hn.
  - subst n. reflexivity.
  - destruct n as [|n]; [discriminate|]. injection Hn as Hn.
    rewrite (inc_code_cons x r top n Hn), (IH n Hn). cbn [next_code].
    rewrite Hn. reflexivity.
Qed.

Lemma operator_inc_next (m n : Z) (code : list Z) :
  length code = Z.to_nat n ->
  operator_inc (mk_fockstate m n (Some code))
  = Ok (mk_fockstate m n (next_code (m - 1 + chr_A) code)).
Proof.
  intros H. unfold operator_inc. cbn [_code _m _n].
  rewrite (inc_code_next code _ _ H). reflexivity.
Qed.

(** ** The enumeration: membership, distinctness, size *)

Lemma enum_succ (n d : nat) (lo : Z) :
  enum (S n) (S d) lo
  = map (cons lo) (enum n (S d) lo) ++ enum (S n) d (lo + 1).
Proof. reflexivity. Qed.

Lemma enum_In (n d : nat) (lo : Z) (l : list Z) :
  In l (enum n d lo)
  <-> length l = n
      /\ Forall (fun c => lo <= c < lo + Z.of_nat d) l
      /\ StronglySorted Z.le l.
Proof.
  revert d lo l. induction n as [|n IHn]; intros d lo l.
  - cbn [enum In]. split.
    + intros [<-|[]]. repeat split; constructor.
    + intros (H & _ & _). destruct l; [now left|discriminate].
  - revert lo. induction d as [|d IHd]; intros lo.
    + cbn [enum In]. split; [tauto|].
      intros (Hl & Hr & _). destruct l as [|x r]; [discriminate|].
      inversion Hr; subst. lia.
    + rewrite enum_succ, in_app_iff, in_map_iff. split.
      * intros [(r & <- & Hr)|H].
        -- apply IHn in Hr as (Hlen & Hrange & Hs).
           split; [cbn; lia|split].
           ++ constructor; [lia|exact Hrange].
           ++ constructor; [exact Hs|].
              revert Hrange. apply Forall_impl. intros; lia.
        -- apply IHd in H as (Hlen & Hrange & Hs).
           split; [exact Hlen|split; [|exact Hs]].
           revert Hrange. apply Forall_impl. intros; lia.
      * intros (Hlen & Hrange & Hs).
        destruct l as [|x r]; [discriminate|].
        apply StronglySorted_inv in Hs as [Hs Hx].
        inversion Hrange as [|? ? Hx0 Hr0]; subst.
        destruct (Z.eq_dec x lo) as [->|Hne].
        -- left. exists r. split; [reflexivity|]. apply IHn.
           split; [cbn in Hlen; lia|split; [|exact Hs]].
           rewrite Forall_forall in *. intros c Hc.
           specialize (Hx c Hc). specialize (Hr0 c Hc). lia.
        -- right. apply IHd. split; [exact Hlen|split].
           ++ constructor; [lia|].
              rewrite Forall_forall in *. intros c Hc.
              specialize (Hx c Hc). specialize (Hr0 c Hc). lia.
           ++ constructor; assumption.
Qed.

Lemma enum_NoDup (n d : nat) (lo : Z) : NoDup (enum n d lo).
Proof.
  revert d lo. induction n as [|n IHn]; intros d lo.
  - cbn. repeat constructor. intros [].
  - revert lo. induction d as [|d IHd]; intros lo; [constructor|].
    rewrite enum_succ. apply NoDup_app.
    + apply Injective_map_NoDup; [|apply IHn].
      intros a b E. now injection E.
    + apply IHd.
    + intros l Hl Hr. apply in_map_iff in Hl as (r & <- & _).
      apply enum_In in Hr as (_ & Hr & _). inversion Hr; subst. lia.
Qed.

Lemma binom_diag (n : nat) : binom n n = 1%nat /\ binom n (S n) = 0%nat.
Proof.
  induction n as [|n [IH1 IH2]]; [split; reflexivity|].
  assert (H : forall k, (n < k)%nat -> binom n k = 0%nat).
  { clear. induction n as [|n IH]; intros k Hk.
    - destruct k; [lia|reflexivity].
    - destruct k as [|k]; [lia|]. cbn [binom].
      rewrite (IH k), (IH (S k)) by lia. reflexivity. }
  split; cbn [binom].
  - rewrite IH1, IH2. reflexivity.
  - rewrite IH2, (H (S (S n))) by lia. reflexivity.
Qed.

Lemma binom_succ_diag (n : nat) : binom (S n) n = S n.
Proof.
  induction n as [|n IH]; [reflexivity|].
  change (binom (S (S n)) (S n)) with (binom (S n) n + binom (S n) (S n))%nat.
  rewrite IH, (proj1 (binom_diag (S n))). lia.
Qed.

(** Pascal's rule gives the usual quotient of factorials. *)
Lemma binom_fact (n k : nat) :
  (binom (n + k) k * fact k * fact n = fact (n + k))%nat.
Proof.
  revert k. induction n as [|n IHn]; intros k.
  - change (0 + k)%nat with k. rewrite (proj1 (binom_diag k)).
    change (fact 0) with 1%nat. lia.
  - induction k as [|k IHk].
    + rewrite Nat.add_0_r. change (binom (S n) 0) with 1%nat.
      change (fact 0) with 1%nat. lia.
    + replace (S n + S k)%nat with (S (S n + k)) by lia.
      pose proof (IHn (S k)) as H1.
      replace (n + S k)%nat with (S n + k)%nat in H1 by lia.
      change (binom (S (S n + k)) (S k))
        with (binom (S n + k) k + binom (S n + k) (S k))%nat.
      change (fact (S (S n + k))) with (S (S n + k) * fact (S n + k))%nat.
      change (fact (S k)) with (S k * fact k)%nat in H1 |- *.
      change (fact (S n)) with (S n * fact n)%nat in IHk |- *.
      remember (binom (S n + k) k) as A.
      remember (binom (S n + k) (S k)) as B.
      remember (fact (S n + k)) as F.
      remember (fact k) as fk. remember (fact n) as fn.
      transitivity (S k * (A * fk * (S n * fn))
                    + S n * (B * (S k * fk) * fn))%nat; [ring|].
      rewrite IHk, H1. ring.
Qed.

(** The number of non-decreasing [n]-tuples over [d + 1] codes. *)
Lemma enum_count (n d : nat) (lo : Z) :
  length (enum n (S d) lo) = binom (n + d) d.
Proof.
  revert d lo. induction n as [|n IHn]; intros d lo.
  - cbn [enum length Nat.add]. symmetry. apply binom_diag.
  - revert lo. induction d as [|d IHd]; intros lo.
    + rewrite enum_succ, length_app, length_map, IHn.
      cbn [enum length]. rewrite !Nat.add_0_r. destruct n; reflexivity.
    + rewrite enum_succ, length_app, length_map, IHn, IHd.
      replace (S n + S d)%nat with (S (n + S d)) by lia.
      cbn [binom]. replace (S n + d)%nat with (n + S d)%nat by lia. lia.
Qed.

(** ** The successor walks through the enumeration *)

Lemma next_code_length (top : Z) (l l' : list Z) :
  next_code top l = Some l' -> length l' = length l.
Proof.
  revert l'. induction l as [|x r IH]; intros l' H; [discriminate|].
  cbn [next_code] in H. destruct (next_code top r) as [r'|].
  - injection H as <-. cbn. now rewrite (IH r').
  - destruct (x =? top); [discriminate|]. injection H as <-.
    cbn [length]. f_equal. apply repeat_length.
Qed.

Lemma next_code_none (top : Z) (l : list Z) :
  next_code top l = None <->
  (forall j, (j < length l)%nat -> nth j l 0 = top).
Proof.
  induction l as [|x r IH]; cbn [next_code length].
  - split; [intros _ j Hj; lia|reflexivity].
  - destruct (next_code top r) as [r'|].
    + split; [discriminate|]. intros H.
      assert (Hr : forall j, (j < length r)%nat -> nth j r 0 = top)
        by (intros j Hj; apply (H (S j)); lia).
      apply IH in Hr. discriminate.
    + destruct (x =? top) eqn:E.
      * apply Z.eqb_eq in E. split; [|reflexivity]. intros _ [|j] Hj.
        -- exact E.
        -- cbn [nth]. apply (proj1 IH eq_refl). lia.
      * apply Z.eqb_neq in E. split; [discriminate|].
        intros H. exfalso. apply E. apply (H O). lia.
Qed.

(** The successor in words: the last code that is not [top] is incremented
    and copied over the codes behind it. *)
Lemma next_code_at (top : Z) (l : list Z) (i : nat) :
  (i < length l)%nat ->
  nth i l 0 <> top ->
  (forall k, (i < k < length l)%nat -> nth k l 0 = top) ->
  next_code top l
  = Some (firstn i l ++ repeat (to_char (nth i l 0 + 1)) (length l - i)).
Proof.
  revert i. induction l as [|x r IH]; intros i Hi Hne Hlast.
  - cbn in Hi; lia.
  - destruct i as [|i].
    + cbn [nth] in Hne. cbn [next_code firstn app nth length Nat.sub].
      assert (Hr : next_code top r = None).
      { apply next_code_none. intros j Hj. apply (Hlast (S j)). cbn; lia. }
      rewrite Hr. apply Z.eqb_neq in Hne. rewrite Hne. reflexivity.
    + cbn [nth] in Hne. cbn [length] in Hi.
      cbn [next_code firstn nth length Nat.sub].
      rewrite (IH i); [reflexivity|lia|exact Hne|].
      intros k Hk. apply (Hlast (S k)). cbn; lia.
Qed.

Lemma path_map_cons (top v : Z) (a b : list Z) (xs : list (list Z)) :
  path top a xs b -> path top (v :: a) (map (cons v) xs) (v :: b).
Proof.
  induction 1 as [a|a b z xs Hn Hp IH]; cbn [map].
  - constructor.
  - apply path_step with (b := v :: b); [|exact IH].
    cbn [next_code]. rewrite Hn. reflexivity.
Qed.

Lemma path_app (top : Z) (a b c d : list Z) (xs ys : list (list Z)) :
  path top a xs b -> next_code top b = Some c -> path top c ys d ->
  path top a (xs ++ ys) d.
Proof.
  induction 1 as [a|a b z xs Hn Hp IH]; intros Hb Hc; cbn [app].
  - eapply path_step; eassumption.
  - eapply path_step; [eassumption|]. apply IH; assumption.
Qed.

Lemma path_head (top : Z) (a b : list Z) (xs : list (list Z)) :
  path top a xs b -> exists ys, xs = a :: ys.
Proof. destruct 1; eauto. Qed.

(** The enumeration over the codes [lo .. lo + d] is the orbit of the
    successor from the all-[lo] tuple to the all-[top] tuple. *)
Lemma enum_path (n d : nat) (lo : Z) :
  0 <= lo -> lo + Z.of_nat d <= CHAR_MAX ->
  path (lo + Z.of_nat d) (repeat lo n) (enum n (S d) lo)
       (repeat (lo + Z.of_nat d) n).
Proof.
  revert d lo. induction n as [|n IHn]; intros d lo H0 Hmax.
  - cbn. constructor.
  - revert lo H0 Hmax. induction d as [|d IHd]; intros lo H0 Hmax.
    + rewrite enum_succ. cbn [enum]. rewrite app_nil_r.
      specialize (IHn O lo H0 Hmax).
      replace (lo + Z.of_nat 0) with lo in * by lia.
      cbn [repeat]. apply path_map_cons. exact IHn.
    + rewrite enum_succ.
      apply path_app with (b := lo :: repeat (lo + Z.of_nat (S d)) n)
                          (c := repeat (lo + 1) (S n)).
      * cbn [repeat]. apply path_map_cons. apply IHn; assumption.
      * rewrite (next_code_at _ _ 0).
        -- cbn [firstn app nth length Nat.sub].
           rewrite repeat_length, to_char_id by lia. reflexivity.
        -- cbn; lia.
        -- cbn [nth]. lia.
        -- intros k Hk. destruct k as [|k]; [lia|]. cbn [nth].
           apply nth_repeat_lt. cbn [length] in Hk.
           rewrite repeat_length in Hk. lia.
      * replace (lo + Z.of_nat (S d)) with (lo + 1 + Z.of_nat d) by lia.
        apply IHd; lia.
Qed.

Lemma path_nth_next (top : Z) (a b : list Z) (xs : list (list Z)) :
  path top a xs b ->
  forall j, (S j < length xs)%nat ->
            next_code top (nth j xs []) = Some (nth (S j) xs []).
Proof.
  induction 1 as [a|a b z xs Hn Hp IH]; intros j Hj; [cbn in Hj; lia|].
  destruct j as [|j].
  - destruct (path_head _ _ _ _ Hp) as [ys ->]. exact Hn.
  - cbn [nth]. apply IH. cbn in Hj; lia.
Qed.

Lemma inc_loop_path (m n : Z) (a b : list Z) (xs : list (list Z)) :
  path (m - 1 + chr_A) a xs b ->
  next_code (m - 1 + chr_A) b = None ->
  length a = Z.to_nat n ->
  (forall j, (j < length xs)%nat ->
     inc_loop j (mk_fockstate m n (Some a))
     = Ok (mk_fockstate m n (Some (nth j xs []))))
  /\ inc_loop (length xs) (mk_fockstate m n (Some a))
     = Ok (mk_fockstate m n None).
Proof.
  induction 1 as [a|a b z xs Hn Hp IH]; intros Hend Hlen.
  - split.
    + intros [|j] Hj; [reflexivity|cbn in Hj; lia].
    + cbn [length inc_loop]. rewrite operator_inc_next by exact Hlen.
      rewrite Hend. reflexivity.
  - assert (Hb : length b = Z.to_nat n)
      by (rewrite (next_code_length _ _ _ Hn); exact Hlen).
    destruct (IH Hend Hb) as [IH1 IH2]. split.
    + intros [|j] Hj; [reflexivity|].
      cbn [inc_loop nth]. rewrite operator_inc_next by exact Hlen.
      rewrite Hn. cbn [bind]. apply IH1. cbn in Hj; lia.
    + cbn [length inc_loop]. rewrite operator_inc_next by exact Hlen.
      rewrite Hn. exact IH2.
Qed.

Lemma StronglySorted_shift (k : Z) (t : list Z) :
  StronglySorted Z.le t -> StronglySorted Z.le (map (fun x => x + k) t).
Proof.
  induction 1 as [|x t Ht IH Hx]; cbn [map]; constructor; [exact IH|].
  apply Forall_map. revert Hx. apply Forall_impl. intros; lia.
Qed.

(** ** Order of buffers *)

Lemma Z_le_trans' : Relations_1.Transitive Z.le.
Proof. intros x y z; apply Z.le_trans. Qed.

Lemma inv_strongly_sorted (s : fockstate) :
  inv s -> StronglySorted Z.le (particles s).
Proof. intros H. apply Sorted_StronglySorted; [exact Z_le_trans'|apply H]. Qed.

Lemma StronglySorted_app (l1 l2 : list Z) :
  StronglySorted Z.le l1 -> StronglySorted Z.le l2 ->
  (forall x y, In x l1 -> In y l2 -> x <= y) ->
  StronglySorted Z.le (l1 ++ l2).
Proof.
  induction 1 as [|x l1 H1 IH Hx]; intros H2 Hle; [exact H2|].
  cbn [app]. constructor.
  - apply IH; [exact H2|]. intros a b Ha Hb. apply Hle; [now right|exact Hb].
  - apply Forall_app. split; [exact Hx|].
    apply Forall_forall. intros y Hy. apply Hle; [now left|exact Hy].
Qed.

Lemma StronglySorted_repeat (v : Z) (k : nat) :
  StronglySorted Z.le (repeat v k).
Proof.
  induction k as [|k IH]; cbn [repeat]; constructor; [exact IH|].
  apply Forall_forall. intros y Hy. apply repeat_spec in Hy. lia.
Qed.

(** ** Tensor product *)

Lemma operator_mul_code (a b : fockstate) (la lb : list Z) :
  _code a = Some la -> _code b = Some lb -> inv a -> inv b ->
  fits (_m a + _m b) ->
  operator_mul a b
  = Ok (mk_fockstate (_m a + _m b) (_n a + _n b)
                     (Some (la ++ map (fun c => c + _m a) lb))).
Proof.
  intros Ha Hb Ia Ib Hfit.
  pose proof (inv_modes a Ia) as Hm.
  destruct (inv_firstn a la Ia Ha) as [Fa La].
  destruct (inv_firstn b lb Ib Hb) as [Fb Lb].
  unfold operator_mul. rewrite Ha, Hb, Fa, Fb.
  pose proof (inv_length a Ia). pose proof (inv_length b Ib).
  f_equal. f_equal; [lia|]. f_equal. f_equal.
  apply map_ext_in. intros c Hc. apply to_char_id.
  destruct Ib as [_ Hr _ _ _]. unfold particles in Hr. rewrite Hb in Hr.
  rewrite Forall_forall in Hr. specialize (Hr c Hc).
  unfold fits, mode_index, chr_A in *. lia.
Qed.

(** The product of two states with code and non-negative particle
    counts, whatever their buffers hold: no bound on the mode counts. *)
Lemma operator_mul_shape (a b : fockstate) (la lb : list Z) :
  _code a = Some la -> _code b = Some lb -> 0 <= _n a -> 0 <= _n b ->
  operator_mul a b
  = Ok (mk_fockstate (_m a + _m b) (_n a + _n b)
          (Some (firstn (Z.to_nat (_n a)) la
                 ++ map (fun c => to_char (c + _m a))
                        (firstn (Z.to_nat (_n b)) lb)))).
Proof.
  intros Ha Hb Na Nb. unfold operator_mul. rewrite Ha, Hb.
  do 2 f_equal. lia.
Qed.

Lemma operator_mul_inv (a b : fockstate) (la lb : list Z) :
  _code a = Some la -> _code b = Some lb -> inv a -> inv b ->
  operator_mul a b
  = Ok (mk_fockstate (_m a + _m b) (_n a + _n b)
          (Some (la ++ map (fun c => to_char (c + _m a)) lb))).
Proof.
  intros Ha Hb Ia Ib.
  destruct (inv_firstn a la Ia Ha) as [Fa La].
  destruct (inv_firstn b lb Ib Hb) as [Fb Lb].
  pose proof (inv_length a Ia). pose proof (inv_length b Ib).
  rewrite (operator_mul_shape a b la lb Ha Hb) by lia.
  now rewrite Fa, Fb.
Qed.

(** C7 (as amended).  For states [a] and [b] with code and non-negative
    particle counts, the product is a state with code,
    [a.modes + b.modes] modes and [a.particle_count + b.particle_count]
    particles, whose buffer is the particles of [a] followed by the codes
    of the particles of [b], each increased by [a.modes] and stored as a
    [char]; for states that satisfy the invariants these are the whole
    buffers, with no bound on the mode counts.  When moreover the total
    mode count fits the [char] codes, storing changes nothing: the buffer
    is the buffer of [a] followed by the buffer of [b] shifted by
    [a.modes].  The product throws the invalid-operation exception as soon
    as one operand has no code. *)
Theorem C7_tensor_product :
  (forall a b la lb,
     _code a = Some la -> _code b = Some lb -> 0 <= _n a -> 0 <= _n b ->
     operator_mul a b
     = Ok (mk_fockstate (_m a + _m b) (_n a + _n b)
             (Some (firstn (Z.to_nat (_n a)) la
                    ++ map (fun c => to_char (c + _m a))
                           (firstn (Z.to_nat (_n b)) lb)))))
  /\ (forall a b la lb,
        _code a = Some la -> _code b = Some lb -> inv a -> inv b ->
        operator_mul a b
        = Ok (mk_fockstate (_m a + _m b) (_n a + _n b)
                (Some (la ++ map (fun c => to_char (c + _m a)) lb))))
  /\ (forall a b la lb,
        _code a = Some la -> _code b = Some lb -> inv a -> inv b ->
        fits (_m a + _m b) ->
        operator_mul a b
        = Ok (mk_fockstate (_m a + _m b) (_n a + _n b)
                           (Some (la ++ map (fun c => c + _m a) lb))))
  /\ (forall a b, _code a = None \/ _code b = None ->
                  operator_mul a b = Throw ndef_error).
Proof.
  split; [exact operator_mul_shape|]. split; [exact operator_mul_inv|].
  split; [exact operator_mul_code|].
  intros a b [H|H]; unfold operator_mul; rewrite H;
    [|destruct (_code a)]; reflexivity.
Qed.

(** ** Slices of an ordered buffer *)

Lemma in_slice_one (start end_ c : Z) :
  in_slice start end_ 1 c = (start + chr_A <=? c) && (c <? end_ + chr_A).
Proof.
  unfold in_slice. rewrite Z.geb_leb. cbn [Z.eqb orb].
  now rewrite andb_true_r.
Qed.

Lemma filter_none_above (start end_ step : Z) (l : list Z) :
  Forall (fun c => end_ + chr_A <= c) l ->
  filter (in_slice start end_ step) l = [].
Proof.
  induction 1 as [|x l Hx Hl IH]; [reflexivity|]. cbn [filter].
  unfold in_slice at 1.
  replace (x <? end_ + chr_A) with false by (symmetry; apply Z.ltb_ge; lia).
  rewrite andb_false_r. exact IH.
Qed.

Lemma drop_below_above (bound : Z) (l : list Z) :
  Forall (fun c => bound <= c) l -> drop_below bound l = l.
Proof.
  destruct 1 as [|x l Hx Hl]; [reflexivity|]. cbn [drop_below].
  now replace (x <? bound) with false by (symmetry; apply Z.ltb_ge; lia).
Qed.

Lemma Forall_le_trans (x y : Z) (l : list Z) :
  x <= y -> Forall (Z.le y) l -> Forall (fun c => x <= c) l.
Proof. intros H. apply Forall_impl. intros; lia. Qed.

(** From the first particle at or above [start] on, an ordered buffer is
    the particles of the slice followed by those at or above [end]. *)
Lemma slice_then_higher (start end_ : Z) (l : list Z) :
  StronglySorted Z.le l ->
  Forall (fun c => start + chr_A <= c) l ->
  filter (in_slice start end_ 1) l ++ drop_below (end_ + chr_A) l = l.
Proof.
  induction 1 as [|x l Hs IH Hx]; intros Hlo; [reflexivity|].
  inversion Hlo as [|? ? Hx0 Hl0]; subst.
  cbn [filter drop_below]. rewrite in_slice_one.
  replace (start + chr_A <=? x) with true by (symmetry; apply Z.leb_le; lia).
  cbn [andb]. destruct (x <? end_ + chr_A) eqn:E.
  - cbn [app]. f_equal. apply IH; exact Hl0.
  - apply Z.ltb_ge in E.
    rewrite filter_none_above; [reflexivity|].
    apply Forall_le_trans with (y := x); assumption.
Qed.

(** An ordered buffer is made of the particles below [start], those of the
    slice, and those at or above [end]. *)
Lemma slice_split (start end_ : Z) (l : list Z) :
  StronglySorted Z.le l ->
  take_below (start + chr_A) l
  ++ filter (in_slice start end_ 1) l
  ++ drop_below (end_ + chr_A) (drop_below (start + chr_A) l)
  = l.
Proof.
  induction 1 as [|x l Hs IH Hx]; [reflexivity|].
  cbn [take_below drop_below]. destruct (x <? start + chr_A) eqn:E.
  - cbn [filter]. rewrite in_slice_one.
    replace (start + chr_A <=? x) with false
      by (symmetry; apply Z.leb_gt; apply Z.ltb_lt in E; lia).
    cbn [andb app]. f_equal. exact IH.
  - apply Z.ltb_ge in E. cbn [app]. apply slice_then_higher.
    + constructor; assumption.
    + constructor; [exact E|].
      apply Forall_le_trans with (y := x); assumption.
Qed.

Lemma check_slice_in_range (s : fockstate) (l : list Z) (start end_ step : Z) :
  _code s = Some l -> 0 <= start -> 0 <= end_ <= _m s -> 1 <= step ->
  _check_slice s start end_ step
  = Ok (start, end_,
        count_steps (Z.to_nat (end_ - start)) start end_ step,
        Z.of_nat (length (filter (in_slice start end_ step)
                                 (firstn (Z.to_nat (_n s)) l)))).
Proof.
  intros Hc Hs He Hstep.
  assert (E1 : (start <? 0) = false) by (apply Z.ltb_ge; lia).
  assert (E2 : (end_ <? 0) = false) by (apply Z.ltb_ge; lia).
  assert (E3 : (end_ >? _m s) = false)
    by (rewrite Z.gtb_ltb; apply Z.ltb_ge; lia).
  assert (E4 : (step <=? 0) = false) by (apply Z.leb_gt; lia).
  unfold _check_slice. cbv zeta. rewrite Hc, E1, E2. cbv iota.
  rewrite E1, E2. cbv iota. rewrite E3. cbv iota.
  rewrite E4, andb_false_r. reflexivity.
Qed.

(** C6 (as amended).  On a state with code that satisfies the invariants,
    taking the slice of the modes [start .. end-1] and writing it back at
    the same place gives the state back. *)
Theorem C6_slice_set_slice (fs : fockstate) (l : list Z) (start end_ : Z) :
  _code fs = Some l -> inv fs -> 0 <= start < end_ -> end_ <= _m fs ->
  exists sl r,
    slice fs start end_ 1 = Ok sl
    /\ set_slice fs sl start end_ = Ok r
    /\ r = fs
    /\ operator_eq r fs = true.
Proof.
  intros Hc Hi Hse Hem.
  destruct (inv_firstn fs l Hi Hc) as [Hf Hlen].
  pose proof (inv_length fs Hi) as Hn. unfold particles in Hn.
  rewrite Hc in Hn.
  pose proof (inv_strongly_sorted fs Hi) as Hs. unfold particles in Hs.
  rewrite Hc in Hs.
  assert (Hrange : Forall (fun c => 0 <= mode_index c < _m fs) l).
  { destruct Hi as [_ Hr _ _ _]. unfold particles in Hr.
    now rewrite Hc in Hr. }
  assert (Hchars : Forall is_char l).
  { destruct Hi as [Hch _ _ _ _]. unfold particles in Hch.
    now rewrite Hc in Hch. }
  set (filt := filter (in_slice start end_ 1) l).
  set (sm := count_steps (Z.to_nat (end_ - start)) start end_ 1).
  assert (Hcs : _check_slice fs start end_ 1
                = Ok (start, end_, sm, Z.of_nat (length filt))).
  { rewrite (check_slice_in_range fs l) by (try assumption; lia).
    rewrite Hf. reflexivity. }
  assert (Hback : map (fun c => to_char (c + start))
                      (map (fun c => to_char (Z.quot (c - start - chr_A) 1
                                               + chr_A)) filt)
                  = filt).
  { rewrite map_map. rewrite <- (map_id filt) at 2.
    apply map_ext_in. intros c Hin. apply filter_In in Hin as [Hin Hsl].
    rewrite in_slice_one in Hsl. apply andb_true_iff in Hsl as [H1 H2].
    apply Z.leb_le in H1. apply Z.ltb_lt in H2.
    rewrite Forall_forall in Hchars. pose proof (Hchars c Hin) as Hch.
    pose proof (is_char_bound c Hch) as Hb.
    rewrite Z.quot_1_r.
    rewrite (to_char_id (c - start - chr_A + chr_A))
      by (unfold chr_A in *; lia).
    replace (c - start - chr_A + chr_A + start) with c by lia. exact Hch. }
  assert (Hsplit := slice_split start end_ l Hs). fold filt in Hsplit.
  destruct (Z.of_nat (length filt) =? 0) eqn:E0.
  - (* the slice holds no particle *)
    exists (fockstate_mn sm 0), fs.
    assert (Hfilt : filt = []).
    { apply Z.eqb_eq in E0. destruct filt; [reflexivity|cbn in E0; lia]. }
    split; [unfold slice; rewrite Hcs; cbn [bind]; rewrite E0; reflexivity|].
    split; [|split; [reflexivity|]].
    + unfold set_slice. rewrite Hcs. cbn [bind].
      cbn [fockstate_mn Z.eqb _m _n _code]. rewrite Z.eqb_refl. cbn [negb].
      rewrite Hfilt. cbn [length Z.of_nat].
      replace (_n fs - 0 + 0) with (_n fs) by lia.
      destruct (_n fs =? 0) eqn:En.
      * apply Z.eqb_eq in En. destruct fs as [m n c]. cbn in *.
        subst c. destruct l; [|cbn in Hn; lia]. subst n. reflexivity.
      * rewrite Hc, Hf. change (firstn (Z.to_nat 0) (@nil Z)) with (@nil Z).
        cbn [map app].
        rewrite Hfilt in Hsplit. cbn [app] in Hsplit. rewrite Hsplit.
        destruct fs as [m n c]. cbn in *. now subst c.
    + apply (operator_eq_code fs fs l l Hc Hc Hi Hi). auto.
  - (* the slice holds particles *)
    exists (mk_fockstate sm (Z.of_nat (length filt))
              (Some (map (fun c => to_char (Z.quot (c - start - chr_A) 1
                                            + chr_A)) filt))), fs.
    split.
    { unfold slice. rewrite Hcs. cbn [bind]. rewrite E0, Hc, Hf.
      reflexivity. }
    split; [|split; [reflexivity|]].
    + unfold set_slice. rewrite Hcs. cbn [bind]. cbn [_m _n _code].
      rewrite Z.eqb_refl. cbn [negb].
      replace (_n fs - Z.of_nat (length filt) + Z.of_nat (length filt))
        with (_n fs) by lia.
      destruct (_n fs =? 0) eqn:En.
      * apply Z.eqb_eq in En. exfalso. apply Z.eqb_neq in E0.
        assert (length l = O) by lia. destruct l; [|discriminate].
        apply E0. reflexivity.
      * rewrite Hc, Hf. rewrite Nat2Z.id.
        rewrite <- (length_map (fun c => to_char (Z.quot (c - start - chr_A) 1
                                                  + chr_A)) filt) at 1.
        rewrite firstn_all, Hback, Hsplit.
        destruct fs as [m n c]. cbn in *. now subst c.
    + apply (operator_eq_code fs fs l l Hc Hc Hi Hi). auto.
Qed.

(** ** Construction from an occupation vector *)

Lemma fill_code_S (m : nat) (v : list Z) :
  fill_code (S m) v
  = fill_code m v
    ++ repeat (to_char (Z.of_nat m + chr_A)) (Z.to_nat (nth m v 0)).
Proof.
  unfold fill_code. rewrite seq_S, flat_map_app. cbn [flat_map Nat.add].
  now rewrite app_nil_r.
Qed.

Lemma sum_vect_S (m : nat) (v : list Z) :
  sum_vect (S m) v = sum_vect m v + nth m v 0.
Proof. unfold sum_vect. rewrite seq_S, fold_left_app. reflexivity. Qed.

Lemma nth_nonneg (v : list Z) (i : nat) :
  Forall (fun c => 0 <= c) v -> 0 <= nth i v 0.
Proof.
  intros H. destruct (Nat.lt_ge_cases i (length v)) as [Hi|Hi].
  - rewrite Forall_forall in H. apply H, nth_In, Hi.
  - rewrite nth_overflow by exact Hi. lia.
Qed.

Lemma fill_code_props (m : nat) (v : list Z) :
  Forall (fun c => 0 <= c) v -> fits (Z.of_nat m) ->
  Forall (fun c => chr_A <= c < chr_A + Z.of_nat m) (fill_code m v)
  /\ StronglySorted Z.le (fill_code m v)
  /\ Z.of_nat (length (fill_code m v)) = sum_vect m v.
Proof.
  intros Hv. unfold fits. induction m as [|m IH]; intros Hfit.
  - repeat split; constructor.
  - destruct IH as (Hr & Hs & Hl); [lia|].
    rewrite fill_code_S, sum_vect_S.
    rewrite (to_char_id (Z.of_nat m + chr_A)) by (unfold chr_A; lia).
    split; [|split].
    + apply Forall_app. split.
      * revert Hr. apply Forall_impl. intros; lia.
      * apply Forall_forall. intros c Hc. apply repeat_spec in Hc. lia.
    + apply StronglySorted_app; [exact Hs|apply StronglySorted_repeat|].
      intros x y Hx Hy. apply repeat_spec in Hy.
      rewrite Forall_forall in Hr. specialize (Hr x Hx). lia.
    + rewrite length_app, repeat_length, Nat2Z.inj_add, Hl.
      pose proof (nth_nonneg v m Hv). lia.
Qed.

Lemma inv_fill_code (m : nat) (v : list Z) :
  Forall (fun c => 0 <= c) v -> fits (Z.of_nat m) ->
  inv (mk_fockstate (Z.of_nat m) (sum_vect m v) (Some (fill_code m v))).
Proof.
  intros Hv Hfit. destruct (fill_code_props m v Hv Hfit) as (Hr & Hs & Hl).
  unfold fits in Hfit. apply inv_defined; [lia| | | |].
  - revert Hr. apply Forall_impl. intros c Hc. apply to_char_id.
    unfold chr_A in *. lia.
  - revert Hr. apply Forall_impl. intros c Hc.
    unfold mode_index, chr_A in *. lia.
  - apply StronglySorted_Sorted, Hs.
  - symmetry; exact Hl.
Qed.

Lemma inv_empty (m : Z) : 0 <= m -> inv (mk_fockstate m 0 (Some [])).
Proof. intros Hm. apply inv_defined; [exact Hm| | | |]; constructor. Qed.

Lemma inv_no_code (m : Z) : 0 <= m -> inv (mk_fockstate m 0 None).
Proof.
  intros Hm. constructor; cbn [particles _code _n _m]; try constructor;
    [|exact Hm].
  symmetry. apply sum_occupation_nil. reflexivity.
Qed.

Lemma inv_of_vect (fs_vect : list Z) :
  Forall (fun c => 0 <= c) fs_vect -> fits (Z.of_nat (length fs_vect)) ->
  inv (fockstate_of_vect fs_vect).
Proof.
  intros Hv Hfit. unfold fockstate_of_vect.
  destruct (sum_vect (length fs_vect) fs_vect =? 0).
  - apply inv_empty. lia.
  - apply inv_fill_code; assumption.
Qed.

(** ** Parsing *)

Lemma parse_term_nonneg (fuel : nat) (str str' : cstr) (total total' : Z) :
  parse_term fuel str total = Some (Ok (total', str')) -> total <= total'.
Proof.
  revert str total. induction fuel as [|f IH]; intros str total H;
    [discriminate|].
  cbn [parse_term] in H.
  destruct (isdigit (peek str) || (peek str =? "{")%char).
  - destruct (if (peek str =? "{")%char then (1, str) else read_digits str 0)
      as [cn str1].
    destruct (peek str1 =? "{")%char.
    + destruct (cn =? 0); [discriminate|].
      destruct (find_close (tl str1)) as [[sa str2]|]; [|discriminate].
      destruct (annotation_new sa); try discriminate.
      apply IH in H. lia.
    + apply IH in H. lia.
  - injection H as <- <-. lia.
Qed.

Lemma sum_vect_app (m : nat) (v w : list Z) :
  (m <= length v)%nat -> sum_vect m (v ++ w) = sum_vect m v.
Proof.
  induction m as [|m IH]; intros Hm; [reflexivity|].
  rewrite !sum_vect_S, IH by lia. rewrite app_nth1 by lia. reflexivity.
Qed.

Lemma sum_vect_snoc (v : list Z) (t : Z) :
  sum_vect (length (v ++ [t])) (v ++ [t]) = sum_vect (length v) v + t.
Proof.
  rewrite length_app. cbn [length]. rewrite Nat.add_1_r, sum_vect_S.
  rewrite sum_vect_app by lia. rewrite nth_middle. reflexivity.
Qed.

Lemma parse_modes_sum (fuel : nat) (str str' : cstr) (fs fs' : list Z)
      (n n' : Z) :
  parse_modes fuel str fs n = Some (Ok (str', fs', n')) ->
  Forall (fun c => 0 <= c) fs -> n = sum_vect (length fs) fs ->
  Forall (fun c => 0 <= c) fs' /\ n' = sum_vect (length fs') fs'
  /\ (fs' = [] -> fs = []).
Proof.
  revert str fs n. induction fuel as [|f IH]; intros str fs n H Hfs Hn;
    [discriminate|].
  cbn [parse_modes] in H. cbv zeta in H.
  match type of H with (if ?c then _ else _) = _ => destruct c end.
  - injection H as <- <- <-. auto.
  - match type of H with
    | match parse_term ?a ?b ?c with _ => _ end = _ =>
        destruct (parse_term a b c) as [[[t s1]| |]|] eqn:Et;
          try discriminate
    end.
    apply parse_term_nonneg in Et.
    apply IH in H.
    + destruct H as (H1 & H2 & H3). repeat split; try assumption.
      intros E. specialize (H3 E). destruct fs; discriminate.
    + apply Forall_app. split; [exact Hfs|]. repeat constructor. exact Et.
    + rewrite sum_vect_snoc. lia.
Qed.

Lemma count_commas_pos (str str' : cstr) (m m' : Z) :
  count_commas str m = (m', str') -> m <= m'.
Proof.
  revert m. induction str as [|c r IH]; intros m H; cbn [count_commas] in H.
  - injection H as <- <-. lia.
  - destruct (c =? " ")%char; [apply IH; exact H|].
    destruct (c =? ",")%char; [apply IH in H; lia|].
    injection H as <- <-. lia.
Qed.

Lemma inv_parse (str : string) (s : fockstate) :
  _parse_str str = Some (Ok s) -> fits (_m s) -> inv s.
Proof.
  unfold _parse_str, parse_cstr. cbv zeta.
  set (str0 := skip_blanks (list_ascii_of_string str)).
  destruct (negb (peek str0 =? "[")%char && negb (peek str0 =? "|")%char
            && negb (peek str0 =? "(")%char); [discriminate|].
  destruct (parse_modes (S (length (tl str0))) (tl str0) [] 0)
    as [[[[str1 fs] n]| |]|] eqn:Ep; try discriminate.
  apply parse_modes_sum in Ep as (Hfs & Hn & _); [|constructor|reflexivity].
  destruct (match fs with
            | [] => if (peek str1 =? ",")%char then count_commas str1 1
                    else (0, str1)
            | _ :: _ => (0, str1)
            end) as [m str2] eqn:Em.
  destruct (bad_close (peek str0) str2); [discriminate|].
  match goal with |- (if ?c then _ else _) = _ -> _ => destruct c end;
    [discriminate|].
  destruct (negb (m =? 0)) eqn:E0.
  - intros H _. injection H as <-.
    destruct fs as [|t fs]; [|injection Em as <- <-; discriminate].
    subst n. apply inv_no_code.
    destruct (peek str1 =? ",")%char; [|injection Em as <- <-; discriminate].
    apply count_commas_pos in Em. lia.
  - destruct (negb (n =? 0)) eqn:E1; intros H Hfit; injection H as <-;
      cbn [_m] in Hfit.
    + subst n. apply inv_fill_code; assumption.
    + apply negb_false_iff, Z.eqb_eq in E1. rewrite E1. apply inv_empty.
      lia.
Qed.

(** *** The fuel of the parser is enough *)

Lemma skip_blanks_length (str : cstr) :
  (length (skip_blanks str) <= length str)%nat.
Proof.
  induction str as [|c r IH]; cbn [skip_blanks]; [lia|].
  destruct (c =? " ")%char; cbn [length]; lia.
Qed.

Lemma read_digits_length (str str' : cstr) (cn cn' : Z) :
  read_digits str cn = (cn', str') ->
  (length str' <= length str)%nat
  /\ (isdigit (peek str) = true -> length str' < length str)%nat.
Proof.
  revert cn. induction str as [|c r IH]; intros cn H; cbn [read_digits] in H.
  - injection H as <- <-. split; [lia|]. cbn. discriminate.
  - cbn [peek]. destruct (isdigit c) eqn:E.
    + apply IH in H as [H _]. cbn [length]. split; [lia|intros _; lia].
    + injection H as <- <-. split; [lia|discriminate].
Qed.

Lemma find_close_length (str sa rest : cstr) :
  find_close str = Some (sa, rest) -> (length rest < length str)%nat.
Proof.
  revert sa. induction str as [|c r IH]; intros sa H; [discriminate|].
  cbn [find_close] in H. destruct (c =? zero)%char; [discriminate|].
  destruct (c =? "}")%char.
  - injection H as <- <-. cbn; lia.
  - destruct (find_close r) as [[sa' rest']|]; [|discriminate].
    injection H as <- <-. specialize (IH _ eq_refl). cbn; lia.
Qed.

Lemma tl_length (str : cstr) : (length (tl str) <= length str)%nat.
Proof. destruct str; cbn; lia. Qed.

Lemma parse_term_fuel (fuel : nat) (str : cstr) (total : Z) :
  (length str < fuel)%nat ->
  exists r, parse_term fuel str total = Some r
    /\ forall t str', r = Ok (t, str') ->
         (length str' <= length str)%nat
         /\ (isdigit (peek str) || (peek str =? "{")%char = true ->
             length str' < length str)%nat.
Proof.
  revert str total. induction fuel as [|f IH]; intros str total Hf; [lia|].
  cbn [parse_term].
  destruct (isdigit (peek str) || (peek str =? "{")%char) eqn:Ehead.
  - destruct (if (peek str =? "{")%char then (1, str) else read_digits str 0)
      as [cn str1] eqn:E1.
    assert (H1 : (length str1 <= length str)%nat
                 /\ ((peek str =? "{")%char = false ->
                     length str1 < length str)%nat).
    { destruct (peek str =? "{")%char eqn:Eb.
      - injection E1 as <- <-. split; [lia|discriminate].
      - apply read_digits_length in E1 as [Ha Hb]. split; [exact Ha|].
        intros _. apply Hb. rewrite orb_false_r in Ehead. exact Ehead. }
    destruct H1 as [H1 H1'].
    destruct (peek str1 =? "{")%char eqn:Eb1.
    + destruct (cn =? 0); [eexists; split; [reflexivity|discriminate]|].
      destruct (find_close (tl str1)) as [[sa str2]|] eqn:Ec;
        [|eexists; split; [reflexivity|discriminate]].
      apply find_close_length in Ec. pose proof (tl_length str1).
      assert (Hlt : (length str2 < length str1)%nat).
      { destruct str1; cbn in *; lia. }
      destruct (annotation_new sa);
        try (eexists; split; [reflexivity|discriminate]).
      destruct (IH str2 (total + Z.max 0 cn)) as (r & Hr & Hlen); [lia|].
      exists r. split; [exact Hr|]. intros t str' ->.
      destruct (Hlen _ _ eq_refl) as [Hl _]. split; [lia|intros _; lia].
    + assert (Hlt : (length str1 < length str)%nat).
      { destruct (peek str =? "{")%char eqn:Eb; [|apply H1'; reflexivity].
        injection E1 as <- <-. congruence. }
      destruct (IH str1 (total + Z.max 0 cn)) as (r & Hr & Hlen); [lia|].
      exists r. split; [exact Hr|]. intros t str' ->.
      destruct (Hlen _ _ eq_refl) as [Hl _]. split; [lia|intros _; lia].
  - eexists; split; [reflexivity|]. intros t str' E. injection E as <- <-.
    split; [lia|discriminate].
Qed.

Lemma parse_modes_fuel (fuel : nat) (str : cstr) (fs : list Z) (n : Z) :
  (length str < fuel)%nat -> parse_modes fuel str fs n <> None.
Proof.
  revert str fs n. induction fuel as [|f IH]; intros str fs n Hf; [lia|].
  cbn [parse_modes]. cbv zeta.
  pose proof (skip_blanks_length str) as Hsk.
  set (str0 := skip_blanks str) in *.
  destruct ((peek str0 =? zero)%char || negb (term_char (peek str0))
            || negb match fs with [] => true | _ :: _ => false end
               && negb (peek str0 =? ",")%char
            || match fs with [] => true | _ :: _ => false end
               && (peek str0 =? ",")%char) eqn:Ebreak; [discriminate|].
  apply orb_false_iff in Ebreak as [Ebreak _].
  apply orb_false_iff in Ebreak as [Ebreak _].
  apply orb_false_iff in Ebreak as [Ez Et].
  apply negb_false_iff in Et.
  set (str1 := if (peek str0 =? ",")%char then skip_blanks (tl str0)
               else str0).
  destruct (parse_term_fuel (S (length str1)) str1 0) as (r & Hr & Hlen);
    [lia|].
  rewrite Hr. destruct r as [[t str']| |]; try discriminate.
  apply IH. destruct (Hlen _ _ eq_refl) as [Hl Hlt].
  unfold str1 in *. destruct (peek str0 =? ",")%char eqn:Ec.
  - pose proof (skip_blanks_length (tl str0)).
    destruct str0 as [|c0 r0]; [discriminate|]. cbn [tl length] in *. lia.
  - assert ((length str' < length str0)%nat); [|lia].
    apply Hlt. unfold term_char in Et. rewrite Ec, orb_false_r in Et.
    exact Et.
Qed.

(** The parser always comes to a result. *)
Lemma _parse_str_total (str : string) : _parse_str str <> None.
Proof.
  unfold _parse_str, parse_cstr. cbv zeta.
  set (str0 := skip_blanks (list_ascii_of_string str)).
  destruct (negb (peek str0 =? "[")%char && negb (peek str0 =? "|")%char
            && negb (peek str0 =? "(")%char); [discriminate|].
  pose proof (parse_modes_fuel (S (length (tl str0))) (tl str0) [] 0) as H.
  destruct (parse_modes (S (length (tl str0))) (tl str0) [] 0)
    as [[[[str1 fs] n]| |]|]; try discriminate; [|exfalso; apply H; [lia|reflexivity]].
  destruct (match fs with
            | [] => if (peek str1 =? ",")%char then count_commas str1 1
                    else (0, str1)
            | _ :: _ => (0, str1)
            end) as [m str2].
  destruct (bad_close (peek str0) str2); [discriminate|].
  match goal with |- (if ?c then _ else _) <> _ => destruct c end;
    [discriminate|].
  destruct (negb (m =? 0)); [discriminate|].
  destruct (negb (n =? 0)); discriminate.
Qed.

(** ** The operations keep the invariants *)

Lemma inv_parts (s : fockstate) (l : list Z) :
  inv s -> _code s = Some l ->
  Forall is_char l
  /\ Forall (fun c => 0 <= mode_index c < _m s) l
  /\ StronglySorted Z.le l
  /\ _n s = Z.of_nat (length l)
  /\ 0 <= _m s.
Proof.
  intros Hi Hc. pose proof (inv_length s Hi) as Hn.
  pose proof (inv_strongly_sorted s Hi) as Hs.
  destruct Hi as [H1 H2 _ _ H5]. unfold particles in *. rewrite Hc in *.
  auto.
Qed.

Lemma copy_id (s : fockstate) : inv s -> copy s = s.
Proof.
  intros Hi. unfold copy. destruct s as [m n [l|]]; cbn [_code _m _n] in *;
    [|reflexivity].
  destruct (inv_firstn _ l Hi eq_refl) as [Hf Hl]. cbn [_n] in Hf, Hl.
  destruct (n =? 0) eqn:E; [|now rewrite Hf].
  apply Z.eqb_eq in E. subst n. destruct l; [reflexivity|discriminate].
Qed.

(** The successor keeps bounds, order and length of a buffer. *)
Lemma next_code_keeps (top lo : Z) (l l' : list Z) :
  0 <= lo -> top <= CHAR_MAX ->
  Forall (fun c => lo <= c <= top) l -> StronglySorted Z.le l ->
  next_code top l = Some l' ->
  Forall (fun c => lo <= c <= top) l' /\ StronglySorted Z.le l'
  /\ (forall b, Forall (Z.le b) l -> Forall (Z.le b) l').
Proof.
  intros Hlo Htop. revert l'.
  induction l as [|x r IH]; intros l' Hr Hs H; [discriminate|].
  inversion Hr as [|? ? Hx Hr']; subst.
  apply StronglySorted_inv in Hs as [Hs Hxr].
  cbn [next_code] in H. destruct (next_code top r) as [r'|] eqn:E.
  - injection H as <-. destruct (IH r' Hr' Hs eq_refl) as (H1 & H2 & H3).
    split; [constructor; assumption|]. split.
    + constructor; [exact H2|]. apply H3. exact Hxr.
    + intros b Hb. inversion Hb; subst. constructor; [assumption|].
      apply H3; assumption.
  - destruct (x =? top) eqn:Ex; [discriminate|]. apply Z.eqb_neq in Ex.
    injection H as <-. rewrite to_char_id by lia.
    split; [|split].
    + apply Forall_forall. intros c Hc.
      apply (repeat_spec (S (length r))) in Hc. lia.
    + apply (StronglySorted_repeat (x + 1) (S (length r))).
    + intros b Hb. inversion Hb; subst.
      apply Forall_forall. intros c Hc.
      apply (repeat_spec (S (length r))) in Hc. lia.
Qed.

Lemma inv_successor (s s' : fockstate) :
  inv s -> fits (_m s) -> operator_inc s = Ok s' -> _code s' <> None ->
  inv s'.
Proof.
  intros Hi Hfit H Hdef. unfold operator_inc in H.
  destruct (_code s) as [l|] eqn:Hc; [|discriminate].
  destruct (inv_parts s l Hi Hc) as (Hch & Hr & Hs & Hn & Hm).
  rewrite inc_code_next in H by lia. injection H as <-.
  cbn [_code] in Hdef.
  destruct (next_code (_m s - 1 + chr_A) l) as [l'|] eqn:E; [|congruence].
  unfold fits in Hfit.
  destruct (next_code_keeps (_m s - 1 + chr_A) chr_A l l') as (H1 & H2 & _);
    try assumption; try (unfold chr_A; lia).
  { revert Hr. apply Forall_impl. intros c Hc'.
    unfold mode_index, chr_A in *. lia. }
  apply inv_defined; [exact Hm| | | |].
  - revert H1. apply Forall_impl. intros c Hc'. apply to_char_id.
    unfold chr_A in *. lia.
  - revert H1. apply Forall_impl. intros c Hc'.
    unfold mode_index, chr_A in *. lia.
  - apply StronglySorted_Sorted, H2.
  - rewrite (next_code_length _ _ _ E). exact Hn.
Qed.

Lemma inv_mul (a b r : fockstate) :
  inv a -> inv b -> fits (_m a + _m b) ->
  operator_mul a b = Ok r -> inv r.
Proof.
  intros Ia Ib Hfit H.
  destruct (_code a) as [la|] eqn:Ha;
    [|unfold operator_mul in H; rewrite Ha in H; discriminate].
  destruct (_code b) as [lb|] eqn:Hb;
    [|unfold operator_mul in H; rewrite Ha, Hb in H; discriminate].
  rewrite (operator_mul_code a b la lb Ha Hb Ia Ib Hfit) in H.
  injection H as <-.
  destruct (inv_parts a la Ia Ha) as (Ca & Ra & Sa & Na & Ma).
  destruct (inv_parts b lb Ib Hb) as (Cb & Rb & Sb & Nb & Mb).
  unfold fits in Hfit.
  assert (Rb' : Forall (fun c => chr_A + _m a <= c < chr_A + _m a + _m b)
                       (map (fun c => c + _m a) lb)).
  { apply Forall_map. revert Rb. apply Forall_impl. intros c Hc.
    unfold mode_index in Hc. lia. }
  apply inv_defined; [lia| | | |].
  - apply Forall_app. split; [exact Ca|].
    revert Rb'. apply Forall_impl. intros c Hc. apply to_char_id.
    unfold chr_A in *. lia.
  - apply Forall_app. split.
    + revert Ra. apply Forall_impl. intros c Hc.
      unfold mode_index in *. lia.
    + revert Rb'. apply Forall_impl. intros c Hc.
      unfold mode_index. lia.
  - apply StronglySorted_Sorted, StronglySorted_app; [exact Sa| |].
    + apply StronglySorted_shift; exact Sb.
    + intros x y Hx Hy. rewrite Forall_forall in Ra, Rb'.
      specialize (Ra x Hx). specialize (Rb' y Hy).
      unfold mode_index in Ra. lia.
  - rewrite length_app, length_map. lia.
Qed.

(** *** Slices *)

Lemma count_steps_nonneg (fuel : nat) (i end_ step : Z) :
  0 <= count_steps fuel i end_ step.
Proof.
  revert i. induction fuel as [|f IH]; intros i; cbn [count_steps]; [lia|].
  destruct (i <? end_); [|lia]. specialize (IH (i + step)). lia.
Qed.

Lemma count_steps_le (fuel : nat) (i end_ step : Z) :
  1 <= step -> count_steps fuel i end_ step <= Z.max 0 (end_ - i).
Proof.
  intros Hstep. revert i. induction fuel as [|f IH]; intros i;
    cbn [count_steps]; [lia|].
  destruct (i <? end_) eqn:E; [|lia]. apply Z.ltb_lt in E.
  specialize (IH (i + step)). lia.
Qed.

Lemma count_steps_covers (fuel : nat) (i end_ step x : Z) :
  1 <= step -> end_ - i <= Z.of_nat fuel -> 0 <= x < end_ - i ->
  Z.quot x step < count_steps fuel i end_ step.
Proof.
  intros Hstep. revert i x. induction fuel as [|f IH]; intros i x Hf Hx;
    [lia|].
  cbn [count_steps].
  replace (i <? end_) with true by (symmetry; apply Z.ltb_lt; lia).
  rewrite Z.quot_div_nonneg by lia.
  destruct (Z_lt_ge_dec x step) as [Hlt|Hge].
  - rewrite Z.div_small by lia.
    pose proof (count_steps_nonneg f (i + step) end_ step). lia.
  - specialize (IH (i + step) (x - step)).
    rewrite Z.quot_div_nonneg in IH by lia.
    replace x with (x - step + 1 * step) at 1 by lia.
    rewrite Z.div_add by lia. lia.
Qed.

Lemma check_slice_spec (s : fockstate) (start end_ step st e sm sn : Z) :
  _check_slice s start end_ step = Ok (st, e, sm, sn) ->
  exists l, _code s = Some l
    /\ 0 <= st /\ e <= _m s /\ (st < e -> 1 <= step)
    /\ sm = count_steps (Z.to_nat (e - st)) st e step
    /\ sn = Z.of_nat (length (filter (in_slice st e step)
                                     (firstn (Z.to_nat (_n s)) l))).
Proof.
  unfold _check_slice. cbv zeta.
  set (st1 := if start <? 0 then start + _m s else start).
  set (e1 := if end_ <? 0 then end_ + _m s else end_).
  set (st2 := if st1 <? 0 then 0 else st1).
  set (e2 := if e1 <? 0 then 0 else e1).
  set (e3 := if e2 >? _m s then _m s else e2).
  destruct (_code s) as [l|]; [|discriminate].
  destruct ((st2 <? e3) && (step <=? 0)) eqn:E; [discriminate|].
  intros H. injection H as <- <- <- <-. exists l.
  split; [reflexivity|]. split; [|split; [|split; [|split; reflexivity]]].
  - unfold st2. destruct (st1 <? 0) eqn:E1; [lia|].
    apply Z.ltb_ge in E1. exact E1.
  - unfold e3. destruct (e2 >? _m s) eqn:E3; [lia|].
    rewrite Z.gtb_ltb in E3. apply Z.ltb_ge in E3. exact E3.
  - intros Hlt. apply andb_false_iff in E as [E|E].
    + apply Z.ltb_ge in E. lia.
    + apply Z.leb_gt in E. lia.
Qed.

Lemma StronglySorted_filter (f : Z -> bool) (l : list Z) :
  StronglySorted Z.le l -> StronglySorted Z.le (filter f l).
Proof.
  induction 1 as [|x l Hs IH Hx]; cbn [filter]; [constructor|].
  destruct (f x); [|exact IH]. constructor; [exact IH|].
  rewrite Forall_forall in *. intros y Hy. apply filter_In in Hy as [Hy _].
  apply Hx, Hy.
Qed.

Lemma StronglySorted_map_mono (f : Z -> Z) (l : list Z) :
  (forall x y, In x l -> In y l -> x <= y -> f x <= f y) ->
  StronglySorted Z.le l -> StronglySorted Z.le (map f l).
Proof.
  intros Hf Hs. induction Hs as [|x l Hs IH Hx]; cbn [map]; constructor.
  - apply IH. intros a b Ha Hb. apply Hf; now right.
  - apply Forall_map. rewrite Forall_forall in *. intros y Hy.
    apply Hf; [now left|now right|apply Hx, Hy].
Qed.

Lemma inv_slice (s r : fockstate) (start end_ step : Z) :
  inv s -> slice s start end_ step = Ok r -> inv r.
Proof.
  intros Hi H. unfold slice in H.
  destruct (_check_slice s start end_ step) as [[[[st e] sm] sn]| |] eqn:Ecs;
    try discriminate.
  cbn [bind] in H.
  destruct (check_slice_spec _ _ _ _ _ _ _ _ Ecs)
    as (l & Hc & Hst & He & Hstep & Hsm & Hsn).
  destruct (inv_parts s l Hi Hc) as (Hch & Hr & Hs & Hn & Hm).
  destruct (inv_firstn s l Hi Hc) as [Hf _]. rewrite Hf in *.
  assert (Hsm0 : 0 <= sm) by (subst sm; apply count_steps_nonneg).
  destruct (sn =? 0) eqn:E0.
  - injection H as <-. apply inv_empty. exact Hsm0.
  - rewrite Hc, Hf in H. injection H as <-.
    set (filt := filter (in_slice st e step) l) in *.
    assert (Hfilt : forall c, In c filt ->
              In c l /\ st + chr_A <= c < e + chr_A).
    { intros c Hin. apply filter_In in Hin as [Hin Hsl]. split; [exact Hin|].
      unfold in_slice in Hsl. apply andb_true_iff in Hsl as [Hsl _].
      apply andb_true_iff in Hsl as [H1 H2].
      rewrite Z.geb_leb in H1. apply Z.leb_le in H1. apply Z.ltb_lt in H2.
      lia. }
    assert (Hstep1 : 1 <= step).
    { apply Hstep. destruct filt as [|c ?] eqn:Ef.
      - apply Z.eqb_neq in E0. cbn in Hsn. lia.
      - destruct (Hfilt c (or_introl eq_refl)). lia. }
    assert (Hq : forall c, In c filt ->
              0 <= Z.quot (c - st - chr_A) step <= c - st - chr_A
              /\ Z.quot (c - st - chr_A) step < sm).
    { intros c Hin. destruct (Hfilt c Hin) as [_ Hb]. split.
      - rewrite Z.quot_div_nonneg by lia. split.
        + apply Z.div_pos; lia.
        + apply Z.div_le_upper_bound; [lia|]. nia.
      - subst sm. apply count_steps_covers; lia. }
    assert (Hmap : map (fun c => to_char (Z.quot (c - st - chr_A) step
                                          + chr_A)) filt
                   = map (fun c => Z.quot (c - st - chr_A) step + chr_A)
                         filt).
    { apply map_ext_in. intros c Hin. apply to_char_id.
      destruct (Hq c Hin) as [Hq1 _]. destruct (Hfilt c Hin) as [Hl _].
      rewrite Forall_forall in Hch.
      pose proof (is_char_bound c (Hch c Hl)). unfold chr_A in *. lia. }
    rewrite Hmap. apply inv_defined; [exact Hsm0| | | |].
    + apply Forall_map, Forall_forall. intros c Hin. apply to_char_id.
      destruct (Hq c Hin) as [Hq1 _]. destruct (Hfilt c Hin) as [Hl _].
      rewrite Forall_forall in Hch.
      pose proof (is_char_bound c (Hch c Hl)). unfold chr_A in *. lia.
    + apply Forall_map, Forall_forall. intros c Hin.
      destruct (Hq c Hin) as [Hq1 Hq2]. unfold mode_index. lia.
    + apply StronglySorted_Sorted, StronglySorted_map_mono.
      * intros x y Hx Hy Hxy.
        destruct (Hfilt x Hx) as [_ Hbx]. destruct (Hfilt y Hy) as [_ Hby].
        rewrite !Z.quot_div_nonneg by lia.
        pose proof (Z.div_le_mono (x - st - chr_A) (y - st - chr_A) step).
        lia.
      * apply StronglySorted_filter, Hs.
    + rewrite length_map. exact Hsn.
Qed.

Lemma take_below_In (bound c : Z) (l : list Z) :
  In c (take_below bound l) -> In c l /\ c < bound.
Proof.
  induction l as [|x l IH]; cbn [take_below]; [intros []|].
  destruct (x <? bound) eqn:E; [|intros []].
  apply Z.ltb_lt in E. intros [<-|H].
  - split; [now left|exact E].
  - destruct (IH H). split; [now right|assumption].
Qed.

Lemma drop_below_In (bound c : Z) (l : list Z) :
  In c (drop_below bound l) -> In c l.
Proof.
  induction l as [|x l IH]; cbn [drop_below]; [intros []|].
  destruct (x <? bound); [intros H; right; apply IH, H|trivial].
Qed.

Lemma take_below_sorted (bound : Z) (l : list Z) :
  StronglySorted Z.le l -> StronglySorted Z.le (take_below bound l).
Proof.
  induction 1 as [|x l Hs IH Hx]; cbn [take_below]; [constructor|].
  destruct (x <? bound); constructor; [exact IH|].
  rewrite Forall_forall in *. intros y Hy. apply Hx.
  apply take_below_In in Hy. tauto.
Qed.

Lemma drop_below_sorted (bound : Z) (l : list Z) :
  StronglySorted Z.le l ->
  StronglySorted Z.le (drop_below bound l)
  /\ Forall (Z.le bound) (drop_below bound l).
Proof.
  induction 1 as [|x l Hs IH Hx]; cbn [drop_below];
    [split; constructor|].
  destruct (x <? bound) eqn:E; [exact IH|]. apply Z.ltb_ge in E. split.
  - constructor; assumption.
  - constructor; [exact E|]. revert Hx. apply Forall_impl. intros; lia.
Qed.

Lemma inv_set_slice (s fs r : fockstate) (start end_ : Z) :
  inv s -> inv fs -> fits (_m s) ->
  set_slice s fs start end_ = Ok r -> inv r.
Proof.
  intros Hi Hfs Hfit H. unfold set_slice in H.
  destruct (_check_slice s start end_ 1) as [[[[st e] sm] sn]| |] eqn:Ecs;
    try discriminate.
  cbn [bind] in H.
  destruct (check_slice_spec _ _ _ _ _ _ _ _ Ecs)
    as (l & Hc & Hst & He & _ & Hsm & Hsn).
  destruct (inv_parts s l Hi Hc) as (Hch & Hr & Hs & Hn & Hm).
  destruct (inv_firstn s l Hi Hc) as [Hf _]. rewrite Hf in Hsn.
  destruct (negb (sm =? _m fs)) eqn:Em; [discriminate|].
  apply negb_false_iff, Z.eqb_eq in Em.
  destruct (_n s - sn + _n fs =? 0) eqn:E0.
  { injection H as <-. apply inv_empty. exact Hm. }
  rewrite Hc, Hf in H.
  pose proof (count_steps_le (Z.to_nat (e - st)) st e 1 ltac:(lia)) as Hsm'.
  rewrite <- Hsm in Hsm'.
  set (lower := take_below (st + chr_A) l) in *.
  set (higher := drop_below (e + chr_A) (drop_below (st + chr_A) l)) in *.
  (* the particles written between the two parts *)
  assert (Hins : exists ins,
            r = mk_fockstate (_m s) (_n s - sn + _n fs)
                             (Some (lower ++ ins ++ higher))
            /\ _n fs = Z.of_nat (length ins)
            /\ StronglySorted Z.le ins
            /\ Forall (fun c => st + chr_A <= c < e + chr_A) ins).
  { destruct (_code fs) as [fl|] eqn:Hfc.
    - destruct (inv_parts fs fl Hfs Hfc) as (Fch & Fr & Fs & Fn & Fm).
      destruct (inv_firstn fs fl Hfs Hfc) as [Ff _]. rewrite Ff in H.
      injection H as <-.
      assert (Hshift : map (fun c => to_char (c + st)) fl
                       = map (fun c => c + st) fl).
      { apply map_ext_in. intros c Hin. apply to_char_id.
        rewrite Forall_forall in Fr. specialize (Fr c Hin).
        unfold fits, mode_index, chr_A in *. lia. }
      rewrite Hshift. exists (map (fun c => c + st) fl).
      split; [reflexivity|]. split; [now rewrite length_map|]. split.
      + apply StronglySorted_shift, Fs.
      + apply Forall_map. revert Fr. apply Forall_impl. intros c Hc'.
        unfold mode_index in Hc'. lia.
    - pose proof (inv_length fs Hfs) as Fn. unfold particles in Fn.
      rewrite Hfc in Fn. cbn [length Z.of_nat] in Fn. rewrite Fn in H.
      cbn [Z.ltb Z.compare] in H. injection H as <-. exists [].
      rewrite Fn. repeat split; constructor. }
  destruct Hins as (ins & -> & Hnins & Sins & Rins).
  assert (Hsplit := slice_split st e l Hs). fold lower higher in Hsplit.
  assert (Hlen : Z.of_nat (length lower) + sn + Z.of_nat (length higher)
                 = _n s).
  { apply (f_equal (@length Z)) in Hsplit. rewrite !length_app in Hsplit.
    lia. }
  assert (Hlow : forall c, In c lower -> In c l /\ c < st + chr_A)
    by (intros c; apply take_below_In).
  assert (Hhigh : forall c, In c higher ->
            In c l /\ st + chr_A <= c /\ e + chr_A <= c).
  { intros c Hin. unfold higher in Hin.
    destruct (drop_below_sorted (st + chr_A) l Hs) as [Hs1 Hge1].
    destruct (drop_below_sorted (e + chr_A) _ Hs1) as [_ Hge2].
    rewrite Forall_forall in Hge1, Hge2.
    specialize (Hge2 c Hin). apply drop_below_In in Hin.
    specialize (Hge1 c Hin). apply drop_below_In in Hin. auto. }
  rewrite Forall_forall in Hch, Hr, Rins.
  unfold fits in Hfit.
  apply inv_defined; [exact Hm| | | |].
  - apply Forall_forall. intros c Hin.
    apply in_app_or in Hin as [Hin|Hin]; [apply Hch, Hlow, Hin|].
    apply in_app_or in Hin as [Hin|Hin]; [|apply Hch, Hhigh, Hin].
    specialize (Rins c Hin). apply to_char_id. unfold chr_A in *. lia.
  - apply Forall_forall. intros c Hin.
    apply in_app_or in Hin as [Hin|Hin]; [apply Hr, Hlow, Hin|].
    apply in_app_or in Hin as [Hin|Hin]; [|apply Hr, Hhigh, Hin].
    specialize (Rins c Hin). unfold mode_index. lia.
  - apply StronglySorted_Sorted.
    apply StronglySorted_app; [apply take_below_sorted, Hs| |].
    + apply StronglySorted_app; [exact Sins| |].
      * unfold higher.
        apply drop_below_sorted, drop_below_sorted, Hs.
      * intros x y Hx Hy. specialize (Rins x Hx).
        destruct (Hhigh y Hy) as (_ & _ & Hy'). lia.
    + intros x y Hx Hy. destruct (Hlow x Hx) as [_ Hx'].
      apply in_app_or in Hy as [Hy|Hy].
      * specialize (Rins y Hy). lia.
      * destruct (Hhigh y Hy) as (_ & Hy' & _). lia.
  - rewrite !length_app. lia.
Qed.

(** C8 (as amended).  With mode counts whose codes fit a [char] (and
    non-negative counts in an occupation vector), the state built from an
    occupation vector, the state a text parses to, the state with code the
    successor yields, the tensor product, a slice, the state [set_slice]
    returns, a copy and an assigned state satisfy the invariants whenever
    the operands do. *)
Theorem C8_invariants_preserved :
  (forall fs_vect,
     Forall (fun c => 0 <= c) fs_vect -> fits (Z.of_nat (length fs_vect)) ->
     inv (fockstate_of_vect fs_vect))
  /\ (forall str s, _parse_str str = Some (Ok s) -> fits (_m s) -> inv s)
  /\ (forall s s', inv s -> fits (_m s) -> operator_inc s = Ok s' ->
                   _code s' <> None -> inv s')
  /\ (forall a b r, inv a -> inv b -> fits (_m a + _m b) ->
                    operator_mul a b = Ok r -> inv r)
  /\ (forall s start end_ step r,
        inv s -> slice s start end_ step = Ok r -> inv r)
  /\ (forall s fs start end_ r,
        inv s -> inv fs -> fits (_m s) ->
        set_slice s fs start end_ = Ok r -> inv r)
  /\ (forall s, inv s -> inv (copy s))
  /\ (forall target s same_object,
        inv s -> (same_object = true -> target = s) ->
        inv (assign target s same_object)).
Proof.
  split; [exact inv_of_vect|]. split; [exact inv_parse|].
  split; [exact inv_successor|]. split; [exact inv_mul|].
  split; [intros s start end_ step r Hi H; exact (inv_slice _ _ _ _ _ Hi H)|].
  split; [intros s fs start end_ r; apply inv_set_slice|].
  split; [intros s Hi; now rewrite copy_id|].
  intros target s same_object Hi Hsame. unfold assign.
  destruct same_object; [now rewrite Hsame|now rewrite copy_id].
Qed.

(** ** The successor enumerates the states of [(m, n)] *)

Lemma inc_loop_snoc (j : nat) (s : fockstate) :
  inc_loop (S j) s = bind (inc_loop j s) operator_inc.
Proof.
  revert s. induction j as [|j IH]; intros s.
  - cbn [inc_loop bind]. destruct (operator_inc s); reflexivity.
  - change (inc_loop (S (S j)) s)
      with (bind (operator_inc s) (inc_loop (S j))).
    change (inc_loop (S j) s) with (bind (operator_inc s) (inc_loop j)).
    destruct (operator_inc s) as [s'| |]; cbn [bind]; [apply IH| |];
      reflexivity.
Qed.

Lemma fockstate_mn_repeat (m n : Z) :
  0 <= n ->
  fockstate_mn m n = mk_fockstate m n (Some (repeat chr_A (Z.to_nat n))).
Proof.
  intros Hn. unfold fockstate_mn. destruct (n =? 0) eqn:E; [|reflexivity].
  apply Z.eqb_eq in E. subst n. reflexivity.
Qed.

(** C1 (as amended).  For a mode count [m >= 1] whose codes fit a [char]
    and a particle count [n >= 0], the successor applied repeatedly from
    the state with all particles in mode 0: reaches the state without code
    after exactly [C(n+m-1, m-1)] applications, passing only through
    states with code that satisfy the invariants; at each of them that has
    a particle outside the last mode it increments the last such particle
    and copies the new code over the particles behind; no two of the states
    passed are equal; and every non-decreasing [n]-tuple of modes below [m],
    and so every occupation vector of [n] particles over [m] modes, is the
    state after exactly one number of applications. *)
Theorem C1_successor_enumeration (m n : Z) :
  1 <= m -> fits m -> 0 <= n ->
  let K := binom (Z.to_nat (n + m - 1)) (Z.to_nat (m - 1)) in
  let s0 := fockstate_mn m n in
  inc_loop K s0 = Ok (mk_fockstate m n None)
  /\ (forall j, (j < K)%nat ->
        exists l, inc_loop j s0 = Ok (mk_fockstate m n (Some l))
                  /\ inv (mk_fockstate m n (Some l)))
  /\ (forall j l i, (j < K)%nat ->
        inc_loop j s0 = Ok (mk_fockstate m n (Some l)) ->
        (i < length l)%nat ->
        mode_index (nth i l 0) <> m - 1 ->
        (forall k, (i < k < length l)%nat ->
                   mode_index (nth k l 0) = m - 1) ->
        inc_loop (S j) s0
        = Ok (mk_fockstate m n
                (Some (firstn i l ++ repeat (nth i l 0 + 1) (length l - i)))))
  /\ (forall j1 j2 s1 s2, (j1 < K)%nat -> (j2 < K)%nat -> j1 <> j2 ->
        inc_loop j1 s0 = Ok s1 -> inc_loop j2 s0 = Ok s2 ->
        s1 <> s2 /\ operator_eq s1 s2 = false)
  /\ (forall t, length t = Z.to_nat n -> Sorted Z.le t ->
        Forall (fun k => 0 <= k < m) t ->
        exists j, (j < K)%nat
          /\ inc_loop j s0
             = Ok (mk_fockstate m n (Some (map (fun k => k + chr_A) t)))
          /\ forall j', (j' < K)%nat ->
               inc_loop j' s0
               = Ok (mk_fockstate m n (Some (map (fun k => k + chr_A) t))) ->
               j' = j)
  /\ (forall fs_vect, Z.of_nat (length fs_vect) = m ->
        Forall (fun c => 0 <= c) fs_vect ->
        sum_vect (length fs_vect) fs_vect = n ->
        exists j, (j < K)%nat
          /\ inc_loop j s0 = Ok (fockstate_of_vect fs_vect)
          /\ forall j', (j' < K)%nat ->
               inc_loop j' s0 = Ok (fockstate_of_vect fs_vect) -> j' = j).
Proof.
  intros Hm Hfit Hn K s0. unfold fits in Hfit.
  set (N := Z.to_nat n). set (d := Z.to_nat (m - 1)).
  set (xs := enum N (S d) chr_A).
  assert (Htop : chr_A + Z.of_nat d = m - 1 + chr_A) by (unfold d; lia).
  assert (HK : length xs = K).
  { unfold xs, K. rewrite enum_count. f_equal. unfold N, d. lia. }
  assert (Hpath : path (m - 1 + chr_A) (repeat chr_A N) xs
                       (repeat (m - 1 + chr_A) N)).
  { rewrite <- Htop. apply enum_path; unfold chr_A in *; lia. }
  assert (Hend : next_code (m - 1 + chr_A) (repeat (m - 1 + chr_A) N) = None).
  { apply next_code_none. intros j Hj. rewrite repeat_length in Hj.
    apply nth_repeat_lt; exact Hj. }
  destruct (inc_loop_path m n _ _ _ Hpath Hend (repeat_length _ _))
    as [F1 F2].
  pose proof (fockstate_mn_repeat m n Hn) as Hs0. fold N s0 in Hs0.
  rewrite <- Hs0, HK in F1, F2.
  assert (Hin : forall j, (j < K)%nat ->
            length (nth j xs []) = N
            /\ Forall (fun c => chr_A <= c < chr_A + Z.of_nat (S d))
                      (nth j xs [])
            /\ StronglySorted Z.le (nth j xs [])).
  { intros j Hj. apply enum_In. apply nth_In. fold xs. rewrite HK.
    exact Hj. }
  assert (Hnodup : NoDup xs) by apply enum_NoDup.
  assert (Honce : forall l, In l xs ->
            exists j, (j < K)%nat
              /\ inc_loop j s0 = Ok (mk_fockstate m n (Some l))
              /\ forall j', (j' < K)%nat ->
                   inc_loop j' s0 = Ok (mk_fockstate m n (Some l)) ->
                   j' = j).
  { intros l Hmem. destruct (In_nth _ _ [] Hmem) as (j & Hj & Ej).
    exists j. split; [lia|]. split.
    - rewrite (F1 j) by lia. rewrite Ej. reflexivity.
    - intros j' Hj' E'. rewrite (F1 j' Hj') in E'. injection E' as E'.
      apply (proj1 (NoDup_nth xs []) Hnodup); [lia|lia|congruence]. }
  split; [exact F2|]. split; [|split; [|split; [|split]]].
  - intros j Hj. exists (nth j xs []). split; [apply F1; exact Hj|].
    destruct (Hin j Hj) as (Hl & Hr & Hs).
    apply inv_defined; [lia| | | |].
    + revert Hr. apply Forall_impl. intros c Hc.
      apply to_char_id. unfold chr_A in *. lia.
    + revert Hr. apply Forall_impl. intros c Hc.
      unfold mode_index, chr_A in *. lia.
    + apply StronglySorted_Sorted; exact Hs.
    + rewrite Hl. unfold N. lia.
  - intros j l i Hj Hl Hi Hne Hlast.
    rewrite (F1 j Hj) in Hl. injection Hl as <-.
    destruct (Hin j Hj) as (Hlen & Hr & _).
    rewrite inc_loop_snoc, (F1 j Hj). cbn [bind].
    rewrite operator_inc_next by exact Hlen.
    rewrite (next_code_at _ _ i Hi).
    + rewrite to_char_id; [reflexivity|].
      rewrite Forall_forall in Hr.
      specialize (Hr _ (nth_In _ 0 Hi)).
      unfold mode_index, chr_A in *. lia.
    + unfold mode_index in Hne. lia.
    + intros k Hk. specialize (Hlast k Hk). unfold mode_index in Hlast. lia.
  - intros j1 j2 s1 s2 H1 H2 Hne E1 E2.
    rewrite (F1 j1 H1) in E1. rewrite (F1 j2 H2) in E2.
    injection E1 as <-. injection E2 as <-.
    assert (Hd : nth j1 xs [] <> nth j2 xs []).
    { intros E. apply Hne.
      apply (proj1 (NoDup_nth xs []) Hnodup); [lia|lia|exact E]. }
    split; [congruence|].
    destruct (operator_eq _ _) eqn:E; [|reflexivity]. exfalso. apply Hd.
    unfold operator_eq in E. cbn [_m _n _code] in E.
    rewrite !Z.eqb_refl in E. cbn [negb orb] in E.
    replace (m =? 0) with false in E by (symmetry; apply Z.eqb_neq; lia).
    cbn [andb] in E.
    apply (forallb_nth_eq _ _ N); [apply Hin; exact H1|apply Hin; exact H2|].
    exact E.
  - intros t Ht Hs Hr. apply Honce.
    apply enum_In. rewrite length_map. split; [exact Ht|split].
    + apply Forall_map. revert Hr. apply Forall_impl. intros; lia.
    + apply StronglySorted_shift, Sorted_StronglySorted; [|exact Hs].
      intros x y z; apply Z.le_trans.
  - intros v Hlen Hv Hsum.
    assert (Hfitv : fits (Z.of_nat (length v))) by (unfold fits; lia).
    destruct (fill_code_props (length v) v Hv Hfitv) as (Hr & Hs & Hl).
    assert (Hstate : fockstate_of_vect v
                     = mk_fockstate m n (Some (fill_code (length v) v))).
    { unfold fockstate_of_vect. rewrite Hsum, Hlen.
      destruct (n =? 0) eqn:E; [|reflexivity]. apply Z.eqb_eq in E.
      destruct (fill_code (length v) v); [now rewrite E|cbn in Hl; lia]. }
    rewrite Hstate. apply Honce. apply enum_In.
    split; [unfold N; lia|split; [|exact Hs]].
    revert Hr. apply Forall_impl. intros c Hc. unfold d. lia.
Qed.

(** * Further properties of the class *)

(** ** Equality is an equivalence; copies are equal to the original *)

Lemma operator_eq_refl (s : fockstate) : operator_eq s s = true.
Proof.
  unfold operator_eq. rewrite !Z.eqb_refl. cbn [negb orb].
  destruct ((_m s =? 0) && (_m s =? 0)); [reflexivity|].
  destruct (_code s) as [l|]; [|reflexivity].
  apply forallb_forall. intros i _. apply Z.eqb_refl.
Qed.

Lemma operator_eq_sym (a b : fockstate) : operator_eq a b = operator_eq b a.
Proof.
  unfold operator_eq.
  destruct (Z.eqb_spec (_m a) (_m b)) as [Em|Em];
    destruct (Z.eqb_spec (_m b) (_m a)) as [Em'|Em']; try congruence;
    [|reflexivity].
  destruct (Z.eqb_spec (_n a) (_n b)) as [En|En];
    destruct (Z.eqb_spec (_n b) (_n a)) as [En'|En']; try congruence;
    [|reflexivity].
  cbn [negb orb]. rewrite Em, andb_diag.
  destruct (_m b =? 0); [reflexivity|].
  destruct (_code a) as [la|], (_code b) as [lb|]; try reflexivity.
  rewrite En. induction (seq 0 (Z.to_nat (_n b))) as [|i js IH];
    [reflexivity|].
  cbn [forallb]. rewrite IH, (Z.eqb_sym (nth i la 0)). reflexivity.
Qed.

Lemma operator_eq_trans (a b c : fockstate) :
  operator_eq a b = true -> operator_eq b c = true -> operator_eq a c = true.
Proof.
  intros Hab Hbc.
  destruct (operator_eq_fields a b Hab) as [Hm1 Hn1].
  destruct (operator_eq_fields b c Hbc) as [Hm2 Hn2].
  unfold operator_eq in *.
  rewrite Hm1, Hm2, Hn1, Hn2, !Z.eqb_refl in Hab.
  rewrite Hm2, Hn2, !Z.eqb_refl in Hbc.
  rewrite Hm1, Hm2, Hn1, Hn2, !Z.eqb_refl. cbn [negb orb] in *.
  destruct ((_m c =? 0) && (_m c =? 0)); [reflexivity|].
  destruct (_code a) as [la|], (_code b) as [lb|], (_code c) as [lc|];
    try reflexivity; try discriminate.
  rewrite forallb_forall in *. intros i Hi.
  specialize (Hab i Hi). specialize (Hbc i Hi).
  apply Z.eqb_eq in Hab. apply Z.eqb_eq in Hbc. apply Z.eqb_eq. congruence.
Qed.

(** X1.  [operator==] is reflexive, symmetric and transitive on all
    states, with or without code, whether or not they satisfy the
    invariants. *)
Theorem X1_operator_eq_equivalence :
  (forall s, operator_eq s s = true)
  /\ (forall a b, operator_eq a b = operator_eq b a)
  /\ (forall a b c, operator_eq a b = true -> operator_eq b c = true ->
                    operator_eq a c = true).
Proof.
  split; [exact operator_eq_refl|].
  split; [exact operator_eq_sym|exact operator_eq_trans].
Qed.

Lemma copy_eq (s : fockstate) : operator_eq (copy s) s = true.
Proof.
  unfold copy, operator_eq.
  destruct s as [m n [l|]]; cbn [_m _n _code].
  - destruct (n =? 0) eqn:En; cbn [_m _n _code]; rewrite !Z.eqb_refl;
      cbn [negb orb]; destruct ((m =? 0) && (m =? 0)); try reflexivity.
    + apply Z.eqb_eq in En. rewrite En. reflexivity.
    + apply forallb_forall. intros i Hi. apply in_seq in Hi.
      rewrite nth_firstn.
      replace (i <? Z.to_nat n)%nat with true
        by (symmetry; apply Nat.ltb_lt; lia).
      apply Z.eqb_refl.
  - rewrite !Z.eqb_refl. cbn [negb orb].
    destruct ((m =? 0) && (m =? 0)); reflexivity.
Qed.

(** X2.  The copy of any state compares equal to the original, has the
    same mode and particle counts, and has code exactly when the original
    has; copying a copy changes nothing. *)
Theorem X2_copy_equal (s : fockstate) :
  operator_eq (copy s) s = true
  /\ _m (copy s) = _m s /\ _n (copy s) = _n s
  /\ (_code (copy s) = None <-> _code s = None)
  /\ copy (copy s) = copy s.
Proof.
  split; [apply copy_eq|]. unfold copy.
  destruct s as [m n [l|]]; cbn [_m _n _code].
  - destruct (n =? 0) eqn:En; cbn [_m _n _code]; rewrite ?En;
      repeat split; try discriminate.
    rewrite firstn_firstn, Nat.min_id. reflexivity.
  - repeat split; trivial.
Qed.

(** ** The occupation query and the occupation vector *)

Lemma count_mode_sorted (l : list Z) (idx : Z) :
  StronglySorted Z.le l ->
  count_mode l idx = Z.of_nat (count_occ Z.eq_dec l (idx + chr_A)).
Proof.
  induction 1 as [|x l Hs IH Hx]; [reflexivity|].
  cbn [count_mode count_occ].
  destruct (x - chr_A <=? idx) eqn:E.
  - rewrite IH. destruct (Z.eq_dec x (idx + chr_A)) as [->|Hne].
    + replace (idx + chr_A - chr_A =? idx) with true
        by (symmetry; apply Z.eqb_eq; lia). lia.
    + replace (x - chr_A =? idx) with false
        by (symmetry; apply Z.eqb_neq; lia). lia.
  - apply Z.leb_gt in E.
    destruct (Z.eq_dec x (idx + chr_A)) as [->|Hne]; [lia|].
    symmetry. apply (f_equal Z.of_nat (y := O)).
    apply count_occ_not_In. intros Hin.
    rewrite Forall_forall in Hx. specialize (Hx _ Hin). lia.
Qed.

Lemma operator_index_occupation (s : fockstate) (l : list Z) (idx : Z) :
  inv s -> _code s = Some l -> 0 <= idx < _m s ->
  operator_index s idx = Ok (occupation s idx).
Proof.
  intros Hi Hc Hidx. unfold operator_index, occupation, particles.
  rewrite Hc.
  replace (idx <? 0) with false by (symmetry; apply Z.ltb_ge; lia).
  replace (idx >=? _m s) with false
    by (symmetry; rewrite Z.geb_leb; apply Z.leb_gt; lia).
  cbn [orb]. destruct (inv_firstn s l Hi Hc) as [-> _].
  rewrite count_mode_sorted; [reflexivity|].
  destruct (inv_parts s l Hi Hc) as (_ & _ & Hs & _). exact Hs.
Qed.

(** X3.  On a state with code that satisfies the invariants, the
    occupation query of a mode in range returns the number of particles in
    that mode (the early exit of the scan loses none); outside the range it
    throws out-of-range. *)
Theorem X3_index_is_occupation (s : fockstate) (l : list Z) :
  inv s -> _code s = Some l ->
  (forall idx, 0 <= idx < _m s ->
     operator_index s idx
     = Ok (Z.of_nat (count_occ Z.eq_dec l (idx + chr_A))))
  /\ (forall idx, idx < 0 \/ _m s <= idx ->
        operator_index s idx = Throw (out_of_range "invalid mode")).
Proof.
  intros Hi Hc. split.
  - intros idx Hidx. rewrite (operator_index_occupation s l idx Hi Hc Hidx).
    unfold occupation, particles. rewrite Hc. reflexivity.
  - intros idx Hidx. unfold operator_index.
    destruct (idx <? 0) eqn:E1; [reflexivity|]. apply Z.ltb_ge in E1.
    replace (idx >=? _m s) with true
      by (symmetry; rewrite Z.geb_leb; apply Z.leb_le; lia).
    reflexivity.
Qed.

Lemma list_set_length (i : nat) (v : Z) (l : list Z) :
  length (list_set i v l) = length l.
Proof.
  revert i. induction l as [|x l IH]; intros [|i]; cbn; auto.
Qed.

Lemma nth_list_set (i k : nat) (v : Z) (l : list Z) :
  (i < length l)%nat ->
  nth k (list_set i v l) 0 = if (k =? i)%nat then v else nth k l 0.
Proof.
  revert i k. induction l as [|x l IH]; intros i k Hi; [cbn in Hi; lia|].
  destruct i as [|i], k as [|k]; cbn [list_set nth Nat.eqb]; try reflexivity.
  apply IH. cbn in Hi. lia.
Qed.

Lemma nth_map_seq (f : nat -> Z) (m k : nat) :
  (k < m)%nat -> nth k (map f (seq 0 m)) 0 = f k.
Proof.
  intros Hk.
  rewrite (nth_indep _ 0 (f O)) by (rewrite length_map, length_seq; exact Hk).
  rewrite map_nth, seq_nth by exact Hk. reflexivity.
Qed.

Lemma map_nth_seq (v : list Z) :
  map (fun k => nth k v 0) (seq 0 (length v)) = v.
Proof.
  apply (nth_ext _ _ 0 0); rewrite length_map, length_seq; [reflexivity|].
  intros i Hi. now rewrite nth_map_seq.
Qed.

(** The counting loop adds to each entry the number of particles of its
    mode. *)
Lemma count_into_spec (l v : list Z) :
  Forall (fun c => 0 <= mode_index c < Z.of_nat (length v)) l ->
  count_into v l
  = Ok (map (fun k => nth k v 0
                      + Z.of_nat (count_occ Z.eq_dec l (Z.of_nat k + chr_A)))
            (seq 0 (length v))).
Proof.
  revert v. induction l as [|c r IH]; intros v Hr.
  - cbn [count_into count_occ]. f_equal.
    transitivity (map (fun k => nth k v 0) (seq 0 (length v)));
      [symmetry; apply map_nth_seq|].
    apply map_ext. intros k. cbn. lia.
  - inversion Hr as [|? ? Hc Hr']; subst. unfold mode_index in Hc.
    cbn [count_into]. unfold vect_incr.
    replace (c - chr_A <? 0) with false by (symmetry; apply Z.ltb_ge; lia).
    replace (c - chr_A >=? Z.of_nat (length v)) with false
      by (symmetry; rewrite Z.geb_leb; apply Z.leb_gt; lia).
    cbn [orb bind]. rewrite IH by (rewrite list_set_length; exact Hr').
    rewrite list_set_length. f_equal. apply map_ext. intros k.
    rewrite nth_list_set by lia. cbn [count_occ].
    destruct (Nat.eqb_spec k (Z.to_nat (c - chr_A))) as [->|Hk].
    + destruct (Z.eq_dec c (Z.of_nat (Z.to_nat (c - chr_A)) + chr_A)); lia.
    + destruct (Z.eq_dec c (Z.of_nat k + chr_A)); lia.
Qed.

Lemma new_vect_nonneg (m : Z) :
  0 <= m -> new_vect m = Ok (repeat 0 (Z.to_nat m)).
Proof.
  intros Hm. unfold new_vect.
  now replace (m <? 0) with false by (symmetry; apply Z.ltb_ge; lia).
Qed.

Lemma to_vect_code (s : fockstate) (l : list Z) :
  inv s -> _code s = Some l ->
  to_vect s = Ok (occupations l (Z.to_nat (_m s))).
Proof.
  intros Hi Hc. unfold to_vect.
  rewrite new_vect_nonneg by apply (inv_modes s Hi). cbn [bind]. rewrite Hc.
  destruct (inv_firstn s l Hi Hc) as [-> _].
  destruct (inv_parts s l Hi Hc) as (_ & Hr & _).
  rewrite count_into_spec; rewrite repeat_length.
  - f_equal. apply map_ext_in. intros k Hk. apply in_seq in Hk.
    rewrite nth_repeat_lt by lia. reflexivity.
  - apply range_to_nat, Hr.
Qed.

Lemma occupations_length (l : list Z) (m : nat) :
  length (occupations l m) = m.
Proof. unfold occupations. now rewrite length_map, length_seq. Qed.

Lemma occupations_nth (l : list Z) (m k : nat) :
  (k < m)%nat ->
  nth k (occupations l m) 0
  = Z.of_nat (count_occ Z.eq_dec l (Z.of_nat k + chr_A)).
Proof. intros Hk. unfold occupations. now rewrite nth_map_seq. 
Qed.

Lemma sum_vect_occupations (m n : Z) (l : list Z) (k k' : nat) :
  (k <= k')%nat ->
  sum_vect k (occupations l k')
  = sum_occupation (mk_fockstate m n (Some l)) k.
Proof.
  induction k as [|k IH]; intros Hk; [reflexivity|].
  rewrite sum_vect_S, IH by lia. cbn [sum_occupation].
  rewrite occupations_nth by lia. reflexivity.
Qed.

(** X4.  On a state with code that satisfies the invariants, [to_vect]
    returns a vector with one entry per mode, the entry of each mode is the
    answer of the occupation query, and the entries add up to the particle
    count. *)
Theorem X4_to_vect_occupations (s : fockstate) (l : list Z) :
  inv s -> _code s = Some l ->
  exists v, to_vect s = Ok v
    /\ Z.of_nat (length v) = _m s
    /\ (forall idx, 0 <= idx < _m s ->
          operator_index s idx = Ok (nth (Z.to_nat idx) v 0))
    /\ sum_vect (length v) v = _n s.
Proof.
  intros Hi Hc. exists (occupations l (Z.to_nat (_m s))).
  pose proof (inv_modes s Hi) as Hm.
  split; [apply to_vect_code; assumption|].
  rewrite occupations_length. split; [lia|split].
  - intros idx Hidx.
    rewrite (operator_index_occupation s l idx Hi Hc Hidx).
    rewrite occupations_nth by lia. unfold occupation, particles.
    rewrite Hc, Z2Nat.id by lia. reflexivity.
  - destruct s as [m n c]. cbn [_m _n _code] in *. subst c.
    rewrite (sum_vect_occupations m n) by lia. symmetry. apply Hi.
Qed.

(** *** The occupation vector back and forth *)

Lemma fockstate_of_vect_code (v : list Z) :
  Forall (fun c => 0 <= c) v -> fits (Z.of_nat (length v)) ->
  fockstate_of_vect v
  = mk_fockstate (Z.of_nat (length v)) (sum_vect (length v) v)
                 (Some (fill_code (length v) v)).
Proof.
  intros Hv Hfit. destruct (fill_code_props _ v Hv Hfit) as (_ & _ & Hl).
  unfold fockstate_of_vect.
  destruct (sum_vect (length v) v =? 0) eqn:E; [|reflexivity].
  apply Z.eqb_eq in E. rewrite E in *.
  destruct (fill_code (length v) v); [reflexivity|cbn in Hl; lia].
Qed.

Lemma count_fill_code (m k : nat) (v : list Z) :
  Forall (fun c => 0 <= c) v -> fits (Z.of_nat m) -> (k < m)%nat ->
  count_occ Z.eq_dec (fill_code m v) (Z.of_nat k + chr_A)
  = Z.to_nat (nth k v 0).
Proof.
  intros Hv. induction m as [|m IH]; intros Hfit Hk; [lia|].
  assert (Hfit' : fits (Z.of_nat m)) by (unfold fits in *; lia).
  rewrite fill_code_S, count_occ_app.
  rewrite (to_char_id (Z.of_nat m + chr_A))
    by (unfold fits, chr_A in *; lia).
  destruct (Nat.eq_dec k m) as [->|Hne].
  - rewrite count_occ_repeat_eq by reflexivity.
    replace (count_occ Z.eq_dec (fill_code m v) (Z.of_nat m + chr_A)) with O;
      [reflexivity|].
    symmetry. apply count_occ_not_In. intros Hin.
    destruct (fill_code_props m v Hv Hfit') as (Hr & _).
    rewrite Forall_forall in Hr. specialize (Hr _ Hin). lia.
  - rewrite IH by (trivial; lia).
    rewrite count_occ_repeat_neq by lia. lia.
Qed.

Lemma to_vect_of_vect (v : list Z) :
  Forall (fun c => 0 <= c) v -> fits (Z.of_nat (length v)) ->
  to_vect (fockstate_of_vect v) = Ok v.
Proof.
  intros Hv Hfit.
  pose proof (inv_of_vect v Hv Hfit) as Hi.
  rewrite fockstate_of_vect_code in * by assumption.
  rewrite (to_vect_code _ _ Hi eq_refl). cbn [_m]. rewrite Nat2Z.id.
  f_equal. transitivity (map (fun k => nth k v 0) (seq 0 (length v)));
    [|apply map_nth_seq].
  unfold occupations. apply map_ext_in. intros k Hk. apply in_seq in Hk.
  rewrite count_fill_code by (trivial; lia).
  pose proof (nth_nonneg v k Hv). lia.
Qed.

(** X5.  Building a state from an occupation vector of non-negative counts
    (whose mode count fits the [char] codes) and reading its occupation
    vector back returns the vector. *)
Theorem X5_to_vect_of_vect (v : list Z) :
  Forall (fun c => 0 <= c) v -> fits (Z.of_nat (length v)) ->
  to_vect (fockstate_of_vect v) = Ok v.
Proof. exact (to_vect_of_vect v). Qed.

Lemma filter_lt_none (b : Z) (l : list Z) :
  Forall (fun c => b <= c) l -> filter (fun c => c <? b) l = [].
Proof.
  induction 1 as [|x l Hx Hl IH]; [reflexivity|]. cbn [filter].
  now replace (x <? b) with false by (symmetry; apply Z.ltb_ge; lia).
Qed.

Lemma filter_lt_all (b : Z) (l : list Z) :
  Forall (fun c => c < b) l -> filter (fun c => c <? b) l = l.
Proof.
  induction 1 as [|x l Hx Hl IH]; [reflexivity|]. cbn [filter].
  replace (x <? b) with true by (symmetry; apply Z.ltb_lt; lia).
  now rewrite IH.
Qed.

(** In an ordered buffer the codes up to [b] are the codes below [b]
    followed by the codes equal to [b]. *)
Lemma filter_lt_succ (b : Z) (l : list Z) :
  StronglySorted Z.le l ->
  filter (fun c => c <? b + 1) l
  = filter (fun c => c <? b) l ++ repeat b (count_occ Z.eq_dec l b).
Proof.
  induction 1 as [|x l Hs IH Hx]; [reflexivity|].
  cbn [filter count_occ].
  destruct (Z.eq_dec x b) as [->|Hne].
  - replace (b <? b + 1) with true by (symmetry; apply Z.ltb_lt; lia).
    replace (b <? b) with false by (symmetry; apply Z.ltb_ge; lia).
    rewrite IH, (filter_lt_none b l); [reflexivity|].
    revert Hx. apply Forall_impl. intros; lia.
  - destruct (x <? b) eqn:E.
    + replace (x <? b + 1) with true
        by (symmetry; apply Z.ltb_lt; apply Z.ltb_lt in E; lia).
      rewrite IH. reflexivity.
    + replace (x <? b + 1) with false
        by (symmetry; apply Z.ltb_ge; apply Z.ltb_ge in E; lia).
      exact IH.
Qed.

Lemma fill_code_occupations (l : list Z) (k k' : nat) :
  StronglySorted Z.le l -> Forall is_char l ->
  Forall (fun c => chr_A <= c) l -> (k <= k')%nat ->
  fill_code k (occupations l k')
  = filter (fun c => c <? chr_A + Z.of_nat k) l.
Proof.
  intros Hs Hch Hlo. induction k as [|k IH]; intros Hk.
  - rewrite Z.add_0_r. symmetry. apply filter_lt_none, Hlo.
  - rewrite fill_code_S, IH, occupations_nth, Nat2Z.id by lia.
    replace (chr_A + Z.of_nat (S k)) with (chr_A + Z.of_nat k + 1) by lia.
    rewrite filter_lt_succ by exact Hs. f_equal.
    replace (chr_A + Z.of_nat k) with (Z.of_nat k + chr_A) by lia.
    destruct (count_occ Z.eq_dec l (Z.of_nat k + chr_A)) as [|j] eqn:E;
      [reflexivity|].
    assert (Hin : In (Z.of_nat k + chr_A) l)
      by (apply (count_occ_In Z.eq_dec); lia).
    rewrite Forall_forall in Hch. rewrite (Hch _ Hin). reflexivity.
Qed.

Lemma of_vect_to_vect (s : fockstate) (l : list Z) :
  inv s -> _code s = Some l ->
  fockstate_of_vect (occupations l (Z.to_nat (_m s))) = s.
Proof.
  intros Hi Hc.
  destruct (inv_parts s l Hi Hc) as (Hch & Hr & Hs & Hn & Hm).
  unfold fockstate_of_vect. rewrite occupations_length.
  destruct s as [m n c]. cbn [_m _n _code] in *. subst c.
  rewrite (sum_vect_occupations m n) by lia.
  pose proof (inv_count _ Hi) as Hcount. cbn [_m _n] in Hcount.
  rewrite <- Hcount, Z2Nat.id by lia.
  destruct (n =? 0) eqn:E.
  - apply Z.eqb_eq in E. destruct l; [now subst|cbn in Hn; lia].
  - rewrite fill_code_occupations; trivial.
    + rewrite filter_lt_all; [reflexivity|].
      revert Hr. apply Forall_impl. intros c Hc. unfold mode_index in Hc. lia.
    + revert Hr. apply Forall_impl. intros c Hc. unfold mode_index in Hc. lia.
Qed.

(** X6.  On a state with code that satisfies the invariants, building a
    state from the vector [to_vect] returns gives the state back. *)
Theorem X6_of_vect_to_vect (s : fockstate) (l : list Z) :
  inv s -> _code s = Some l ->
  exists v, to_vect s = Ok v /\ fockstate_of_vect v = s.
Proof.
  intros Hi Hc. exists (occupations l (Z.to_nat (_m s))).
  split; [apply to_vect_code; assumption|apply of_vect_to_vect; assumption].
Qed.

(** ** The text form and the parser *)

Lemma read_digits_uint (d : Decimal.uint) (rest : cstr) (cn : Z) :
  0 <= cn ->
  read_digits
    (list_ascii_of_string (DecimalString.NilEmpty.string_of_uint d) ++ rest)
    cn
  = read_digits rest (Z.of_nat (Nat.of_uint_acc d (Z.to_nat cn))).
Proof.
  revert cn. induction d as [|d IH|d IH|d IH|d IH|d IH|d IH|d IH|d IH|d IH|d IH];
    intros cn Hcn;
    cbn [DecimalString.NilEmpty.string_of_uint list_ascii_of_string app
         Nat.of_uint_acc];
    [rewrite Z2Nat.id by lia; reflexivity|..];
    cbn [read_digits]; change (isdigit _) with true; cbv iota;
    match goal with
    | |- context [Z.of_N (N_of_ascii ?c)] =>
        let v := eval vm_compute in (Z.of_N (N_of_ascii c)) in
        change (Z.of_N (N_of_ascii c)) with v
    end;
    rewrite IH by lia; do 3 f_equal;
    rewrite Nat.tail_mul_spec; lia.
Qed.

Lemma digits_first (n : nat) :
  exists c r, digits n = c :: r /\ isdigit c = true.
Proof.
  unfold digits. destruct (Nat.to_uint n) as [|d|d|d|d|d|d|d|d|d|d] eqn:E;
    cbn [DecimalString.NilEmpty.string_of_uint list_ascii_of_string];
    try (eexists; eexists; split; [reflexivity|reflexivity]).
  exfalso. pose proof (DecimalNat.Unsigned.of_to n) as H. rewrite E in H.
  cbn in H. subst n. discriminate E.
Qed.

Lemma read_digits_number (n : nat) (rest : cstr) :
  isdigit (peek rest) = false ->
  read_digits (digits n ++ rest) 0 = (Z.of_nat n, rest).
Proof.
  intros Hrest. unfold digits. rewrite read_digits_uint by lia.
  change (Nat.of_uint_acc (Nat.to_uint n) (Z.to_nat 0))
    with (Nat.of_uint (Nat.to_uint n)).
  rewrite DecimalNat.Unsigned.of_to.
  destruct rest as [|c r]; [reflexivity|]. cbn [peek] in Hrest.
  cbn [read_digits]. rewrite Hrest. reflexivity.
Qed.

Lemma show_int_nonneg (z : Z) : 0 <= z -> show_int z = digits (Z.to_nat z).
Proof.
  intros Hz. unfold show_int.
  now replace (z <? 0) with false by (symmetry; apply Z.ltb_ge; lia).
Qed.

(** One count, followed by a character that ends the term. *)
Lemma parse_term_number (fuel : nat) (z : Z) (rest : cstr) :
  0 <= z -> term_char (peek rest) = false \/ peek rest = ","%char ->
  parse_term (S (S fuel)) (show_int z ++ rest) 0 = Some (Ok (z, rest)).
Proof.
  intros Hz Hrest. rewrite show_int_nonneg by exact Hz.
  assert (Hd : isdigit (peek rest) = false
               /\ (peek rest =? "{")%char = false).
  { destruct Hrest as [H| ->]; [|split; reflexivity].
    unfold term_char in H. apply orb_false_iff in H as [H H2].
    apply orb_false_iff in H as [H _]. auto. }
  destruct Hd as [Hd1 Hd2].
  destruct (digits_first (Z.to_nat z)) as (c & r & Ed & Hc).
  cbn [parse_term].
  assert (Hpeek : peek (digits (Z.to_nat z) ++ rest) = c)
    by (rewrite Ed; reflexivity).
  rewrite Hpeek, Hc. cbn [orb].
  assert (Hbrace : (c =? "{")%char = false).
  { destruct (Ascii.eqb_spec c "{"%char) as [->|]; [discriminate|reflexivity]. }
  rewrite Hbrace, read_digits_number by exact Hd1.
  rewrite Hd2, Hd1. cbn [orb]. rewrite ?Hd2. do 3 f_equal. lia.
Qed.

Lemma show_int_first (z : Z) (rest : cstr) :
  0 <= z ->
  exists c r, show_int z ++ rest = c :: r /\ isdigit c = true.
Proof.
  intros Hz. rewrite show_int_nonneg by exact Hz.
  destruct (digits_first (Z.to_nat z)) as (c & r & -> & Hc).
  exists c, (r ++ rest). split; [reflexivity|exact Hc].
Qed.

Lemma isdigit_chars (c : ascii) :
  isdigit c = true ->
  (c =? " ")%char = false /\ (c =? ",")%char = false
  /\ (c =? zero)%char = false /\ term_char c = true.
Proof.
  intros H. unfold term_char. rewrite H.
  split; [|split; [|split; [|reflexivity]]].
  - destruct (Ascii.eqb_spec c " "%char) as [E|]; [|reflexivity].
    subst c. discriminate H.
  - destruct (Ascii.eqb_spec c ","%char) as [E|]; [|reflexivity].
    subst c. discriminate H.
  - destruct (Ascii.eqb_spec c zero) as [E|]; [|reflexivity].
    subst c. discriminate H.
Qed.

Lemma tail_fields_length (v : list Z) :
  (length v
   <= length (flat_map (fun g => ","%char :: g) (map show_int v)))%nat.
Proof.
  induction v as [|x v IH]; cbn [map flat_map length]; [lia|].
  rewrite length_app. cbn [length]. lia.
Qed.

(** One turn of the main loop of the parser, at a comma followed by a
    digit and at a first digit. *)
Lemma parse_modes_comma_step (f : nat) (d : ascii) (r : cstr) (fs : list Z)
      (n : Z) :
  fs <> [] -> isdigit d = true ->
  parse_modes (S f) (","%char :: d :: r) fs n
  = match parse_term (S (length (d :: r))) (d :: r) 0 with
    | None => None
    | Some (Ok (total_cn, str')) =>
        parse_modes f str' (fs ++ [total_cn]) (n + total_cn)
    | Some (Throw e) => Some (Throw e)
    | Some UB => Some UB
    end.
Proof.
  intros Hfs Hd. destruct (isdigit_chars d Hd) as (Hd1 & _).
  destruct fs as [|y fs']; [congruence|].
  cbn [parse_modes]. cbv zeta.
  change (skip_blanks (","%char :: d :: r)) with (","%char :: d :: r).
  cbn [peek tl]. change (term_char ","%char) with true.
  change ((","%char =? zero)%char) with false.
  change ((","%char =? ",")%char) with true.
  cbn [negb orb andb]. cbn [skip_blanks]. rewrite Hd1. reflexivity.
Qed.

Lemma parse_modes_first_step (f : nat) (d : ascii) (r : cstr) (n : Z) :
  isdigit d = true ->
  parse_modes (S f) (d :: r) [] n
  = match parse_term (S (length (d :: r))) (d :: r) 0 with
    | None => None
    | Some (Ok (total_cn, str')) =>
        parse_modes f str' [total_cn] (n + total_cn)
    | Some (Throw e) => Some (Throw e)
    | Some UB => Some UB
    end.
Proof.
  intros Hd. destruct (isdigit_chars d Hd) as (Hd1 & Hd2 & Hd3 & Hd4).
  cbn [parse_modes]. cbv zeta. cbn [skip_blanks]. rewrite Hd1.
  cbn [peek]. rewrite Hd2, Hd3, Hd4. cbn [negb orb andb app]. reflexivity.
Qed.

Lemma parse_modes_stop (f : nat) (c : ascii) (rest : cstr) (fs : list Z)
      (n : Z) :
  (c =? " ")%char = false -> term_char c = false ->
  parse_modes (S f) (c :: rest) fs n = Some (Ok (c :: rest, fs, n)).
Proof.
  intros Hblank Hterm. cbn [parse_modes]. cbv zeta. cbn [skip_blanks].
  rewrite Hblank. cbn [peek]. rewrite Hterm. cbn [negb].
  rewrite orb_true_r. reflexivity.
Qed.

(** The main loop of the parser over the fields behind the first one. *)
Lemma parse_modes_fields (v : list Z) (fuel : nat) (fs : list Z) (c : ascii)
      (rest : cstr) :
  Forall (fun x => 0 <= x) v -> fs <> [] ->
  (c =? " ")%char = false -> term_char c = false ->
  (length v < fuel)%nat ->
  parse_modes fuel
    (flat_map (fun g => ","%char :: g) (map show_int v) ++ c :: rest)
    fs (sum_vect (length fs) fs)
  = Some (Ok (c :: rest, fs ++ v,
              sum_vect (length (fs ++ v)) (fs ++ v))).
Proof.
  intros Hv. revert fuel fs. induction Hv as [|x v Hx Hv IH];
    intros fuel fs Hfs Hblank Hterm Hfuel.
  - destruct fuel as [|f]; [cbn in Hfuel; lia|].
    cbn [map flat_map app]. rewrite parse_modes_stop by assumption.
    rewrite app_nil_r. reflexivity.
  - destruct fuel as [|f]; [cbn in Hfuel; lia|].
    cbn [map flat_map].
    rewrite <- (app_assoc (","%char :: show_int x)). cbn [app].
    set (tail := flat_map (fun g => ","%char :: g) (map show_int v)
                 ++ c :: rest) in *.
    assert (Htail : term_char (peek tail) = false \/ peek tail = ","%char).
    { unfold tail. destruct v; cbn; auto. }
    destruct (show_int_first x tail Hx) as (d & r & Ed & Hd).
    rewrite Ed, parse_modes_comma_step by assumption.
    rewrite <- Ed. replace (length (show_int x ++ tail)) with (S (length r))
      by (rewrite Ed; reflexivity).
    rewrite (parse_term_number (length r) x tail Hx Htail).
    rewrite <- sum_vect_snoc.
    rewrite (IH f (fs ++ [x])); [|now destruct fs|assumption
                                 |assumption|cbn in Hfuel; lia].
    rewrite <- app_assoc. reflexivity.
Qed.

(** The parser behind the main loop, for a loop that stopped at the closing
    delimiter. *)
Lemma parse_cstr_finish (open_char : ascii) (close body : cstr)
      (fs : list Z) (n : Z) :
  In (open_char, close) delimiters ->
  parse_modes (S (length (body ++ close))) (body ++ close) [] 0
  = Some (Ok (close, fs, n)) ->
  parse_cstr (open_char :: body ++ close)
  = Some (Ok (if negb (n =? 0)
              then mk_fockstate (Z.of_nat (length fs)) n
                                (Some (fill_code (length fs) fs))
              else mk_fockstate (Z.of_nat (length fs)) n (Some []))).
Proof.
  intros Hd Hpm. remember (body ++ close) as str eqn:Es.
  cbn [In delimiters] in Hd.
  destruct Hd as [E|[E|[E|[E|[]]]]]; inversion E; subst open_char close;
    unfold parse_cstr; cbv zeta;
    cbn [skip_blanks peek tl Ascii.eqb Bool.eqb negb andb];
    rewrite Hpm; destruct fs; cbn; destruct (n =? 0); reflexivity.
Qed.

Lemma delimiters_close (open_char : ascii) (close : cstr) :
  In (open_char, close) delimiters ->
  exists c r, close = c :: r /\ (c =? " ")%char = false
              /\ term_char c = false.
Proof.
  cbn [In delimiters].
  intros [E|[E|[E|[E|[]]]]]; inversion E; subst;
    eexists; eexists; (split; [reflexivity|split; reflexivity]).
Qed.

Lemma parse_modes_rendered (v : list Z) (close : cstr) (c : ascii)
      (rest : cstr) :
  Forall (fun x => 0 <= x) v -> close = c :: rest ->
  (c =? " ")%char = false -> term_char c = false ->
  parse_modes (S (length (join_fields (map show_int v) ++ close)))
              (join_fields (map show_int v) ++ close) [] 0
  = Some (Ok (close, v, sum_vect (length v) v)).
Proof.
  intros Hv -> Hblank Hterm. destruct Hv as [|x v Hx Hv].
  - cbn [map join_fields app]. apply parse_modes_stop; assumption.
  - cbn [map join_fields]. rewrite <- app_assoc.
    set (tail := flat_map (fun g => ","%char :: g) (map show_int v)
                 ++ c :: rest) in *.
    assert (Htail : term_char (peek tail) = false \/ peek tail = ","%char).
    { unfold tail. destruct v; cbn; auto. }
    assert (Hlen : (length v < length tail)%nat).
    { unfold tail. rewrite length_app. cbn [length].
      pose proof (tail_fields_length v). lia. }
    destruct (show_int_first x tail Hx) as (d & r & Ed & Hd).
    rewrite Ed, parse_modes_first_step by exact Hd.
    rewrite <- Ed.
    replace (length (show_int x ++ tail)) with (S (length r)) at 1
      by (rewrite Ed; reflexivity).
    rewrite (parse_term_number (length r) x tail Hx Htail).
    change (0 + x) with (sum_vect (length [x]) [x]).
    unfold tail. rewrite parse_modes_fields; try assumption;
      [reflexivity|discriminate|].
    fold tail. rewrite length_app. lia.
Qed.

(** The text of an occupation vector parses to the state of the vector. *)
Lemma parse_rendered (v : list Z) (open_char : ascii) (close : cstr) :
  Forall (fun x => 0 <= x) v -> In (open_char, close) delimiters ->
  parse_cstr (open_char :: join_fields (map show_int v) ++ close)
  = Some (Ok (fockstate_of_vect v)).
Proof.
  intros Hv Hd. destruct (delimiters_close _ _ Hd) as (c & r & Ec & Hb & Ht).
  rewrite (parse_cstr_finish open_char close _ v (sum_vect (length v) v) Hd)
    by (apply (parse_modes_rendered v close c r); assumption).
  unfold fockstate_of_vect.
  destruct (sum_vect (length v) v =? 0) eqn:E; cbn [negb]; [|reflexivity].
  apply Z.eqb_eq in E. rewrite E. reflexivity.
Qed.

(** X7.  The text made of an opening delimiter, the decimal counts of an
    occupation vector separated by commas, and the matching closing
    delimiter parses to the state the vector constructor builds, for every
    vector of non-negative counts and each of the four pairs of
    delimiters. *)
Theorem X7_parse_agrees_with_vector (v : list Z) (open_char : ascii)
        (close : cstr) :
  Forall (fun x => 0 <= x) v -> In (open_char, close) delimiters ->
  _parse_str (string_of_list_ascii
                (open_char :: join_fields (map show_int v) ++ close))
  = Some (Ok (fockstate_of_vect v)).
Proof.
  intros Hv Hd. unfold _parse_str.
  rewrite list_ascii_of_string_of_list_ascii. apply parse_rendered; assumption.
Qed.

Lemma to_str_cstr_code (s : fockstate) (l : list Z) :
  inv s -> _code s = Some l ->
  to_str_cstr s
  = Ok ("|"%char
        :: join_fields (map show_int (occupations l (Z.to_nat (_m s))))
        ++ [">"%char]).
Proof.
  intros Hi Hc. pose proof (to_vect_code s l Hi Hc) as Hv.
  unfold to_vect in Hv. unfold to_str_cstr. rewrite Hc in *.
  rewrite new_vect_nonneg in * by apply (inv_modes s Hi).
  cbn [bind] in *. rewrite Hv. reflexivity.
Qed.

Lemma occupations_nonneg (l : list Z) (m : nat) :
  Forall (fun x => 0 <= x) (occupations l m).
Proof.
  unfold occupations. apply Forall_map, Forall_forall. intros; lia.
Qed.

Lemma to_str_parse_code (s : fockstate) (l : list Z) :
  inv s -> _code s = Some l ->
  exists str, to_str s = Ok str /\ _parse_str str = Some (Ok s).
Proof.
  intros Hi Hc. unfold to_str. rewrite (to_str_cstr_code s l Hi Hc).
  cbn [bind]. eexists. split; [reflexivity|]. unfold _parse_str.
  rewrite list_ascii_of_string_of_list_ascii.
  rewrite (parse_rendered _ "|"%char [">"%char]).
  - now rewrite (of_vect_to_vect s l Hi Hc).
  - apply occupations_nonneg.
  - right; right; left; reflexivity.
Qed.

(** X8.  A state with code that satisfies the invariants is rendered by
    [to_str] to a text that parses back to the same state. *)
Theorem X8_to_str_parse (s : fockstate) (l : list Z) :
  inv s -> _code s = Some l ->
  exists str, to_str s = Ok str /\ _parse_str str = Some (Ok s).
Proof. exact (to_str_parse_code s l). Qed.

Lemma join_fields_empty (k : nat) :
  join_fields (repeat [] (S k)) = repeat ","%char k.
Proof.
  cbn [repeat join_fields app].
  induction k as [|k IH]; [reflexivity|].
  cbn [repeat flat_map app]. now rewrite IH.
Qed.

Lemma parse_cstr_commas (k : nat) :
  parse_cstr ("|"%char :: repeat ","%char (S k) ++ [">"%char])
  = Some (Ok (mk_fockstate (Z.of_nat (S k) + 1) 0 None)).
Proof.
  cbn [repeat app].
  remember (Z.of_nat (S k) + 1) as M eqn:EM.
  assert (HM : (M =? 0) = false) by (apply Z.eqb_neq; lia).
  remember (repeat ","%char k ++ [">"%char]) as tail eqn:Et.
  unfold parse_cstr; cbn; subst tail.
  rewrite count_commas_run by (intros; reflexivity).
  replace (2 + Z.of_nat k) with M by lia.
  clear EM; cbn; rewrite HM; reflexivity.
Qed.

Lemma to_str_no_code (s : fockstate) :
  _code s = None ->
  to_str s
  = Ok (string_of_list_ascii
          ("|"%char :: repeat ","%char (Z.to_nat (_m s - 1)) ++ [">"%char]))
  /\ (2 <= _m s ->
      _parse_str (string_of_list_ascii
                    ("|"%char :: repeat ","%char (Z.to_nat (_m s - 1))
                              ++ [">"%char]))
      = Some (Ok (mk_fockstate (_m s) 0 None)))
  /\ (_m s <= 1 ->
      to_str s = Ok "|>"%string
      /\ _parse_str "|>" = Some (Ok (mk_fockstate 0 0 (Some [])))).
Proof.
  intros Hc.
  assert (Htext : to_str s
                  = Ok (string_of_list_ascii
                          ("|"%char :: repeat ","%char (Z.to_nat (_m s - 1))
                                    ++ [">"%char]))).
  { unfold to_str, to_str_cstr. rewrite Hc. cbn [bind]. do 3 f_equal.
    destruct (Z.to_nat (_m s)) as [|k] eqn:E.
    - replace (Z.to_nat (_m s - 1)) with O by lia. reflexivity.
    - rewrite join_fields_empty.
      replace (Z.to_nat (_m s - 1)) with k by lia. reflexivity. }
  split; [exact Htext|]. split.
  - intros Hm. unfold _parse_str.
    rewrite list_ascii_of_string_of_list_ascii.
    destruct (Z.to_nat (_m s - 1)) as [|k] eqn:E; [lia|].
    rewrite parse_cstr_commas. do 3 f_equal. lia.
  - intros Hm. split; [|reflexivity]. rewrite Htext.
    replace (Z.to_nat (_m s - 1)) with O by lia. reflexivity.
Qed.

(** X9.  The text of a state without code is [|], one comma less than the
    state has modes, and [>].  With two modes or more it parses back to the
    state without code of the same mode count and particle count 0; with
    one mode or none the text is [|>], which parses to the state with code
    of no mode. *)
Theorem X9_to_str_parse_no_code (s : fockstate) :
  _code s = None ->
  to_str s
  = Ok (string_of_list_ascii
          ("|"%char :: repeat ","%char (Z.to_nat (_m s - 1)) ++ [">"%char]))
  /\ (2 <= _m s ->
      _parse_str (string_of_list_ascii
                    ("|"%char :: repeat ","%char (Z.to_nat (_m s - 1))
                              ++ [">"%char]))
      = Some (Ok (mk_fockstate (_m s) 0 None)))
  /\ (_m s <= 1 ->
      to_str s = Ok "|>"%string
      /\ _parse_str "|>" = Some (Ok (mk_fockstate 0 0 (Some [])))).
Proof. exact (to_str_no_code s). Qed.

Lemma to_str_eq (a b : fockstate) :
  inv a -> inv b -> operator_eq a b = true -> to_str a = to_str b.
Proof.
  intros Ia Ib Heq. destruct (operator_eq_fields a b Heq) as [Hm Hn].
  unfold to_str.
  destruct (_code a) as [la|] eqn:Ha, (_code b) as [lb|] eqn:Hb.
  - apply (operator_eq_code a b la lb Ha Hb Ia Ib) in Heq
      as (_ & _ & ->).
    rewrite (to_str_cstr_code a lb Ia Ha), (to_str_cstr_code b lb Ib Hb), Hm.
    reflexivity.
  - unfold operator_eq in Heq. rewrite Ha, Hb, Hm, Hn, !Z.eqb_refl in Heq.
    cbn [negb orb] in Heq.
    destruct (_m b =? 0) eqn:E0; [|discriminate]. apply Z.eqb_eq in E0.
    pose proof (inv_no_mode_no_particle a Ia (eq_trans Hm E0)) as Pa.
    unfold particles in Pa. rewrite Ha in Pa. subst la.
    rewrite (to_str_cstr_code a [] Ia Ha). unfold to_str_cstr.
    rewrite Hb, Hm, E0. reflexivity.
  - unfold operator_eq in Heq. rewrite Ha, Hb, Hm, Hn, !Z.eqb_refl in Heq.
    cbn [negb orb] in Heq.
    destruct (_m b =? 0) eqn:E0; [|discriminate]. apply Z.eqb_eq in E0.
    pose proof (inv_no_mode_no_particle b Ib E0) as Pb.
    unfold particles in Pb. rewrite Hb in Pb. subst lb.
    rewrite (to_str_cstr_code b [] Ib Hb). unfold to_str_cstr.
    rewrite Ha, Hm, E0. reflexivity.
  - unfold to_str_cstr. rewrite Ha, Hb, Hm. reflexivity.
Qed.

(** X10.  Two states that satisfy the invariants and are equal by
    [operator==] have the same text and so the same hash, whatever the
    string hash is. *)
Theorem X10_hash_respects_equality (a b : fockstate) :
  inv a -> inv b -> operator_eq a b = true ->
  to_str a = to_str b /\ hash a = hash b.
Proof.
  intros Ia Ib Heq. pose proof (to_str_eq a b Ia Ib Heq) as H.
  split; [exact H|]. unfold hash. now rewrite H.
Qed.

(** ** The combinatorial weight *)

Lemma wrap64_mul (a b : Z) : wrap64 (wrap64 a * b) = wrap64 (a * b).
Proof. unfold wrap64. apply Z.mul_mod_idemp_l. lia. Qed.

(** The inner loop multiplies by the length of the run as it grows. *)
Lemma run_loop_spec (c : Z) (r : list Z) (k : nat) (P : Z) :
  exists j rest,
    r = repeat c j ++ rest
    /\ (forall x r', rest = x :: r' -> x <> c)
    /\ run_loop r c (Z.of_nat k) (wrap64 (P * Z.of_nat (fact k)))
       = (wrap64 (P * Z.of_nat (fact (k + j))), rest).
Proof.
  revert k. induction r as [|x r IH]; intros k.
  - exists O, []. repeat split; [discriminate|].
    cbn [run_loop]. now rewrite Nat.add_0_r.
  - cbn [run_loop]. destruct (Z.eqb_spec x c) as [->|Hne].
    + destruct (IH (S k)) as (j & rest & Er & Hrest & Hrun).
      exists (S j), rest. split; [cbn [repeat app]; now rewrite Er|].
      split; [exact Hrest|].
      rewrite wrap64_mul.
      replace (P * Z.of_nat (fact k) * (Z.of_nat k + 1))
        with (P * Z.of_nat (fact (S k)))
        by (change (fact (S k)) with (S k * fact k)%nat; nia).
      replace (Z.of_nat k + 1) with (Z.of_nat (S k)) by lia.
      rewrite Hrun. replace (S k + j)%nat with (k + S j)%nat by lia.
      reflexivity.
    + exists O, (x :: r). split; [reflexivity|]. split.
      * intros x' r' E. injection E as <- _. exact Hne.
      * now rewrite Nat.add_0_r.
Qed.

Lemma prod_fact_nil (m : nat) : prod_fact [] m = 1.
Proof. induction m as [|m IH]; cbn [prod_fact count_occ fact]; lia. Qed.

Lemma prod_fact_run (k0 j m : nat) (rest : list Z) :
  ~ In (Z.of_nat k0 + chr_A) rest ->
  prod_fact (repeat (Z.of_nat k0 + chr_A) j ++ rest) m
  = (if (k0 <? m)%nat then Z.of_nat (fact j) else 1) * prod_fact rest m.
Proof.
  intros Hnot. induction m as [|m IH]; [cbn; lia|].
  cbn [prod_fact]. rewrite IH, count_occ_app.
  destruct (Nat.eq_dec k0 m) as [->|Hne].
  - rewrite count_occ_repeat_eq by reflexivity.
    rewrite (proj1 (count_occ_not_In Z.eq_dec _ _) Hnot).
    rewrite Nat.ltb_irrefl, Nat.add_0_r.
    replace (m <? S m)%nat with true by (symmetry; apply Nat.ltb_lt; lia).
    change (Z.of_nat (fact 0)) with 1. ring.
  - rewrite count_occ_repeat_neq by lia. cbn [Nat.add].
    destruct (Nat.ltb_spec k0 m); destruct (Nat.ltb_spec k0 (S m));
      try lia; ring.
Qed.

Lemma prod_loop_sorted (m fuel : nat) (l : list Z) (P : Z) :
  (length l <= fuel)%nat -> StronglySorted Z.le l ->
  Forall (fun c => 0 <= mode_index c < Z.of_nat m) l ->
  prod_loop fuel l (wrap64 P) = wrap64 (P * prod_fact l m).
Proof.
  revert l P. induction fuel as [|f IH]; intros l P Hlen Hs Hr.
  - destruct l; [|cbn in Hlen; lia].
    cbn [prod_loop]. rewrite prod_fact_nil. f_equal. lia.
  - destruct l as [|c r].
    + cbn [prod_loop]. rewrite prod_fact_nil. f_equal. lia.
    + cbn [prod_loop].
      destruct (run_loop_spec c r 1 P) as (j & rest & Er & Hrest & Hrun).
      change (Z.of_nat (fact 1)) with 1 in Hrun. rewrite Z.mul_1_r in Hrun.
      change (Z.of_nat 1) with 1 in Hrun. rewrite Hrun.
      apply StronglySorted_inv in Hs as [Hs Hc].
      inversion Hr as [|? ? Hc0 Hr0]; subst. unfold mode_index in Hc0.
      assert (Hs' : StronglySorted Z.le rest).
      { clear - Hs. induction j as [|j IHj]; [exact Hs|].
        apply IHj. cbn [repeat app] in Hs.
        apply StronglySorted_inv in Hs. tauto. }
      assert (Hge : Forall (Z.le c) rest)
        by (apply Forall_app in Hc; tauto).
      assert (Hnot : ~ In c rest).
      { destruct rest as [|x r']; [intros []|].
        specialize (Hrest x r' eq_refl).
        inversion Hge as [|? ? Hx _]; subst.
        apply StronglySorted_inv in Hs' as [_ Hx'].
        intros [E|Hin]; [congruence|].
        rewrite Forall_forall in Hx'. specialize (Hx' _ Hin). lia. }
      rewrite IH.
      * f_equal.
        replace c with (Z.of_nat (Z.to_nat (c - chr_A)) + chr_A) in Hnot |- *
          by lia.
        change (Z.of_nat (Z.to_nat (c - chr_A)) + chr_A
                :: repeat (Z.of_nat (Z.to_nat (c - chr_A)) + chr_A) j
                ++ rest)
          with (repeat (Z.of_nat (Z.to_nat (c - chr_A)) + chr_A) (S j)
                ++ rest).
        rewrite prod_fact_run by exact Hnot.
        replace (Z.to_nat (c - chr_A) <? m)%nat with true
          by (symmetry; apply Nat.ltb_lt; lia).
        change (1 + j)%nat with (S j). ring.
      * cbn [length] in Hlen. rewrite length_app in Hlen. lia.
      * exact Hs'.
      * apply Forall_app in Hr0. tauto.
Qed.

Lemma prodnfact_code (s : fockstate) (l : list Z) :
  inv s -> _code s = Some l ->
  prodnfact s = Ok (wrap64 (prod_fact l (Z.to_nat (_m s)))).
Proof.
  intros Hi Hc. unfold prodnfact. rewrite Hc.
  destruct (inv_firstn s l Hi Hc) as [-> _].
  destruct (inv_parts s l Hi Hc) as (_ & Hr & Hs & _).
  change 1 with (wrap64 1) at 1.
  rewrite (prod_loop_sorted (Z.to_nat (_m s))); trivial.
  - do 2 f_equal. lia.
  - apply range_to_nat, Hr.
Qed.

(** X11.  On a state with code that satisfies the invariants, [prodnfact]
    is the product over the modes of the factorial of the occupation,
    modulo [2^64]. *)
Theorem X11_prodnfact_factorials (s : fockstate) (l : list Z) :
  inv s -> _code s = Some l ->
  prodnfact s = Ok (prod_fact l (Z.to_nat (_m s)) mod 2 ^ 64).
Proof. exact (prodnfact_code s l). Qed.

Lemma prod_fact_nodup (l : list Z) (m : nat) : NoDup l -> prod_fact l m = 1.
Proof.
  intros Hnd. induction m as [|m IH]; [reflexivity|].
  cbn [prod_fact]. rewrite IH.
  pose proof (proj1 (NoDup_count_occ Z.eq_dec l) Hnd (Z.of_nat m + chr_A)).
  destruct (count_occ Z.eq_dec l (Z.of_nat m + chr_A)) as [|[|k]];
    [reflexivity|reflexivity|lia].
Qed.

(** X12.  The weight of a state with all its [n] particles in mode 0 is
    [n!] modulo [2^64]; the weight of a state with code, satisfying the
    invariants, that has at most one particle in each mode is 1. *)
Theorem X12_prodnfact_cases :
  (forall m n, 1 <= m -> 0 <= n ->
     prodnfact (fockstate_mn m n)
     = Ok (Z.of_nat (fact (Z.to_nat n)) mod 2 ^ 64))
  /\ (forall s l, inv s -> _code s = Some l -> NoDup l ->
        prodnfact s = Ok 1).
Proof.
  split.
  - intros m n Hm Hn. rewrite fockstate_mn_repeat by exact Hn.
    assert (Hi : inv (mk_fockstate m n (Some (repeat chr_A (Z.to_nat n))))).
    { apply inv_defined; [lia| | | |].
      - apply Forall_forall. intros c Hc. apply repeat_spec in Hc. subst c.
        apply to_char_id. pose proof CHAR_MAX_cases. unfold chr_A. lia.
      - apply Forall_forall. intros c Hc. apply repeat_spec in Hc. subst c.
        unfold mode_index. lia.
      - apply StronglySorted_Sorted, StronglySorted_repeat.
      - rewrite repeat_length. lia. }
    rewrite (prodnfact_code _ _ Hi eq_refl). cbn [_m]. f_equal.
    pose proof (prod_fact_run O (Z.to_nat n) (Z.to_nat m) []) as H.
    cbn [Z.of_nat] in H. rewrite Z.add_0_l, app_nil_r in H.
    rewrite H by (intros []). rewrite prod_fact_nil.
    replace (0 <? Z.to_nat m)%nat with true
      by (symmetry; apply Nat.ltb_lt; lia).
    now rewrite Z.mul_1_r.
  - intros s l Hi Hc Hnd. rewrite (prodnfact_code s l Hi Hc).
    rewrite prod_fact_nodup by exact Hnd. reflexivity.
Qed.

(** ** Adding a count to a state *)

Lemma inc_loop_add (a b : nat) (s : fockstate) :
  inc_loop (a + b) s = bind (inc_loop a s) (inc_loop b).
Proof.
  revert s. induction a as [|a IH]; intros s; [reflexivity|].
  cbn [Nat.add inc_loop].
  destruct (operator_inc s) as [s'| |]; cbn [bind]; [apply IH| |];
    reflexivity.
Qed.

Lemma inc_loop_no_code (b : nat) (s : fockstate) :
  _code s = None -> (1 <= b)%nat -> inc_loop b s = Throw ndef_error.
Proof.
  intros Hc Hb. destruct b as [|b]; [lia|].
  cbn [inc_loop]. unfold operator_inc. rewrite Hc. reflexivity.
Qed.

(** The successor applied repeatedly keeps the mode count, and keeps the
    invariants as long as the state has code. *)
Lemma inc_loop_inv (a : nat) (s s' : fockstate) :
  inv s -> fits (_m s) -> inc_loop a s = Ok s' ->
  _m s' = _m s /\ (_code s' <> None -> inv s').
Proof.
  revert s'. induction a as [|a IH]; intros s' Hi Hfit H.
  - injection H as <-. auto.
  - rewrite inc_loop_snoc in H.
    destruct (inc_loop a s) as [s1| |] eqn:E; try discriminate.
    cbn [bind] in H. destruct (IH s1 Hi Hfit eq_refl) as [Hm Hinv].
    assert (Hc1 : _code s1 <> None).
    { intros Hn. unfold operator_inc in H. rewrite Hn in H. discriminate. }
    specialize (Hinv Hc1). split.
    + unfold operator_inc in H. destruct (_code s1); [|discriminate].
      injection H as <-. exact Hm.
    + intros Hc'. apply (inv_successor s1 s'); trivial.
      rewrite Hm; exact Hfit.
Qed.

Lemma operator_plus_add (s : fockstate) (a b : nat) :
  inv s -> fits (_m s) -> (1 <= b)%nat ->
  operator_plus s (a + b) = (s' <- operator_plus s a ;; operator_plus s' b).
Proof.
  intros Hi Hfit Hb. unfold operator_plus at 1 2.
  destruct (_code s) eqn:Hc; [|reflexivity].
  rewrite copy_id by exact Hi. rewrite inc_loop_add.
  destruct (inc_loop a s) as [s1| |] eqn:E; cbn [bind]; try reflexivity.
  destruct (inc_loop_inv a s s1 Hi Hfit E) as [Hm Hinv].
  unfold operator_plus. destruct (_code s1) eqn:Hc1.
  - rewrite copy_id; [reflexivity|]. apply Hinv. discriminate.
  - apply inc_loop_no_code; assumption.
Qed.

(** X13.  On a state that satisfies the invariants (its mode count fitting
    the [char] codes), adding [a + b] with [b >= 1] is adding [a] and then
    [b], exceptions included; for the in-place addition this holds for
    every state and every [b]. *)
Theorem X13_plus_composition (s : fockstate) (a b : nat) :
  inv s -> fits (_m s) -> (1 <= b)%nat ->
  operator_plus s (a + b) = (s' <- operator_plus s a ;; operator_plus s' b)
  /\ (forall t c d,
        operator_plus_assign t (c + d)
        = (t' <- operator_plus_assign t c ;; operator_plus_assign t' d)).
Proof.
  intros Hi Hfit Hb. split; [exact (operator_plus_add s a b Hi Hfit Hb)|].
  intros t c d. apply inc_loop_add.
Qed.

(** The successor applied from the first state of [(m, n)]: a state with
    code before [C(n+m-1, m-1)] applications, the state without code after
    that many. *)
Lemma inc_loop_enum (m n : Z) :
  1 <= m -> fits m -> 0 <= n ->
  (forall j, (j < binom (Z.to_nat (n + m - 1)) (Z.to_nat (m - 1)))%nat ->
     exists l, inc_loop j (fockstate_mn m n)
               = Ok (mk_fockstate m n (Some l)))
  /\ inc_loop (binom (Z.to_nat (n + m - 1)) (Z.to_nat (m - 1)))
              (fockstate_mn m n)
     = Ok (mk_fockstate m n None).
Proof.
  intros Hm Hfit Hn. unfold fits in Hfit.
  set (K := binom (Z.to_nat (n + m - 1)) (Z.to_nat (m - 1))).
  set (N := Z.to_nat n). set (d := Z.to_nat (m - 1)).
  set (xs := enum N (S d) chr_A).
  assert (Htop : chr_A + Z.of_nat d = m - 1 + chr_A) by (unfold d; lia).
  assert (HK : length xs = K).
  { unfold xs, K. rewrite enum_count. f_equal. unfold N, d. lia. }
  assert (Hpath : path (m - 1 + chr_A) (repeat chr_A N) xs
                       (repeat (m - 1 + chr_A) N)).
  { rewrite <- Htop. apply enum_path; unfold chr_A in *; lia. }
  assert (Hend : next_code (m - 1 + chr_A) (repeat (m - 1 + chr_A) N) = None).
  { apply next_code_none. intros j Hj. rewrite repeat_length in Hj.
    apply nth_repeat_lt; exact Hj. }
  destruct (inc_loop_path m n _ _ _ Hpath Hend (repeat_length _ _))
    as [F1 F2].
  rewrite (fockstate_mn_repeat m n Hn). fold N. rewrite <- HK.
  split; [|exact F2].
  intros j Hj. exists (nth j xs []). apply F1, Hj.
Qed.

Lemma inv_fockstate_mn (m n : Z) :
  1 <= m -> fits m -> 0 <= n -> inv (fockstate_mn m n).
Proof.
  intros Hm Hfit Hn. rewrite fockstate_mn_repeat by exact Hn.
  unfold fits in Hfit. apply inv_defined; [lia| | | |].
  - apply Forall_forall. intros c Hc. apply repeat_spec in Hc. subst c.
    apply to_char_id. unfold chr_A. lia.
  - apply Forall_forall. intros c Hc. apply repeat_spec in Hc. subst c.
    unfold mode_index. lia.
  - apply StronglySorted_Sorted, StronglySorted_repeat.
  - rewrite repeat_length. lia.
Qed.

(** X14.  From the first state of [(m, n)], [operator+] returns a state
    with code for a count below [C(n+m-1, m-1)], the state without code for
    that count, and throws the invalid-operation exception for every
    larger count. *)
Theorem X14_plus_range (m n : Z) (c : nat) :
  1 <= m -> fits m -> 0 <= n ->
  let K := binom (Z.to_nat (n + m - 1)) (Z.to_nat (m - 1)) in
  ((c < K)%nat ->
   exists l, operator_plus (fockstate_mn m n) c
             = Ok (mk_fockstate m n (Some l)))
  /\ (c = K ->
      operator_plus (fockstate_mn m n) c = Ok (mk_fockstate m n None))
  /\ ((K < c)%nat ->
      operator_plus (fockstate_mn m n) c = Throw ndef_error).
Proof.
  intros Hm Hfit Hn K.
  destruct (inc_loop_enum m n Hm Hfit Hn) as [F1 F2]. fold K in F1, F2.
  pose proof (inv_fockstate_mn m n Hm Hfit Hn) as Hi.
  assert (Hplus : operator_plus (fockstate_mn m n) c
                  = inc_loop c (fockstate_mn m n)).
  { unfold operator_plus. rewrite copy_id by exact Hi.
    rewrite fockstate_mn_repeat by exact Hn. reflexivity. }
  rewrite Hplus. split; [exact (F1 c)|]. split.
  - intros ->. exact F2.
  - intros Hc. replace c with (K + (c - K))%nat by lia.
    rewrite inc_loop_add, F2. cbn [bind].
    apply inc_loop_no_code; [reflexivity|lia].
Qed.

(** ** Slices *)

Lemma count_steps_ceil (fuel : nat) (i e step : Z) :
  1 <= step -> e - i <= Z.of_nat fuel ->
  count_steps fuel i e step = Z.max 0 ((e - i + step - 1) / step).
Proof.
  intros Hstep.
  assert (Hout : forall i, e <= i -> (e - i + step - 1) / step <= 0).
  { intros i0 Hi0.
    assert ((e - i0 + step - 1) / step < 1); [|lia].
    apply Z.div_lt_upper_bound; lia. }
  revert i. induction fuel as [|f IH]; intros i Hf.
  - cbn [count_steps]. specialize (Hout i). lia.
  - cbn [count_steps]. destruct (i <? e) eqn:E.
    + apply Z.ltb_lt in E. rewrite IH by lia.
      replace (e - (i + step) + step - 1) with (e - i - 1) by lia.
      replace (e - i + step - 1) with (e - i - 1 + 1 * step) by lia.
      rewrite Z.div_add by lia.
      pose proof (Z.div_pos (e - i - 1) step). lia.
    + apply Z.ltb_ge in E. specialize (Hout i). lia.
Qed.

(** The slice of a state with code, for positions in range. *)
Lemma slice_code (s : fockstate) (l : list Z) (st e step : Z) :
  inv s -> _code s = Some l -> 0 <= st -> 0 <= e <= _m s -> 1 <= step ->
  slice s st e step
  = Ok (mk_fockstate (Z.max 0 ((e - st + step - 1) / step))
          (Z.of_nat (length (filter (in_slice st e step) l)))
          (Some (map (fun c => Z.quot (c - st - chr_A) step + chr_A)
                     (filter (in_slice st e step) l)))).
Proof.
  intros Hi Hc Hst He Hstep.
  destruct (inv_parts s l Hi Hc) as (Hch & Hr & Hs & Hn & Hm).
  destruct (inv_firstn s l Hi Hc) as [Hf _].
  unfold slice. rewrite (check_slice_in_range s l) by assumption.
  cbn [bind]. rewrite Hf, count_steps_ceil by lia.
  remember (filter (in_slice st e step) l) as filt eqn:Ef.
  destruct (Z.of_nat (length filt) =? 0) eqn:E0.
  - apply Z.eqb_eq in E0. destruct filt; [reflexivity|cbn in E0; lia].
  - rewrite Hc, Hf, <- Ef. do 3 f_equal. apply map_ext_in. intros c Hin.
    apply to_char_id. rewrite Ef in Hin. apply filter_In in Hin as [Hin Hsl].
    unfold in_slice in Hsl. apply andb_true_iff in Hsl as [Hsl _].
    apply andb_true_iff in Hsl as [H1 H2].
    rewrite Z.geb_leb in H1. apply Z.leb_le in H1. apply Z.ltb_lt in H2.
    rewrite Forall_forall in Hch. pose proof (is_char_bound c (Hch c Hin)).
    rewrite Z.quot_div_nonneg by lia.
    pose proof (Z.div_pos (c - st - chr_A) step).
    assert ((c - st - chr_A) / step <= c - st - chr_A)
      by (apply Z.div_le_upper_bound; [lia|nia]).
    unfold chr_A in *. lia.
Qed.

Lemma count_occ_map_filter (f : Z -> Z) (P : Z -> bool) (l : list Z)
      (x y : Z) :
  (forall c, In c l -> (P c = true /\ f c = y) <-> c = x) ->
  count_occ Z.eq_dec (map f (filter P l)) y = count_occ Z.eq_dec l x.
Proof.
  induction l as [|c r IH]; intros H; [reflexivity|].
  assert (IH' := IH (fun c' Hc' => H c' (or_intror Hc'))).
  pose proof (H c (or_introl eq_refl)) as Hc.
  cbn [filter count_occ]. destruct (P c) eqn:EP; cbn [map count_occ].
  - destruct (Z.eq_dec (f c) y) as [E|E], (Z.eq_dec c x) as [E'|E'];
      try (rewrite IH'; reflexivity); exfalso.
    + apply E'. apply Hc. auto.
    + apply E. apply Hc. exact E'.
  - destruct (Z.eq_dec c x) as [E'|E']; [|exact IH'].
    apply Hc in E'. destruct E'; congruence.
Qed.

(** The particles a slice sends to its mode [j] are those of mode
    [start + j * step]. *)
Lemma in_slice_position (st e step j c : Z) :
  1 <= step -> 0 <= j -> st + j * step < e ->
  (in_slice st e step c = true
   /\ Z.quot (c - st - chr_A) step + chr_A = j + chr_A)
  <-> c = st + j * step + chr_A.
Proof.
  intros Hstep Hj Hlt. unfold in_slice. split.
  - intros [H Hq]. apply andb_true_iff in H as [H H3].
    apply andb_true_iff in H as [H1 H2].
    rewrite Z.geb_leb in H1. apply Z.leb_le in H1. apply Z.ltb_lt in H2.
    assert (Hrem : Z.rem (c - st - chr_A) step = 0).
    { apply orb_true_iff in H3 as [H3|H3].
      - apply Z.eqb_eq in H3. subst step. apply Z.rem_1_r.
      - apply Z.eqb_eq, H3. }
    pose proof (Z.quot_rem' (c - st - chr_A) step) as E.
    rewrite Hrem in E.
    replace (Z.quot (c - st - chr_A) step) with j in E by lia. lia.
  - intros ->.
    replace (st + j * step + chr_A - st - chr_A) with (j * step) by lia.
    rewrite Z.quot_mul, Z.rem_mul by lia.
    split; [|reflexivity]. rewrite Z.geb_leb.
    apply andb_true_iff; split; [apply andb_true_iff; split|].
    + apply Z.leb_le. nia.
    + apply Z.ltb_lt. lia.
    + rewrite Z.eqb_refl. apply orb_true_r.
Qed.

Lemma slice_occupations (s : fockstate) (l : list Z) (st e step : Z) :
  inv s -> _code s = Some l -> 0 <= st <= e -> e <= _m s -> 1 <= step ->
  exists r, slice s st e step = Ok r
    /\ _m r = (e - st + step - 1) / step
    /\ forall j, 0 <= j < _m r ->
         operator_index r j = operator_index s (st + j * step).
Proof.
  intros Hi Hc Hst He Hstep.
  assert (Hsl := slice_code s l st e step Hi Hc ltac:(lia) ltac:(lia) Hstep).
  assert (Hq : 0 <= (e - st + step - 1) / step) by (apply Z.div_pos; lia).
  rewrite Z.max_r in Hsl by exact Hq.
  eexists. split; [exact Hsl|]. cbn [_m]. split; [reflexivity|].
  intros j Hj.
  assert (Hlt : st + j * step < e).
  { pose proof (Z.mul_div_le (e - st + step - 1) step). nia. }
  pose proof (inv_slice s _ st e step Hi Hsl) as Hir.
  rewrite (operator_index_occupation _ _ j Hir eq_refl) by (cbn [_m]; lia).
  rewrite (operator_index_occupation s l (st + j * step) Hi Hc) by nia.
  f_equal. unfold occupation, particles. cbn [_code]. rewrite Hc. f_equal.
  apply count_occ_map_filter. intros c _. apply in_slice_position; lia.
Qed.

(** X15.  On a state with code that satisfies the invariants, the slice of
    the positions [start <= end <= modes] with a step of at least 1 has
    [ceil((end - start) / step)] modes, and its mode [j] holds the
    particles of the mode [start + j * step] of the state. *)
Theorem X15_slice_occupations (s : fockstate) (l : list Z) (st e step : Z) :
  inv s -> _code s = Some l -> 0 <= st <= e -> e <= _m s -> 1 <= step ->
  exists r, slice s st e step = Ok r
    /\ _m r = (e - st + step - 1) / step
    /\ forall j, 0 <= j < _m r ->
         operator_index r j = operator_index s (st + j * step).
Proof. exact (slice_occupations s l st e step). Qed.

(** ** Slices and the tensor product *)

Lemma filter_in_slice_all (st e : Z) (l : list Z) :
  Forall (fun c => st + chr_A <= c < e + chr_A) l ->
  filter (in_slice st e 1) l = l.
Proof.
  induction 1 as [|x l Hx Hl IH]; [reflexivity|].
  cbn [filter]. rewrite in_slice_one.
  replace (st + chr_A <=? x) with true by (symmetry; apply Z.leb_le; lia).
  replace (x <? e + chr_A) with true by (symmetry; apply Z.ltb_lt; lia).
  cbn [andb]. now rewrite IH.
Qed.

Lemma filter_none_below (st e step : Z) (l : list Z) :
  Forall (fun c => c < st + chr_A) l ->
  filter (in_slice st e step) l = [].
Proof.
  induction 1 as [|x l Hx Hl IH]; [reflexivity|]. cbn [filter].
  unfold in_slice at 1.
  replace (x >=? st + chr_A) with false
    by (symmetry; rewrite Z.geb_leb; apply Z.leb_gt; lia).
  exact IH.
Qed.

Lemma slice_code_one (s : fockstate) (l : list Z) (st e : Z) :
  inv s -> _code s = Some l -> 0 <= st <= e -> e <= _m s ->
  slice s st e 1
  = Ok (mk_fockstate (e - st)
          (Z.of_nat (length (filter (in_slice st e 1) l)))
          (Some (map (fun c => c - st) (filter (in_slice st e 1) l)))).
Proof.
  intros Hi Hc Hst He.
  rewrite (slice_code s l st e 1 Hi Hc) by lia.
  f_equal. f_equal.
  - rewrite Z.div_1_r. lia.
  - f_equal. apply map_ext. intros c. rewrite Z.quot_1_r. lia.
Qed.

(** An ordered buffer is the particles of the modes below [k] followed by
    the others. *)
Lemma filter_split_at (k m : Z) (l : list Z) :
  StronglySorted Z.le l -> Forall (fun c => 0 <= mode_index c < m) l ->
  filter (in_slice 0 k 1) l ++ filter (in_slice k m 1) l = l.
Proof.
  induction 1 as [|x l Hs IH Hx]; intros Hr; [reflexivity|].
  inversion Hr as [|? ? Hx0 Hr0]; subst. unfold mode_index in Hx0.
  destruct (Z_lt_ge_dec x (k + chr_A)) as [Hlt|Hge].
  - cbn [filter]. rewrite !in_slice_one.
    replace (0 + chr_A <=? x) with true by (symmetry; apply Z.leb_le; lia).
    replace (x <? k + chr_A) with true by (symmetry; apply Z.ltb_lt; lia).
    replace (k + chr_A <=? x) with false by (symmetry; apply Z.leb_gt; lia).
    cbn [andb app]. f_equal. apply IH, Hr0.
  - rewrite Forall_forall in Hx, Hr0.
    rewrite (filter_none_above 0 k 1 (x :: l)),
            (filter_in_slice_all k m (x :: l)); [reflexivity| |].
    + constructor; [lia|]. apply Forall_forall. intros c Hc.
      specialize (Hx c Hc). specialize (Hr0 c Hc).
      unfold mode_index in Hr0. lia.
    + constructor; [lia|]. apply Forall_forall. intros c Hc.
      specialize (Hx c Hc). lia.
Qed.

Lemma slices_multiply_back (s : fockstate) (l : list Z) (k : Z) :
  inv s -> _code s = Some l -> 0 <= k <= _m s ->
  exists a b, slice s 0 k 1 = Ok a /\ slice s k (_m s) 1 = Ok b
              /\ operator_mul a b = Ok s.
Proof.
  intros Hi Hc Hk.
  destruct (inv_parts s l Hi Hc) as (Hch & Hr & Hs & Hn & Hm).
  rewrite (slice_code_one s l 0 k), (slice_code_one s l k (_m s))
    by (trivial; lia).
  eexists; eexists. split; [reflexivity|]. split; [reflexivity|].
  pose proof (filter_split_at k (_m s) l Hs Hr) as Hsplit.
  remember (filter (in_slice 0 k 1) l) as f1 eqn:E1.
  remember (filter (in_slice k (_m s) 1) l) as f2 eqn:E2.
  assert (Hlen : Z.of_nat (length f1) + Z.of_nat (length f2) = _n s).
  { rewrite Hn, <- Hsplit, length_app. lia. }
  unfold operator_mul. cbn [_code _m _n].
  rewrite !Nat2Z.id, !firstn_all2 by (rewrite length_map; lia).
  rewrite map_map.
  replace (map (fun c => c - 0) f1) with f1
    by (rewrite <- (map_id f1) at 1; apply map_ext; intros; lia).
  replace (map (fun c => to_char (c - k + (k - 0))) f2) with f2.
  - rewrite Hsplit. destruct s as [m n c]. cbn [_m _n _code] in *.
    subst c. do 2 f_equal; lia.
  - rewrite <- (map_id f2) at 1. apply map_ext_in. intros c Hin.
    replace (c - k + (k - 0)) with c by lia. symmetry.
    rewrite Forall_forall in Hch. apply Hch.
    rewrite E2 in Hin. apply filter_In in Hin. tauto.
Qed.

(** X16.  A state with code that satisfies the invariants, cut at any
    position [0 <= k <= modes], is the tensor product of its two slices. *)
Theorem X16_slices_multiply_back (s : fockstate) (l : list Z) (k : Z) :
  inv s -> _code s = Some l -> 0 <= k <= _m s ->
  exists a b, slice s 0 k 1 = Ok a /\ slice s k (_m s) 1 = Ok b
              /\ operator_mul a b = Ok s.
Proof. exact (slices_multiply_back s l k). Qed.

Lemma mul_slices (a b : fockstate) (la lb : list Z) :
  _code a = Some la -> _code b = Some lb -> inv a -> inv b ->
  fits (_m a + _m b) ->
  exists p, operator_mul a b = Ok p
            /\ slice p 0 (_m a) 1 = Ok a
            /\ slice p (_m a) (_m a + _m b) 1 = Ok b.
Proof.
  intros Ha Hb Ia Ib Hfit.
  pose proof (operator_mul_code a b la lb Ha Hb Ia Ib Hfit) as Hp.
  pose proof (inv_mul a b _ Ia Ib Hfit Hp) as Ip.
  destruct (inv_parts a la Ia Ha) as (Ca & Ra & Sa & Na & Ma).
  destruct (inv_parts b lb Ib Hb) as (Cb & Rb & Sb & Nb & Mb).
  eexists. split; [exact Hp|].
  assert (Hla : Forall (fun c => 0 + chr_A <= c < _m a + chr_A) la).
  { revert Ra. apply Forall_impl. unfold mode_index. intros; lia. }
  assert (Hlb : Forall (fun c => _m a + chr_A <= c < _m a + _m b + chr_A)
                       (map (fun c => c + _m a) lb)).
  { apply Forall_map. revert Rb. apply Forall_impl. unfold mode_index.
    intros; lia. }
  split.
  - rewrite (slice_code_one _ _ 0 (_m a) Ip eq_refl) by (cbn [_m]; lia).
    rewrite filter_app, (filter_in_slice_all 0 (_m a) la Hla).
    rewrite filter_none_above, app_nil_r
      by (revert Hlb; apply Forall_impl; intros; lia).
    replace (map (fun c => c - 0) la) with la
      by (rewrite <- (map_id la) at 1; apply map_ext; intros; lia).
    destruct a as [m n c]. cbn [_m _n _code] in *. subst c.
    do 2 f_equal; lia.
  - rewrite (slice_code_one _ _ (_m a) (_m a + _m b) Ip eq_refl)
      by (cbn [_m]; lia).
    rewrite filter_app, filter_none_below, app_nil_l
      by (revert Hla; apply Forall_impl; intros; lia).
    rewrite (filter_in_slice_all _ _ _ Hlb), map_map, length_map.
    replace (map (fun c => c + _m a - _m a) lb) with lb
      by (rewrite <- (map_id lb) at 1; apply map_ext; intros; lia).
    destruct b as [m n c]. cbn [_m _n _code] in *. subst c.
    do 2 f_equal; lia.
Qed.

(** X17.  The two factors of a tensor product of states with code that
    satisfy the invariants (the total mode count fitting the [char] codes)
    are recovered as its slices. *)
Theorem X17_product_slices (a b : fockstate) (la lb : list Z) :
  _code a = Some la -> _code b = Some lb -> inv a -> inv b ->
  fits (_m a + _m b) ->
  exists p, operator_mul a b = Ok p
            /\ slice p 0 (_m a) 1 = Ok a
            /\ slice p (_m a) (_m a + _m b) 1 = Ok b.
Proof. exact (mul_slices a b la lb). Qed.

Lemma map_seq_from (f : nat -> Z) (a n : nat) :
  map f (seq a n) = map (fun k => f (a + k)%nat) (seq 0 n).
Proof.
  revert a. induction n as [|n IH]; intros a; [reflexivity|].
  cbn [seq map]. f_equal; [f_equal; lia|].
  rewrite (IH (S a)), <- seq_shift, map_map. apply map_ext. intros k.
  f_equal. lia.
Qed.

Lemma count_occ_shift (d x : Z) (l : list Z) :
  count_occ Z.eq_dec (map (fun c => c + d) l) (x + d)
  = count_occ Z.eq_dec l x.
Proof.
  induction l as [|c r IH]; [reflexivity|]. cbn [map count_occ].
  destruct (Z.eq_dec (c + d) (x + d)), (Z.eq_dec c x); try lia;
    now rewrite IH.
Qed.

Lemma occupations_app (la lb : list Z) (ma mb : nat) :
  Forall (fun c => 0 <= mode_index c < Z.of_nat ma) la ->
  Forall (fun c => 0 <= mode_index c) lb ->
  occupations (la ++ map (fun c => c + Z.of_nat ma) lb) (ma + mb)
  = occupations la ma ++ occupations lb mb.
Proof.
  intros Ha Hb. unfold occupations, mode_index in *.
  rewrite Forall_forall in Ha, Hb.
  rewrite seq_app, map_app. f_equal.
  - apply map_ext_in. intros k Hk. apply in_seq in Hk.
    rewrite count_occ_app.
    replace (count_occ Z.eq_dec (map (fun c => c + Z.of_nat ma) lb)
                       (Z.of_nat k + chr_A)) with O; [f_equal; lia|].
    symmetry. apply count_occ_not_In. intros Hin.
    apply in_map_iff in Hin as (c & E & Hin). specialize (Hb c Hin). lia.
  - cbn [Nat.add]. rewrite map_seq_from. apply map_ext. intros k.
    rewrite count_occ_app.
    replace (count_occ Z.eq_dec la (Z.of_nat (ma + k) + chr_A)) with O.
    + cbn [Nat.add]. f_equal.
      replace (Z.of_nat (ma + k) + chr_A)
        with (Z.of_nat k + chr_A + Z.of_nat ma) by lia.
      apply count_occ_shift.
    + symmetry. apply count_occ_not_In. intros Hin.
      specialize (Ha _ Hin). lia.
Qed.

Lemma mul_to_vect (a b : fockstate) (la lb : list Z) :
  _code a = Some la -> _code b = Some lb -> inv a -> inv b ->
  fits (_m a + _m b) ->
  exists p va vb,
    operator_mul a b = Ok p /\ to_vect a = Ok va /\ to_vect b = Ok vb
    /\ to_vect p = Ok (va ++ vb).
Proof.
  intros Ha Hb Ia Ib Hfit.
  pose proof (operator_mul_code a b la lb Ha Hb Ia Ib Hfit) as Hp.
  pose proof (inv_mul a b _ Ia Ib Hfit Hp) as Ip.
  destruct (inv_parts a la Ia Ha) as (Ca & Ra & Sa & Na & Ma).
  destruct (inv_parts b lb Ib Hb) as (Cb & Rb & Sb & Nb & Mb).
  eexists; eexists; eexists. split; [exact Hp|].
  split; [exact (to_vect_code a la Ia Ha)|].
  split; [exact (to_vect_code b lb Ib Hb)|].
  rewrite (to_vect_code _ _ Ip eq_refl). cbn [_m]. f_equal.
  rewrite Z2Nat.inj_add by lia.
  replace (map (fun c => c + _m a) lb)
    with (map (fun c => c + Z.of_nat (Z.to_nat (_m a))) lb)
    by (apply map_ext; intros; lia).
  apply occupations_app.
  - apply range_to_nat, Ra.
  - revert Rb. apply Forall_impl. intros; lia.
Qed.

(** X18.  The occupation vector of a tensor product of states with code
    that satisfy the invariants (the total mode count fitting the [char]
    codes) is the occupation vector of the first factor followed by that
    of the second. *)
Theorem X18_product_vector (a b : fockstate) (la lb : list Z) :
  _code a = Some la -> _code b = Some lb -> inv a -> inv b ->
  fits (_m a + _m b) ->
  exists p va vb,
    operator_mul a b = Ok p /\ to_vect a = Ok va /\ to_vect b = Ok vb
    /\ to_vect p = Ok (va ++ vb).
Proof. exact (mul_to_vect a b la lb). Qed.

Lemma operator_mul_assoc (a b c : fockstate) (la lb lc : list Z) :
  _code a = Some la -> _code b = Some lb -> _code c = Some lc ->
  inv a -> inv b -> inv c -> fits (_m a + _m b + _m c) ->
  exists r,
    (p <- operator_mul a b ;; operator_mul p c) = Ok r
    /\ (q <- operator_mul b c ;; operator_mul a q) = Ok r.
Proof.
  intros Ha Hb Hc Ia Ib Ic Hfit.
  pose proof (inv_modes a Ia). pose proof (inv_modes b Ib).
  pose proof (inv_modes c Ic).
  assert (Fab : fits (_m a + _m b)) by (unfold fits in *; lia).
  assert (Fbc : fits (_m b + _m c)) by (unfold fits in *; lia).
  pose proof (operator_mul_code a b la lb Ha Hb Ia Ib Fab) as Hp.
  pose proof (inv_mul a b _ Ia Ib Fab Hp) as Ip.
  pose proof (operator_mul_code b c lb lc Hb Hc Ib Ic Fbc) as Hq.
  pose proof (inv_mul b c _ Ib Ic Fbc Hq) as Iq.
  rewrite Hp, Hq. cbn [bind].
  match type of Ip with
  | inv ?p =>
      rewrite (operator_mul_code p c _ lc eq_refl Hc Ip Ic) by exact Hfit
  end.
  match type of Iq with
  | inv ?q =>
      rewrite (operator_mul_code a q la _ Ha eq_refl Ia Iq)
        by (cbn [_m]; unfold fits in *; lia)
  end.
  cbn [_m _n]. eexists. split; [reflexivity|].
  rewrite map_app, map_map, <- app_assoc, !Z.add_assoc.
  do 5 f_equal. apply map_ext. intros x. lia.
Qed.

Lemma operator_mul_unit (a : fockstate) (la : list Z) :
  _code a = Some la -> inv a ->
  operator_mul a (fockstate_m 0) = Ok a
  /\ operator_mul (fockstate_m 0) a = Ok a.
Proof.
  intros Ha Ia.
  destruct (inv_parts a la Ia Ha) as (Ca & Ra & Sa & Na & Ma).
  destruct (inv_firstn a la Ia Ha) as [Fa _].
  unfold operator_mul, fockstate_m. cbn [_code _m _n]. rewrite Ha, Fa.
  destruct a as [m n c]. cbn [_m _n _code] in *. subst c. split.
  - cbn [firstn map]. rewrite app_nil_r. do 2 f_equal; lia.
  - cbn [firstn app]. do 2 f_equal; [lia|]. f_equal.
    rewrite <- (map_id la) at 2. apply map_ext_in. intros x Hx.
    rewrite Z.add_0_r. rewrite Forall_forall in Ca. apply Ca, Hx.
Qed.

(** X19.  On states with code that satisfy the invariants, the tensor
    product is associative when the total mode count fits the [char]
    codes; and the state of no mode is a unit on both sides for every
    state with code that satisfies the invariants, whatever its mode
    count. *)
Theorem X19_product_monoid :
  (forall a b c la lb lc,
     _code a = Some la -> _code b = Some lb -> _code c = Some lc ->
     inv a -> inv b -> inv c -> fits (_m a + _m b + _m c) ->
     exists r,
       (p <- operator_mul a b ;; operator_mul p c) = Ok r
       /\ (q <- operator_mul b c ;; operator_mul a q) = Ok r)
  /\ (forall a la,
        _code a = Some la -> inv a ->
        operator_mul a (fockstate_m 0) = Ok a
        /\ operator_mul (fockstate_m 0) a = Ok a).
Proof.
  split; [exact operator_mul_assoc|exact operator_mul_unit].
Qed.

(** ** Replacing a slice *)

Lemma check_slice_one (s : fockstate) (l : list Z) (st e : Z) :
  inv s -> _code s = Some l -> 0 <= st <= e -> e <= _m s ->
  _check_slice s st e 1
  = Ok (st, e, e - st,
        Z.of_nat (length (filter (in_slice st e 1) l))).
Proof.
  intros Hi Hc Hst He. destruct (inv_firstn s l Hi Hc) as [Hf _].
  rewrite (check_slice_in_range s l) by (trivial; lia).
  rewrite Hf, count_steps_ceil by lia. rewrite Z.div_1_r.
  do 2 f_equal. f_equal. lia.
Qed.

(** The three parts of an ordered buffer around a slice. *)
Lemma slice_parts (st e : Z) (l : list Z) :
  StronglySorted Z.le l ->
  Forall (fun c => c < st + chr_A) (take_below (st + chr_A) l)
  /\ Forall (fun c => st + chr_A <= c < e + chr_A)
            (filter (in_slice st e 1) l)
  /\ Forall (fun c => e + chr_A <= c)
            (drop_below (e + chr_A) (drop_below (st + chr_A) l)).
Proof.
  intros Hs. split; [|split].
  - apply Forall_forall. intros c Hc. apply take_below_In in Hc. tauto.
  - apply Forall_forall. intros c Hc. apply filter_In in Hc as [_ Hc].
    rewrite in_slice_one in Hc. apply andb_true_iff in Hc as [H1 H2].
    apply Z.leb_le in H1. apply Z.ltb_lt in H2. lia.
  - destruct (drop_below_sorted (st + chr_A) l Hs) as [Hs1 _].
    destruct (drop_below_sorted (e + chr_A) _ Hs1) as [_ H]. exact H.
Qed.

Lemma set_slice_code (s fs : fockstate) (l fl : list Z) (st e : Z) :
  inv s -> _code s = Some l -> inv fs -> _code fs = Some fl ->
  0 <= st <= e -> e <= _m s -> _m fs = e - st -> fits (_m s) ->
  set_slice s fs st e
  = Ok (mk_fockstate (_m s)
          (_n s - Z.of_nat (length (filter (in_slice st e 1) l)) + _n fs)
          (Some (take_below (st + chr_A) l
                 ++ map (fun c => c + st) fl
                 ++ drop_below (e + chr_A) (drop_below (st + chr_A) l)))).
Proof.
  intros Hi Hc Hfs Hfc Hst He Hw Hfit.
  destruct (inv_parts s l Hi Hc) as (Hch & Hr & Hs & Hn & Hm).
  destruct (inv_parts fs fl Hfs Hfc) as (Fch & Fr & Fs & Fn & Fm).
  destruct (inv_firstn s l Hi Hc) as [Hf _].
  destruct (inv_firstn fs fl Hfs Hfc) as [Ff _].
  unfold set_slice. rewrite (check_slice_one s l st e Hi Hc Hst He).
  cbn [bind]. rewrite Hw, Z.eqb_refl. cbn [negb].
  rewrite Hc, Hfc, Hf, Ff.
  pose proof (slice_split st e l Hs) as Hsplit.
  remember (take_below (st + chr_A) l) as lower eqn:El.
  remember (filter (in_slice st e 1) l) as filt eqn:Ef.
  remember (drop_below (e + chr_A) (drop_below (st + chr_A) l)) as higher
    eqn:Eh.
  assert (Hlen : Z.of_nat (length lower) + Z.of_nat (length filt)
                 + Z.of_nat (length higher) = _n s).
  { rewrite Hn, <- Hsplit, !length_app. lia. }
  assert (Hshift : map (fun c => to_char (c + st)) fl
                   = map (fun c => c + st) fl).
  { apply map_ext_in. intros c Hin. apply to_char_id.
    rewrite Forall_forall in Fr. specialize (Fr c Hin).
    unfold fits, mode_index, chr_A in *. lia. }
  rewrite Hshift.
  destruct (_n s - Z.of_nat (length filt) + _n fs =? 0) eqn:E0;
    [|reflexivity].
  apply Z.eqb_eq in E0. rewrite E0.
  assert (lower = [] /\ fl = [] /\ higher = []) as (-> & -> & ->).
  { destruct lower, fl, higher; cbn [length] in *; auto; lia. }
  reflexivity.
Qed.

Lemma set_slice_occupations (s fs : fockstate) (l fl : list Z) (st e : Z) :
  inv s -> _code s = Some l -> inv fs -> _code fs = Some fl ->
  0 <= st <= e -> e <= _m s -> _m fs = e - st -> fits (_m s) ->
  exists r, set_slice s fs st e = Ok r
    /\ _m r = _m s
    /\ (forall idx, st <= idx < e ->
          operator_index r idx = operator_index fs (idx - st))
    /\ (forall idx, 0 <= idx < st \/ e <= idx < _m s ->
          operator_index r idx = operator_index s idx).
Proof.
  intros Hi Hc Hfs Hfc Hst He Hw Hfit.
  pose proof (set_slice_code s fs l fl st e Hi Hc Hfs Hfc Hst He Hw Hfit)
    as Hset.
  pose proof (inv_set_slice s fs _ st e Hi Hfs Hfit Hset) as Hir.
  destruct (inv_parts s l Hi Hc) as (Hch & Hr & Hs & Hn & Hm).
  destruct (inv_parts fs fl Hfs Hfc) as (Fch & Fr & Fs & Fn & Fm).
  destruct (slice_parts st e l Hs) as (Hlow & Hmid & Hhigh).
  pose proof (slice_split st e l Hs) as Hsplit.
  remember (take_below (st + chr_A) l) as lower eqn:El.
  remember (filter (in_slice st e 1) l) as filt eqn:Ef.
  remember (drop_below (e + chr_A) (drop_below (st + chr_A) l)) as higher
    eqn:Eh.
  assert (Hins : Forall (fun c => st + chr_A <= c < e + chr_A)
                        (map (fun c => c + st) fl)).
  { apply Forall_map. revert Fr. apply Forall_impl. unfold mode_index.
    intros; lia. }
  assert (Hzero : forall (P : Z -> Prop) (t : list Z) (x : Z),
            Forall P t -> ~ P x -> count_occ Z.eq_dec t x = O).
  { intros P t x Ht Hx. apply count_occ_not_In. intros Hin.
    rewrite Forall_forall in Ht. apply Hx, Ht, Hin. }
  eexists. split; [exact Hset|]. cbn [_m]. split; [reflexivity|].
  split.
  - intros idx Hidx.
    rewrite (operator_index_occupation _ _ idx Hir eq_refl)
      by (cbn [_m]; lia).
    rewrite (operator_index_occupation fs fl (idx - st) Hfs Hfc) by lia.
    unfold occupation, particles. cbn [_code]. rewrite Hfc.
    rewrite !count_occ_app.
    rewrite (Hzero _ lower (idx + chr_A) Hlow) by lia.
    rewrite (Hzero _ higher (idx + chr_A) Hhigh) by lia.
    replace (idx + chr_A) with (idx - st + chr_A + st) by lia.
    rewrite count_occ_shift. do 2 f_equal. lia.
  - intros idx Hidx.
    rewrite (operator_index_occupation _ _ idx Hir eq_refl)
      by (cbn [_m]; lia).
    rewrite (operator_index_occupation s l idx Hi Hc) by lia.
    unfold occupation, particles. cbn [_code]. rewrite Hc.
    rewrite <- Hsplit. rewrite !count_occ_app.
    rewrite (Hzero _ _ (idx + chr_A) Hins) by lia.
    rewrite (Hzero _ filt (idx + chr_A) Hmid) by lia.
    reflexivity.
Qed.

(** X20.  [set_slice] on states with code that satisfy the invariants,
    with positions [start <= end <= modes], a replacement as wide as the
    slice and a mode count fitting the [char] codes: the modes of the slice
    take the occupations of the replacement, every other mode keeps
    its own. *)
Theorem X20_set_slice_occupations (s fs : fockstate) (l fl : list Z)
        (st e : Z) :
  inv s -> _code s = Some l -> inv fs -> _code fs = Some fl ->
  0 <= st <= e -> e <= _m s -> _m fs = e - st -> fits (_m s) ->
  exists r, set_slice s fs st e = Ok r
    /\ _m r = _m s
    /\ (forall idx, st <= idx < e ->
          operator_index r idx = operator_index fs (idx - st))
    /\ (forall idx, 0 <= idx < st \/ e <= idx < _m s ->
          operator_index r idx = operator_index s idx).
Proof. exact (set_slice_occupations s fs l fl st e). Qed.

Lemma set_slice_then_slice (s fs : fockstate) (l fl : list Z) (st e : Z) :
  inv s -> _code s = Some l -> inv fs -> _code fs = Some fl ->
  0 <= st <= e -> e <= _m s -> _m fs = e - st -> fits (_m s) ->
  exists r, set_slice s fs st e = Ok r /\ slice r st e 1 = Ok fs.
Proof.
  intros Hi Hc Hfs Hfc Hst He Hw Hfit.
  pose proof (set_slice_code s fs l fl st e Hi Hc Hfs Hfc Hst He Hw Hfit)
    as Hset.
  pose proof (inv_set_slice s fs _ st e Hi Hfs Hfit Hset) as Hir.
  destruct (inv_parts s l Hi Hc) as (Hch & Hr & Hs & Hn & Hm).
  destruct (inv_parts fs fl Hfs Hfc) as (Fch & Fr & Fs & Fn & Fm).
  destruct (slice_parts st e l Hs) as (Hlow & Hmid & Hhigh).
  eexists. split; [exact Hset|].
  rewrite (slice_code_one _ _ st e Hir eq_refl) by (cbn [_m]; lia).
  rewrite !filter_app.
  rewrite (filter_none_below st e 1 _ Hlow), (filter_none_above st e 1 _ Hhigh).
  rewrite app_nil_l, app_nil_r, filter_in_slice_all.
  - rewrite map_map, length_map.
    replace (map (fun c => c + st - st) fl) with fl
      by (rewrite <- (map_id fl) at 1; apply map_ext; intros; lia).
    destruct fs as [m n c]. cbn [_m _n _code] in *. subst c.
    do 2 f_equal; lia.
  - apply Forall_map. revert Fr. apply Forall_impl. unfold mode_index.
    intros; lia.
Qed.

Lemma set_slice_width (s fs : fockstate) (l : list Z) (st e : Z) :
  inv s -> _code s = Some l -> 0 <= st <= e -> e <= _m s ->
  _m fs <> e - st ->
  set_slice s fs st e
  = Throw (invalid_argument "invalid fockstate to replace in slice").
Proof.
  intros Hi Hc Hst He Hw.
  unfold set_slice. rewrite (check_slice_one s l st e Hi Hc Hst He).
  cbn [bind].
  now replace (e - st =? _m fs) with false
    by (symmetry; apply Z.eqb_neq; lia).
Qed.

(** X21.  Under the conditions of X20, the slice of the state [set_slice]
    returns, at the positions written, is the replacement; a replacement
    whose mode count is not [end - start] makes [set_slice] throw
    invalid-argument, with or without code in the replacement. *)
Theorem X21_set_slice_then_slice (s fs : fockstate) (l : list Z) (st e : Z) :
  inv s -> _code s = Some l -> 0 <= st <= e -> e <= _m s ->
  (forall fl, inv fs -> _code fs = Some fl -> _m fs = e - st ->
     fits (_m s) ->
     exists r, set_slice s fs st e = Ok r /\ slice r st e 1 = Ok fs)
  /\ (_m fs <> e - st ->
      set_slice s fs st e
      = Throw (invalid_argument "invalid fockstate to replace in slice")).
Proof.
  intros Hi Hc Hst He. split.
  - intros fl Hfs Hfc Hw Hfit.
    exact (set_slice_then_slice s fs l fl st e Hi Hc Hfs Hfc Hst He Hw Hfit).
  - exact (set_slice_width s fs l st e Hi Hc Hst He).
Qed.

(** ** Annotations are checked, not stored *)





(** ** Positions of a slice *)

Lemma check_slice_positions (s : fockstate) (st e step : Z) :
  0 <= _m s ->
  (- _m s <= st < 0 ->
   _check_slice s st e step = _check_slice s (st + _m s) e step)
  /\ (st < - _m s -> _check_slice s st e step = _check_slice s 0 e step)
  /\ (- _m s <= e < 0 ->
      _check_slice s st e step = _check_slice s st (e + _m s) step)
  /\ (e < - _m s -> _check_slice s st e step = _check_slice s st 0 step)
  /\ (_m s <= e ->
      _check_slice s st e step = _check_slice s st (_m s) step).
Proof.
  intros Hm. unfold _check_slice. cbv zeta.
  repeat split; intros H;
    repeat match goal with
    | |- context [?a >? ?b] => rewrite (Z.gtb_ltb a b)
    | |- context [?a <? ?b] =>
        lazymatch a with
        | context [if _ then _ else _] => fail
        | _ => idtac
        end;
        lazymatch b with
        | context [if _ then _ else _] => fail
        | _ => idtac
        end;
        destruct (Z.ltb_spec a b); cbv iota; try lia
    end;
    first [reflexivity
          |assert (E : e = _m s) by lia; rewrite E; reflexivity].
Qed.

(** X23.  The positions of [slice] follow the convention of Python: a
    negative position counts from the end, a position still negative after
    that is 0, and an end beyond the mode count is the mode count. *)
Theorem X23_slice_positions (s : fockstate) (st e step : Z) :
  0 <= _m s ->
  (- _m s <= st < 0 -> slice s st e step = slice s (st + _m s) e step)
  /\ (st < - _m s -> slice s st e step = slice s 0 e step)
  /\ (- _m s <= e < 0 -> slice s st e step = slice s st (e + _m s) step)
  /\ (e < - _m s -> slice s st e step = slice s st 0 step)
  /\ (_m s <= e -> slice s st e step = slice s st (_m s) step).
Proof.
  intros Hm.
  destruct (check_slice_positions s st e step Hm)
    as (H1 & H2 & H3 & H4 & H5).
  unfold slice.
  repeat split; intros H;
    [rewrite (H1 H)|rewrite (H2 H)|rewrite (H3 H)|rewrite (H4 H)
    |rewrite (H5 H)]; reflexivity.
Qed.

(** ** What follows the counts in a text *)

Lemma parse_cstr_tail (open_char : ascii) (close body tail : cstr)
      (fs : list Z) (n : Z) :
  In (open_char, close) delimiters ->
  parse_modes (S (length (body ++ close ++ tail))) (body ++ close ++ tail)
              [] 0
  = Some (Ok (close ++ tail, fs, n)) ->
  parse_cstr (open_char :: body ++ close ++ tail)
  = if negb (peek (skip_blanks tail) =? zero)%char
    then Some (Throw (invalid_argument
                        "invalid fock state representation (extra chars)"))
    else Some (Ok (if negb (n =? 0)
                   then mk_fockstate (Z.of_nat (length fs)) n
                                     (Some (fill_code (length fs) fs))
                   else mk_fockstate (Z.of_nat (length fs)) n (Some []))).
Proof.
  intros Hd Hpm. remember (body ++ close ++ tail) as str eqn:Es.
  cbn [In delimiters] in Hd.
  destruct Hd as [E|[E|[E|[E|[]]]]]; inversion E; subst open_char close;
    unfold parse_cstr; cbv zeta;
    cbn [skip_blanks peek tl Ascii.eqb Bool.eqb negb andb];
    rewrite Hpm; destruct fs; cbn; destruct (n =? 0); reflexivity.
Qed.

Lemma parse_cstr_mismatch (open_char open' : ascii) (close close' body : cstr)
      (fs : list Z) (n : Z) :
  In (open_char, close) delimiters -> In (open', close') delimiters ->
  open' <> open_char ->
  parse_modes (S (length (body ++ close'))) (body ++ close') [] 0
  = Some (Ok (close', fs, n)) ->
  parse_cstr (open_char :: body ++ close')
  = Some (Throw (invalid_argument
                   "invalid fock state representation (bad close)")).
Proof.
  intros Hd Hd' Hne Hpm. remember (body ++ close') as str eqn:Es.
  cbn [In delimiters] in Hd, Hd'.
  destruct Hd as [E|[E|[E|[E|[]]]]]; inversion E; subst open_char close;
    destruct Hd' as [E'|[E'|[E'|[E'|[]]]]]; inversion E'; subst open' close';
    try congruence;
    unfold parse_cstr; cbv zeta;
    cbn [skip_blanks peek tl Ascii.eqb Bool.eqb negb andb];
    rewrite Hpm; destruct fs; reflexivity.
Qed.

(** X24.  After the counts of a text and their closing delimiter, blanks
    are accepted and any other character makes the parser throw (extra
    chars); the closing delimiter of another opening delimiter makes it
    throw (bad close). *)
Theorem X24_parse_after_counts (v : list Z) (open_char : ascii)
        (close tail : cstr) :
  Forall (fun x => 0 <= x) v -> In (open_char, close) delimiters ->
  (skip_blanks tail = [] ->
   _parse_str (string_of_list_ascii
                 (open_char :: join_fields (map show_int v) ++ close ++ tail))
   = Some (Ok (fockstate_of_vect v)))
  /\ (peek (skip_blanks tail) <> zero ->
      _parse_str (string_of_list_ascii
                    (open_char :: join_fields (map show_int v)
                               ++ close ++ tail))
      = Some (Throw (invalid_argument
                       "invalid fock state representation (extra chars)")))
  /\ (forall open' close',
        In (open', close') delimiters -> open' <> open_char ->
        _parse_str (string_of_list_ascii
                      (open_char :: join_fields (map show_int v) ++ close'))
        = Some (Throw (invalid_argument
                         "invalid fock state representation (bad close)"))).
Proof.
  intros Hv Hd. unfold _parse_str.
  rewrite !list_ascii_of_string_of_list_ascii.
  destruct (delimiters_close _ _ Hd) as (c & r & Ec & Hb & Ht).
  assert (Hpm := parse_modes_rendered v (close ++ tail) c (r ++ tail) Hv
                   ltac:(rewrite Ec; reflexivity) Hb Ht).
  rewrite (parse_cstr_tail open_char close _ tail v
             (sum_vect (length v) v) Hd Hpm).
  split; [|split].
  - intros Hblank. rewrite Hblank. cbn [peek Ascii.eqb Bool.eqb negb].
    unfold fockstate_of_vect.
    destruct (sum_vect (length v) v =? 0) eqn:E; cbn [negb]; [|reflexivity].
    apply Z.eqb_eq in E. rewrite E. reflexivity.
  - intros Hc. apply Ascii.eqb_neq in Hc. rewrite Hc. reflexivity.
  - intros open' close' Hd' Hne. rewrite list_ascii_of_string_of_list_ascii.
    destruct (delimiters_close _ _ Hd') as (c' & r' & Ec' & Hb' & Ht').
    apply (parse_cstr_mismatch open_char open' close close' _ v
             (sum_vect (length v) v) Hd Hd' Hne).
    exact (parse_modes_rendered v close' c' r' Hv Ec' Hb' Ht').
Qed.

(** ** The weight of a product *)

Lemma prod_fact_app_low (la lb : list Z) (d : Z) (k : nat) :
  Forall (fun c => 0 <= mode_index c) lb -> Z.of_nat k <= d ->
  prod_fact (la ++ map (fun c => c + d) lb) k = prod_fact la k.
Proof.
  intros Hb. rewrite Forall_forall in Hb. unfold mode_index in Hb.
  induction k as [|k IH]; intros Hk; [reflexivity|].
  cbn [prod_fact]. rewrite IH by lia. rewrite count_occ_app.
  replace (count_occ Z.eq_dec (map (fun c => c + d) lb)
                     (Z.of_nat k + chr_A)) with O;
    [now rewrite Nat.add_0_r|].
  symmetry. apply count_occ_not_In. intros Hin.
  apply in_map_iff in Hin as (c & E & Hin). specialize (Hb c Hin). lia.
Qed.

Lemma prod_fact_app (la lb : list Z) (ma mb : nat) :
  Forall (fun c => 0 <= mode_index c < Z.of_nat ma) la ->
  Forall (fun c => 0 <= mode_index c) lb ->
  prod_fact (la ++ map (fun c => c + Z.of_nat ma) lb) (ma + mb)
  = prod_fact la ma * prod_fact lb mb.
Proof.
  intros Ha Hb. induction mb as [|mb IH].
  - rewrite Nat.add_0_r, prod_fact_app_low by (trivial; lia).
    cbn [prod_fact]. lia.
  - rewrite Nat.add_succ_r. cbn [prod_fact]. rewrite IH, count_occ_app.
    replace (count_occ Z.eq_dec la (Z.of_nat (ma + mb) + chr_A)) with O.
    + cbn [Nat.add].
      replace (Z.of_nat (ma + mb) + chr_A)
        with (Z.of_nat mb + chr_A + Z.of_nat ma) by lia.
      rewrite count_occ_shift. ring.
    + symmetry. apply count_occ_not_In. intros Hin.
      rewrite Forall_forall in Ha. specialize (Ha _ Hin).
      unfold mode_index in Ha. lia.
Qed.

Lemma prodnfact_mul (a b : fockstate) (la lb : list Z) :
  _code a = Some la -> _code b = Some lb -> inv a -> inv b ->
  fits (_m a + _m b) ->
  exists p wa wb,
    operator_mul a b = Ok p /\ prodnfact a = Ok wa /\ prodnfact b = Ok wb
    /\ prodnfact p = Ok ((wa * wb) mod 2 ^ 64).
Proof.
  intros Ha Hb Ia Ib Hfit.
  pose proof (operator_mul_code a b la lb Ha Hb Ia Ib Hfit) as Hp.
  pose proof (inv_mul a b _ Ia Ib Hfit Hp) as Ip.
  destruct (inv_parts a la Ia Ha) as (Ca & Ra & Sa & Na & Ma).
  destruct (inv_parts b lb Ib Hb) as (Cb & Rb & Sb & Nb & Mb).
  eexists; eexists; eexists. split; [exact Hp|].
  split; [exact (prodnfact_code a la Ia Ha)|].
  split; [exact (prodnfact_code b lb Ib Hb)|].
  rewrite (prodnfact_code _ _ Ip eq_refl). cbn [_m]. f_equal.
  rewrite Z2Nat.inj_add by lia.
  replace (map (fun c => c + _m a) lb)
    with (map (fun c => c + Z.of_nat (Z.to_nat (_m a))) lb)
    by (apply map_ext; intros; lia).
  rewrite prod_fact_app.
  - unfold wrap64. apply Z.mul_mod. lia.
  - apply range_to_nat, Ra.
  - revert Rb. apply Forall_impl. intros; lia.
Qed.

(** X26.  The weight [prodnfact] of a tensor product of states with code
    that satisfy the invariants (the total mode count fitting the [char]
    codes) is the product of the weights of the factors, in the arithmetic
    of [unsigned long long]. *)
Theorem X26_product_weight (a b : fockstate) (la lb : list Z) :
  _code a = Some la -> _code b = Some lb -> inv a -> inv b ->
  fits (_m a + _m b) ->
  exists p wa wb,
    operator_mul a b = Ok p /\ prodnfact a = Ok wa /\ prodnfact b = Ok wb
    /\ prodnfact p = Ok ((wa * wb) mod 2 ^ 64).
Proof. exact (prodnfact_mul a b la lb). Qed.

End Model.

(** ** The text determines the state *)

Lemma to_str_injective (char_signed : bool) (a b : fockstate)
      (la lb : list Z) :
  inv char_signed a -> _code a = Some la ->
  inv char_signed b -> _code b = Some lb ->
  to_str a = to_str b -> a = b.
Proof.
  intros Ia Ha Ib Hb E.
  destruct (to_str_parse_code char_signed annotation_any a la Ia Ha)
    as (sa & Sa & Pa).
  destruct (to_str_parse_code char_signed annotation_any b lb Ib Hb)
    as (sb & Sb & Pb).
  rewrite Sa, Sb in E. injection E as ->. congruence.
Qed.

(** X25.  Two states with code that satisfy the invariants and have the
    same text are the same state, and [operator==] holds of them. *)
Theorem X25_text_determines_state (char_signed : bool) (a b : fockstate)
        (la lb : list Z) :
  inv char_signed a -> _code a = Some la ->
  inv char_signed b -> _code b = Some lb ->
  to_str a = to_str b -> a = b /\ operator_eq a b = true.
Proof.
  intros Ia Ha Ib Hb E.
  pose proof (to_str_injective char_signed a b la lb Ia Ha Ib Hb E) as ->.
  split; [reflexivity|apply operator_eq_refl].
Qed.

(** * Instances: the theorems at concrete states, and the inputs at which
      the claims of the specification fail *)

(** C1, at three modes and two particles (six states, then no code). *)
Lemma C1_witness :
  1 <= 3 /\ fits true 3 /\ 0 <= 2
  /\ inc_loop true 6 (fockstate_mn 3 2) = Ok (mk_fockstate 3 2 None).
Proof.
  assert (H1 : 1 <= 3) by lia.
  assert (H2 : fits true 3) by (unfold fits, CHAR_MAX; lia).
  assert (H3 : 0 <= 2) by lia.
  split; [exact H1|split; [exact H2|split; [exact H3|]]].
  exact (proj1 (C1_successor_enumeration true 3 2 H1 H2 H3)).
Defined.

(** C1 fails as stated: with 300 modes and one particle, [C(300, 299)] is
    300, and after 300 applications the state still has code (its only
    code wrapped around the [char] range), whatever the signedness. *)
Lemma C1_counterexample :
  binom (Z.to_nat (1 + 300 - 1)) (Z.to_nat (300 - 1)) = 300%nat
  /\ inc_loop true 300 (fockstate_mn 300 1)
     = Ok (mk_fockstate 300 1 (Some [109]))
  /\ inc_loop false 300 (fockstate_mn 300 1)
     = Ok (mk_fockstate 300 1 (Some [109])).
Proof.
  split; [exact (binom_succ_diag 299)|].
  split; vm_compute; reflexivity.
Qed.

(** C3, at two commas between [|] and [>]. *)
Lemma C3_witness :
  (1 <= 2)%nat /\ In ("|"%char, [">"%char]) delimiters
  /\ _parse_str true annotation_any "|,,>"
     = Some (Ok (mk_fockstate 3 0 None)).
Proof.
  assert (H1 : (1 <= 2)%nat) by lia.
  assert (H2 : In ("|"%char, [">"%char]) delimiters)
    by (right; right; left; reflexivity).
  split; [exact H1|split; [exact H2|]].
  exact (C3_comma_run true annotation_any 2 "|"%char [">"%char] H1 H2).
Defined.

(** C3 fails as stated: the text with two commas parses to three modes. *)
Lemma C3_counterexample :
  count_char ","%char "|,,>" = 2
  /\ exists s, _parse_str true annotation_any "|,,>" = Some (Ok s)
               /\ _code s = None
               /\ _m s <> count_char ","%char "|,,>".
Proof.
  split; [reflexivity|].
  exists (mk_fockstate 3 0 None). repeat split. discriminate.
Qed.



(** C6, on [|2,0,1>] and the modes 0 and 1. *)
Lemma C6_witness :
  inv true (mk_fockstate 3 3 (Some [65; 65; 67])) /\ 0 <= 0 < 2 /\ 2 <= 3
  /\ exists sl r,
       slice true (mk_fockstate 3 3 (Some [65; 65; 67])) 0 2 1 = Ok sl
       /\ set_slice true (mk_fockstate 3 3 (Some [65; 65; 67])) sl 0 2 = Ok r
       /\ r = mk_fockstate 3 3 (Some [65; 65; 67])
       /\ operator_eq r (mk_fockstate 3 3 (Some [65; 65; 67])) = true.
Proof.
  assert (Hi : inv true (mk_fockstate 3 3 (Some [65; 65; 67])))
    by (apply invb_sound; reflexivity).
  assert (H1 : 0 <= 0 < 2) by lia.
  assert (H2 : 2 <= 3) by lia.
  split; [exact Hi|split; [exact H1|split; [exact H2|]]].
  exact (C6_slice_set_slice true (mk_fockstate 3 3 (Some [65; 65; 67]))
                            [65; 65; 67] 0 2 eq_refl Hi H1 H2).
Defined.

(** C6 fails as stated.  Where [char] is signed, the state built from the
    occupation vector of 64 modes with one particle in each of the modes 62
    and 63 holds the codes 127 and -128 (the code 128 of mode 63 wrapped
    around).  The slice of the modes 62 and 63 sees one particle only, and
    writing it back returns a state of two particles with a single code
    written, which is not the state.  Where [char] is unsigned the same
    happens with 192 modes and the modes 190 and 191. *)
Lemma C6_counterexample :
  (fockstate_of_vect true (repeat 0 62 ++ [1; 1])
   = mk_fockstate 64 2 (Some [127; -128])
   /\ 0 <= 62 < 64 /\ 64 <= 64
   /\ slice true (mk_fockstate 64 2 (Some [127; -128])) 62 64 1
      = Ok (mk_fockstate 2 1 (Some [65]))
   /\ set_slice true (mk_fockstate 64 2 (Some [127; -128]))
                     (mk_fockstate 2 1 (Some [65])) 62 64
      = Ok (mk_fockstate 64 2 (Some [127]))
   /\ mk_fockstate 64 2 (Some [127])
      <> mk_fockstate 64 2 (Some [127; -128]))
  /\ (fockstate_of_vect false (repeat 0 190 ++ [1; 1])
      = mk_fockstate 192 2 (Some [255; 0])
      /\ 0 <= 190 < 192 /\ 192 <= 192
      /\ slice false (mk_fockstate 192 2 (Some [255; 0])) 190 192 1
         = Ok (mk_fockstate 2 1 (Some [65]))
      /\ set_slice false (mk_fockstate 192 2 (Some [255; 0]))
                          (mk_fockstate 2 1 (Some [65])) 190 192
         = Ok (mk_fockstate 192 2 (Some [255]))
      /\ mk_fockstate 192 2 (Some [255])
         <> mk_fockstate 192 2 (Some [255; 0])).
Proof.
  split.
  - split; [vm_compute; reflexivity|]. split; [lia|]. split; [lia|].
    split; [vm_compute; reflexivity|]. split; [vm_compute; reflexivity|].
    discriminate.
  - split; [vm_compute; reflexivity|]. split; [lia|]. split; [lia|].
    split; [vm_compute; reflexivity|]. split; [vm_compute; reflexivity|].
    discriminate.
Qed.

(** C7, on [|1,1>] and [|0,2>] within the [char] range, and on the state
    of 200 modes with [|0,...,1,...>] of 63 modes beyond it. *)
Lemma C7_witness :
  inv true (mk_fockstate 2 2 (Some [65; 66]))
  /\ inv true (mk_fockstate 2 2 (Some [66; 66]))
  /\ fits true (2 + 2)
  /\ operator_mul true (mk_fockstate 2 2 (Some [65; 66]))
                       (mk_fockstate 2 2 (Some [66; 66]))
     = Ok (mk_fockstate 4 4 (Some [65; 66; 68; 68]))
  /\ inv true (fockstate_m 200)
  /\ inv true (mk_fockstate 63 1 (Some [120]))
  /\ operator_mul true (fockstate_m 200) (mk_fockstate 63 1 (Some [120]))
     = Ok (mk_fockstate (200 + 63) (0 + 1)
             (Some ([] ++ map (fun c => to_char true (c + 200)) [120]))).
Proof.
  assert (Ha : inv true (mk_fockstate 2 2 (Some [65; 66])))
    by (apply invb_sound; reflexivity).
  assert (Hb : inv true (mk_fockstate 2 2 (Some [66; 66])))
    by (apply invb_sound; reflexivity).
  assert (Hf : fits true (2 + 2)) by (unfold fits, CHAR_MAX; lia).
  assert (Hc : inv true (fockstate_m 200))
    by (apply invb_sound; reflexivity).
  assert (Hd : inv true (mk_fockstate 63 1 (Some [120])))
    by (apply invb_sound; reflexivity).
  split; [exact Ha|split; [exact Hb|split; [exact Hf|]]].
  split.
  - exact (proj1 (proj2 (proj2 (C7_tensor_product true)))
                 (mk_fockstate 2 2 (Some [65; 66]))
                 (mk_fockstate 2 2 (Some [66; 66]))
                 [65; 66] [66; 66] eq_refl eq_refl Ha Hb Hf).
  - split; [exact Hc|split; [exact Hd|]].
    exact (proj1 (proj2 (C7_tensor_product true))
                 (fockstate_m 200) (mk_fockstate 63 1 (Some [120]))
                 [] [120] eq_refl eq_refl Hc Hd).
Defined.

(** C7 fails as stated: the product of the empty state of 200 modes with
    a state of 63 modes holding one particle in mode 55 puts that particle
    at code 64, not at code 120 + 200, whatever the signedness. *)
Lemma C7_counterexample :
  inv true (fockstate_m 200) /\ inv false (fockstate_m 200)
  /\ inv true (mk_fockstate 63 1 (Some [120]))
  /\ inv false (mk_fockstate 63 1 (Some [120]))
  /\ operator_mul true (fockstate_m 200) (mk_fockstate 63 1 (Some [120]))
     = Ok (mk_fockstate 263 1 (Some [64]))
  /\ operator_mul false (fockstate_m 200) (mk_fockstate 63 1 (Some [120]))
     = Ok (mk_fockstate 263 1 (Some [64]))
  /\ [64] <> [] ++ map (fun c => c + 200) [120].
Proof.
  split; [apply invb_sound; reflexivity|].
  split; [apply invb_sound; reflexivity|].
  split; [apply invb_sound; reflexivity|].
  split; [apply invb_sound; reflexivity|].
  split; [reflexivity|]. split; [reflexivity|]. discriminate.
Qed.

(** C8, on the product of [|1>] with itself. *)
Lemma C8_witness :
  inv true (mk_fockstate 1 1 (Some [65])) /\ fits true (1 + 1)
  /\ inv true (mk_fockstate 2 2 (Some [65; 66])).
Proof.
  assert (Ha : inv true (mk_fockstate 1 1 (Some [65])))
    by (apply invb_sound; reflexivity).
  assert (Hf : fits true (1 + 1)) by (unfold fits, CHAR_MAX; lia).
  split; [exact Ha|split; [exact Hf|]].
  destruct (C8_invariants_preserved true annotation_any)
    as (_ & _ & _ & Hmul & _).
  exact (Hmul (mk_fockstate 1 1 (Some [65])) (mk_fockstate 1 1 (Some [65]))
              (mk_fockstate 2 2 (Some [65; 66])) Ha Ha Hf eq_refl).
Defined.

(** C8 fails as stated.  The product of two states that satisfy the
    invariants can hold a particle with a negative mode index; and the
    state the successor leaves on exhaustion has no particle but a
    particle count of 1. *)
Lemma C8_counterexample :
  (inv true (fockstate_m 200)
   /\ inv true (mk_fockstate 63 1 (Some [120]))
   /\ operator_mul true (fockstate_m 200) (mk_fockstate 63 1 (Some [120]))
      = Ok (mk_fockstate 263 1 (Some [64]))
   /\ mode_index 64 = -1
   /\ ~ inv true (mk_fockstate 263 1 (Some [64])))
  /\ (inv false (fockstate_m 200)
      /\ inv false (mk_fockstate 63 1 (Some [120]))
      /\ operator_mul false (fockstate_m 200)
                      (mk_fockstate 63 1 (Some [120]))
         = Ok (mk_fockstate 263 1 (Some [64]))
      /\ ~ inv false (mk_fockstate 263 1 (Some [64])))
  /\ (inv true (mk_fockstate 1 1 (Some [65]))
      /\ operator_inc true (mk_fockstate 1 1 (Some [65]))
         = Ok (mk_fockstate 1 1 None)
      /\ particles (mk_fockstate 1 1 None) = []
      /\ ~ inv true (mk_fockstate 1 1 None)).
Proof.
  assert (Hbad : forall cs, ~ inv cs (mk_fockstate 263 1 (Some [64]))).
  { intros cs [_ Hr _ _ _]. cbn [particles _code _m] in Hr.
    inversion Hr as [|? ? Hx _]; subst. unfold mode_index, chr_A in Hx. lia. }
  split; [|split].
  - split; [apply invb_sound; reflexivity|].
    split; [apply invb_sound; reflexivity|].
    split; [reflexivity|]. split; [reflexivity|apply Hbad].
  - split; [apply invb_sound; reflexivity|].
    split; [apply invb_sound; reflexivity|].
    split; [reflexivity|apply Hbad].
  - split; [apply invb_sound; reflexivity|].
    split; [reflexivity|]. split; [reflexivity|].
    intros [_ _ _ Hc _]. cbn in Hc. discriminate.
Qed.

(** C9, on the state of two modes with both particles in the last one. *)
Lemma C9_witness :
  0 < _n (mk_fockstate 2 2 (Some [66; 66]))
  /\ operator_inc true (mk_fockstate 2 2 (Some [66; 66]))
     = Ok (mk_fockstate 2 2 None).
Proof.
  split; [reflexivity|].
  apply (C9_exhaustion_keeps_counts true (mk_fockstate 2 2 (Some [66; 66]))
                                    [66; 66] eq_refl).
  intros [|[|i]] Hi; [reflexivity|reflexivity|]. cbn in Hi. lia.
Defined.

(** C10, on the default state and the state of no mode. *)
Lemma C10_witness : operator_eq fockstate_default (fockstate_m 0) = true.
Proof.
  exact (C10_eq_no_mode fockstate_default (fockstate_m 0)
                        eq_refl eq_refl eq_refl eq_refl).
Defined.

(** * Instances of the further properties *)

(** X3, on [|1,0,1>]. *)
Lemma X3_witness :
  inv true (mk_fockstate 3 2 (Some [65; 67]))
  /\ (forall idx, 0 <= idx < 3 ->
        operator_index (mk_fockstate 3 2 (Some [65; 67])) idx
        = Ok (Z.of_nat (count_occ Z.eq_dec [65; 67] (idx + chr_A))))
  /\ (forall idx, idx < 0 \/ 3 <= idx ->
        operator_index (mk_fockstate 3 2 (Some [65; 67])) idx
        = Throw (out_of_range "invalid mode")).
Proof.
  assert (Hi : inv true (mk_fockstate 3 2 (Some [65; 67])))
    by (apply invb_sound; reflexivity).
  split; [exact Hi|].
  exact (X3_index_is_occupation true (mk_fockstate 3 2 (Some [65; 67]))
                                [65; 67] Hi eq_refl).
Defined.

(** X4, on [|1,0,1>]. *)
Lemma X4_witness :
  inv true (mk_fockstate 3 2 (Some [65; 67]))
  /\ exists v, to_vect (mk_fockstate 3 2 (Some [65; 67])) = Ok v
       /\ Z.of_nat (length v) = 3
       /\ (forall idx, 0 <= idx < 3 ->
             operator_index (mk_fockstate 3 2 (Some [65; 67])) idx
             = Ok (nth (Z.to_nat idx) v 0))
       /\ sum_vect (length v) v = 2.
Proof.
  assert (Hi : inv true (mk_fockstate 3 2 (Some [65; 67])))
    by (apply invb_sound; reflexivity).
  split; [exact Hi|].
  exact (X4_to_vect_occupations true (mk_fockstate 3 2 (Some [65; 67]))
                                [65; 67] Hi eq_refl).
Defined.

(** X5, on the vector [1, 0, 1]. *)
Lemma X5_witness :
  Forall (fun c => 0 <= c) [1; 0; 1]
  /\ fits true (Z.of_nat (length [1; 0; 1]))
  /\ to_vect (fockstate_of_vect true [1; 0; 1]) = Ok [1; 0; 1].
Proof.
  assert (Hv : Forall (fun c => 0 <= c) [1; 0; 1])
    by (repeat constructor; lia).
  assert (Hf : fits true (Z.of_nat (length [1; 0; 1])))
    by (unfold fits, CHAR_MAX; simpl; lia).
  split; [exact Hv|split; [exact Hf|]].
  exact (X5_to_vect_of_vect true [1; 0; 1] Hv Hf).
Defined.

(** X6, on [|1,0,1>]. *)
Lemma X6_witness :
  inv true (mk_fockstate 3 2 (Some [65; 67]))
  /\ exists v, to_vect (mk_fockstate 3 2 (Some [65; 67])) = Ok v
       /\ fockstate_of_vect true v = mk_fockstate 3 2 (Some [65; 67]).
Proof.
  assert (Hi : inv true (mk_fockstate 3 2 (Some [65; 67])))
    by (apply invb_sound; reflexivity).
  split; [exact Hi|].
  exact (X6_of_vect_to_vect true (mk_fockstate 3 2 (Some [65; 67]))
                            [65; 67] Hi eq_refl).
Defined.

(** X7, on the vector [1, 0, 12] between [|] and [>]. *)
Lemma X7_witness :
  Forall (fun x => 0 <= x) [1; 0; 12]
  /\ In ("|"%char, [">"%char]) delimiters
  /\ _parse_str true annotation_any
       (string_of_list_ascii
          ("|"%char :: join_fields (map show_int [1; 0; 12]) ++ [">"%char]))
     = Some (Ok (fockstate_of_vect true [1; 0; 12])).
Proof.
  assert (Hv : Forall (fun x => 0 <= x) [1; 0; 12])
    by (repeat constructor; lia).
  assert (Hd : In ("|"%char, [">"%char]) delimiters)
    by (right; right; left; reflexivity).
  split; [exact Hv|split; [exact Hd|]].
  exact (X7_parse_agrees_with_vector true annotation_any [1; 0; 12]
                                     "|"%char [">"%char] Hv Hd).
Defined.

(** X8, on [|1,0,1>]. *)
Lemma X8_witness :
  inv true (mk_fockstate 3 2 (Some [65; 67]))
  /\ exists str, to_str (mk_fockstate 3 2 (Some [65; 67])) = Ok str
       /\ _parse_str true annotation_any str
          = Some (Ok (mk_fockstate 3 2 (Some [65; 67]))).
Proof.
  assert (Hi : inv true (mk_fockstate 3 2 (Some [65; 67])))
    by (apply invb_sound; reflexivity).
  split; [exact Hi|].
  exact (X8_to_str_parse true annotation_any
                         (mk_fockstate 3 2 (Some [65; 67])) [65; 67]
                         Hi eq_refl).
Defined.

(** X9, on the state without code of three modes. *)
Lemma X9_witness :
  _code (mk_fockstate 3 0 None) = None
  /\ to_str (mk_fockstate 3 0 None) = Ok "|,,>"%string
  /\ (2 <= 3 ->
      _parse_str true annotation_any "|,,>"
      = Some (Ok (mk_fockstate 3 0 None)))
  /\ (3 <= 1 ->
      to_str (mk_fockstate 3 0 None) = Ok "|>"%string
      /\ _parse_str true annotation_any "|>"
         = Some (Ok (mk_fockstate 0 0 (Some [])))).
Proof.
  split; [reflexivity|].
  exact (X9_to_str_parse_no_code true annotation_any
                                 (mk_fockstate 3 0 None) eq_refl).
Defined.

(** X10, on the default state and the state with code of no mode, with
    the length of the text as hash. *)
Lemma X10_witness :
  inv true fockstate_default /\ inv true (fockstate_m 0)
  /\ operator_eq fockstate_default (fockstate_m 0) = true
  /\ to_str fockstate_default = to_str (fockstate_m 0)
  /\ hash (fun str => Z.of_nat (String.length str)) fockstate_default
     = hash (fun str => Z.of_nat (String.length str)) (fockstate_m 0).
Proof.
  assert (Ha : inv true fockstate_default)
    by (apply invb_sound; reflexivity).
  assert (Hb : inv true (fockstate_m 0)) by (apply invb_sound; reflexivity).
  assert (He : operator_eq fockstate_default (fockstate_m 0) = true)
    by reflexivity.
  split; [exact Ha|split; [exact Hb|split; [exact He|]]].
  exact (X10_hash_respects_equality true
           (fun str => Z.of_nat (String.length str))
           fockstate_default (fockstate_m 0) Ha Hb He).
Defined.

(** X11, on [|2,0,1>]. *)
Lemma X11_witness :
  inv true (mk_fockstate 3 3 (Some [65; 65; 67]))
  /\ prodnfact (mk_fockstate 3 3 (Some [65; 65; 67]))
     = Ok (prod_fact [65; 65; 67] (Z.to_nat 3) mod 2 ^ 64).
Proof.
  assert (Hi : inv true (mk_fockstate 3 3 (Some [65; 65; 67])))
    by (apply invb_sound; reflexivity).
  split; [exact Hi|].
  exact (X11_prodnfact_factorials true (mk_fockstate 3 3 (Some [65; 65; 67]))
                                  [65; 65; 67] Hi eq_refl).
Defined.

(** X12, on three particles in the first of two modes. *)
Lemma X12_witness :
  1 <= 2 /\ 0 <= 3
  /\ prodnfact (fockstate_mn 2 3)
     = Ok (Z.of_nat (fact (Z.to_nat 3)) mod 2 ^ 64).
Proof.
  assert (H1 : 1 <= 2) by lia.
  assert (H2 : 0 <= 3) by lia.
  split; [exact H1|split; [exact H2|]].
  exact (proj1 (X12_prodnfact_cases true) 2 3 H1 H2).
Defined.

(** X13, on [|1,0>] with [a = 1] and [b = 1]. *)
Lemma X13_witness :
  inv true (mk_fockstate 2 1 (Some [65])) /\ fits true 2 /\ (1 <= 1)%nat
  /\ operator_plus true (mk_fockstate 2 1 (Some [65])) (1 + 1)
     = (s' <- operator_plus true (mk_fockstate 2 1 (Some [65])) 1 ;;
        operator_plus true s' 1)
  /\ (forall t c d,
        operator_plus_assign true t (c + d)
        = (t' <- operator_plus_assign true t c ;;
           operator_plus_assign true t' d)).
Proof.
  assert (Hi : inv true (mk_fockstate 2 1 (Some [65])))
    by (apply invb_sound; reflexivity).
  assert (Hf : fits true 2) by (unfold fits, CHAR_MAX; lia).
  assert (Hb : (1 <= 1)%nat) by lia.
  split; [exact Hi|split; [exact Hf|split; [exact Hb|]]].
  exact (X13_plus_composition true (mk_fockstate 2 1 (Some [65])) 1 1
                              Hi Hf Hb).
Defined.

(** X14, at three modes and two particles, for the count 7. *)
Lemma X14_witness :
  1 <= 3 /\ fits true 3 /\ 0 <= 2
  /\ (let K := binom (Z.to_nat (2 + 3 - 1)) (Z.to_nat (3 - 1)) in
      ((7 < K)%nat ->
       exists l, operator_plus true (fockstate_mn 3 2) 7
                 = Ok (mk_fockstate 3 2 (Some l)))
      /\ (7%nat = K ->
          operator_plus true (fockstate_mn 3 2) 7
          = Ok (mk_fockstate 3 2 None))
      /\ ((K < 7)%nat ->
          operator_plus true (fockstate_mn 3 2) 7 = Throw ndef_error)).
Proof.
  assert (H1 : 1 <= 3) by lia.
  assert (H2 : fits true 3) by (unfold fits, CHAR_MAX; lia).
  assert (H3 : 0 <= 2) by lia.
  split; [exact H1|split; [exact H2|split; [exact H3|]]].
  exact (X14_plus_range true 3 2 7 H1 H2 H3).
Defined.

(** X15, on [|1,0,1,0,1>] with every second mode. *)
Lemma X15_witness :
  inv true (mk_fockstate 5 3 (Some [65; 67; 69]))
  /\ 0 <= 0 <= 5 /\ 5 <= 5 /\ 1 <= 2
  /\ exists r,
       slice true (mk_fockstate 5 3 (Some [65; 67; 69])) 0 5 2 = Ok r
       /\ _m r = (5 - 0 + 2 - 1) / 2
       /\ forall j, 0 <= j < _m r ->
            operator_index r j
            = operator_index (mk_fockstate 5 3 (Some [65; 67; 69]))
                             (0 + j * 2).
Proof.
  assert (Hi : inv true (mk_fockstate 5 3 (Some [65; 67; 69])))
    by (apply invb_sound; reflexivity).
  assert (H1 : 0 <= 0 <= 5) by lia.
  assert (H2 : 5 <= 5) by lia.
  assert (H3 : 1 <= 2) by lia.
  split; [exact Hi|split; [exact H1|split; [exact H2|split; [exact H3|]]]].
  exact (X15_slice_occupations true (mk_fockstate 5 3 (Some [65; 67; 69]))
                               [65; 67; 69] 0 5 2 Hi eq_refl H1 H2 H3).
Defined.

(** X16, on [|1,0,1>] cut after the first mode. *)
Lemma X16_witness :
  inv true (mk_fockstate 3 2 (Some [65; 67])) /\ 0 <= 1 <= 3
  /\ exists a b,
       slice true (mk_fockstate 3 2 (Some [65; 67])) 0 1 1 = Ok a
       /\ slice true (mk_fockstate 3 2 (Some [65; 67])) 1 3 1 = Ok b
       /\ operator_mul true a b = Ok (mk_fockstate 3 2 (Some [65; 67])).
Proof.
  assert (Hi : inv true (mk_fockstate 3 2 (Some [65; 67])))
    by (apply invb_sound; reflexivity).
  assert (Hk : 0 <= 1 <= 3) by lia.
  split; [exact Hi|split; [exact Hk|]].
  exact (X16_slices_multiply_back true (mk_fockstate 3 2 (Some [65; 67]))
                                  [65; 67] 1 Hi eq_refl Hk).
Defined.

(** X17, on [|1,1>] and [|0,2>]. *)
Lemma X17_witness :
  inv true (mk_fockstate 2 2 (Some [65; 66]))
  /\ inv true (mk_fockstate 2 2 (Some [66; 66]))
  /\ fits true (2 + 2)
  /\ exists p,
       operator_mul true (mk_fockstate 2 2 (Some [65; 66]))
                         (mk_fockstate 2 2 (Some [66; 66])) = Ok p
       /\ slice true p 0 2 1 = Ok (mk_fockstate 2 2 (Some [65; 66]))
       /\ slice true p 2 (2 + 2) 1 = Ok (mk_fockstate 2 2 (Some [66; 66])).
Proof.
  assert (Ha : inv true (mk_fockstate 2 2 (Some [65; 66])))
    by (apply invb_sound; reflexivity).
  assert (Hb : inv true (mk_fockstate 2 2 (Some [66; 66])))
    by (apply invb_sound; reflexivity).
  assert (Hf : fits true (2 + 2)) by (unfold fits, CHAR_MAX; lia).
  split; [exact Ha|split; [exact Hb|split; [exact Hf|]]].
  exact (X17_product_slices true (mk_fockstate 2 2 (Some [65; 66]))
                            (mk_fockstate 2 2 (Some [66; 66]))
                            [65; 66] [66; 66] eq_refl eq_refl Ha Hb Hf).
Defined.

(** X18, on [|1,1>] and [|0,2>]. *)
Lemma X18_witness :
  inv true (mk_fockstate 2 2 (Some [65; 66]))
  /\ inv true (mk_fockstate 2 2 (Some [66; 66]))
  /\ fits true (2 + 2)
  /\ exists p va vb,
       operator_mul true (mk_fockstate 2 2 (Some [65; 66]))
                         (mk_fockstate 2 2 (Some [66; 66])) = Ok p
       /\ to_vect (mk_fockstate 2 2 (Some [65; 66])) = Ok va
       /\ to_vect (mk_fockstate 2 2 (Some [66; 66])) = Ok vb
       /\ to_vect p = Ok (va ++ vb).
Proof.
  assert (Ha : inv true (mk_fockstate 2 2 (Some [65; 66])))
    by (apply invb_sound; reflexivity).
  assert (Hb : inv true (mk_fockstate 2 2 (Some [66; 66])))
    by (apply invb_sound; reflexivity).
  assert (Hf : fits true (2 + 2)) by (unfold fits, CHAR_MAX; lia).
  split; [exact Ha|split; [exact Hb|split; [exact Hf|]]].
  exact (X18_product_vector true (mk_fockstate 2 2 (Some [65; 66]))
                            (mk_fockstate 2 2 (Some [66; 66]))
                            [65; 66] [66; 66] eq_refl eq_refl Ha Hb Hf).
Defined.

(** X19, on [|1,1>], [|0,2>] and [|1>]; the unit law on a state of 100
    modes with one particle in mode 0. *)
Lemma X19_witness :
  inv true (mk_fockstate 2 2 (Some [65; 66]))
  /\ inv true (mk_fockstate 2 2 (Some [66; 66]))
  /\ inv true (mk_fockstate 1 1 (Some [65]))
  /\ fits true (2 + 2 + 1)
  /\ (exists r,
        (p <- operator_mul true (mk_fockstate 2 2 (Some [65; 66]))
                                (mk_fockstate 2 2 (Some [66; 66])) ;;
         operator_mul true p (mk_fockstate 1 1 (Some [65]))) = Ok r
        /\ (q <- operator_mul true (mk_fockstate 2 2 (Some [66; 66]))
                                   (mk_fockstate 1 1 (Some [65])) ;;
            operator_mul true (mk_fockstate 2 2 (Some [65; 66])) q) = Ok r)
  /\ inv true (mk_fockstate 100 1 (Some [65]))
  /\ operator_mul true (mk_fockstate 100 1 (Some [65])) (fockstate_m 0)
     = Ok (mk_fockstate 100 1 (Some [65]))
  /\ operator_mul true (fockstate_m 0) (mk_fockstate 100 1 (Some [65]))
     = Ok (mk_fockstate 100 1 (Some [65])).
Proof.
  assert (Ha : inv true (mk_fockstate 2 2 (Some [65; 66])))
    by (apply invb_sound; reflexivity).
  assert (Hb : inv true (mk_fockstate 2 2 (Some [66; 66])))
    by (apply invb_sound; reflexivity).
  assert (Hc : inv true (mk_fockstate 1 1 (Some [65])))
    by (apply invb_sound; reflexivity).
  assert (Hf : fits true (2 + 2 + 1)) by (unfold fits, CHAR_MAX; lia).
  assert (Hu : inv true (mk_fockstate 100 1 (Some [65])))
    by (apply invb_sound; reflexivity).
  split; [exact Ha|split; [exact Hb|split; [exact Hc|split; [exact Hf|]]]].
  split.
  - exact (proj1 (X19_product_monoid true)
                 (mk_fockstate 2 2 (Some [65; 66]))
                 (mk_fockstate 2 2 (Some [66; 66]))
                 (mk_fockstate 1 1 (Some [65]))
                 [65; 66] [66; 66] [65]
                 eq_refl eq_refl eq_refl Ha Hb Hc Hf).
  - split; [exact Hu|].
    exact (proj2 (X19_product_monoid true)
                 (mk_fockstate 100 1 (Some [65])) [65] eq_refl Hu).
Defined.

(** X20, writing [|0,1>] over the first two modes of [|2,0,1>]. *)
Lemma X20_witness :
  inv true (mk_fockstate 3 3 (Some [65; 65; 67]))
  /\ inv true (mk_fockstate 2 1 (Some [66]))
  /\ 0 <= 0 <= 2 /\ 2 <= 3 /\ 2 = 2 - 0 /\ fits true 3
  /\ exists r,
       set_slice true (mk_fockstate 3 3 (Some [65; 65; 67]))
                      (mk_fockstate 2 1 (Some [66])) 0 2 = Ok r
       /\ _m r = 3
       /\ (forall idx, 0 <= idx < 2 ->
             operator_index r idx
             = operator_index (mk_fockstate 2 1 (Some [66])) (idx - 0))
       /\ (forall idx, 0 <= idx < 0 \/ 2 <= idx < 3 ->
             operator_index r idx
             = operator_index (mk_fockstate 3 3 (Some [65; 65; 67])) idx).
Proof.
  assert (Hs : inv true (mk_fockstate 3 3 (Some [65; 65; 67])))
    by (apply invb_sound; reflexivity).
  assert (Hfs : inv true (mk_fockstate 2 1 (Some [66])))
    by (apply invb_sound; reflexivity).
  assert (H1 : 0 <= 0 <= 2) by lia.
  assert (H2 : 2 <= 3) by lia.
  assert (H3 : 2 = 2 - 0) by reflexivity.
  assert (Hf : fits true 3) by (unfold fits, CHAR_MAX; lia).
  split; [exact Hs|split; [exact Hfs|split; [exact H1|split; [exact H2|
    split; [exact H3|split; [exact Hf|]]]]]].
  exact (X20_set_slice_occupations true
           (mk_fockstate 3 3 (Some [65; 65; 67]))
           (mk_fockstate 2 1 (Some [66])) [65; 65; 67] [66] 0 2
           Hs eq_refl Hfs eq_refl H1 H2 H3 Hf).
Defined.

(** X21, writing [|0,1>] over the first two modes of [|2,0,1>]. *)
Lemma X21_witness :
  inv true (mk_fockstate 3 3 (Some [65; 65; 67]))
  /\ 0 <= 0 <= 2 /\ 2 <= 3
  /\ (forall fl, inv true (mk_fockstate 2 1 (Some [66])) ->
        _code (mk_fockstate 2 1 (Some [66])) = Some fl ->
        2 = 2 - 0 -> fits true 3 ->
        exists r,
          set_slice true (mk_fockstate 3 3 (Some [65; 65; 67]))
                         (mk_fockstate 2 1 (Some [66])) 0 2 = Ok r
          /\ slice true r 0 2 1 = Ok (mk_fockstate 2 1 (Some [66])))
  /\ (2 <> 2 - 0 ->
      set_slice true (mk_fockstate 3 3 (Some [65; 65; 67]))
                     (mk_fockstate 2 1 (Some [66])) 0 2
      = Throw (invalid_argument "invalid fockstate to replace in slice")).
Proof.
  assert (Hs : inv true (mk_fockstate 3 3 (Some [65; 65; 67])))
    by (apply invb_sound; reflexivity).
  assert (H1 : 0 <= 0 <= 2) by lia.
  assert (H2 : 2 <= 3) by lia.
  split; [exact Hs|split; [exact H1|split; [exact H2|]]].
  exact (X21_set_slice_then_slice true
           (mk_fockstate 3 3 (Some [65; 65; 67]))
           (mk_fockstate 2 1 (Some [66])) [65; 65; 67] 0 2
           Hs eq_refl H1 H2).
Defined.


(** X23, on [|1,0,1>]. *)
Lemma X23_witness :
  0 <= 3
  /\ (- 3 <= -1 < 0 ->
      slice true (mk_fockstate 3 2 (Some [65; 67])) (-1) 5 1
      = slice true (mk_fockstate 3 2 (Some [65; 67])) (-1 + 3) 5 1)
  /\ (-1 < - 3 ->
      slice true (mk_fockstate 3 2 (Some [65; 67])) (-1) 5 1
      = slice true (mk_fockstate 3 2 (Some [65; 67])) 0 5 1)
  /\ (- 3 <= 5 < 0 ->
      slice true (mk_fockstate 3 2 (Some [65; 67])) (-1) 5 1
      = slice true (mk_fockstate 3 2 (Some [65; 67])) (-1) (5 + 3) 1)
  /\ (5 < - 3 ->
      slice true (mk_fockstate 3 2 (Some [65; 67])) (-1) 5 1
      = slice true (mk_fockstate 3 2 (Some [65; 67])) (-1) 0 1)
  /\ (3 <= 5 ->
      slice true (mk_fockstate 3 2 (Some [65; 67])) (-1) 5 1
      = slice true (mk_fockstate 3 2 (Some [65; 67])) (-1) 3 1).
Proof.
  assert (Hm : 0 <= 3) by lia.
  split; [exact Hm|].
  exact (X23_slice_positions true (mk_fockstate 3 2 (Some [65; 67]))
                             (-1) 5 1 Hm).
Defined.

(** X24, on the vector [1, 0] between [[] and []], followed by a blank. *)
Lemma X24_witness :
  Forall (fun x => 0 <= x) [1; 0]
  /\ In ("["%char, ["]"%char]) delimiters
  /\ (skip_blanks [" "%char] = [] ->
      _parse_str true annotation_any
        (string_of_list_ascii
           ("["%char :: join_fields (map show_int [1; 0])
                     ++ ["]"%char] ++ [" "%char]))
      = Some (Ok (fockstate_of_vect true [1; 0])))
  /\ (peek (skip_blanks [" "%char]) <> zero ->
      _parse_str true annotation_any
        (string_of_list_ascii
           ("["%char :: join_fields (map show_int [1; 0])
                     ++ ["]"%char] ++ [" "%char]))
      = Some (Throw (invalid_argument
                       "invalid fock state representation (extra chars)")))
  /\ (forall open' close',
        In (open', close') delimiters -> open' <> "["%char ->
        _parse_str true annotation_any
          (string_of_list_ascii
             ("["%char :: join_fields (map show_int [1; 0]) ++ close'))
        = Some (Throw (invalid_argument
                         "invalid fock state representation (bad close)"))).
Proof.
  assert (Hv : Forall (fun x => 0 <= x) [1; 0])
    by (repeat constructor; lia).
  assert (Hd : In ("["%char, ["]"%char]) delimiters)
    by (left; reflexivity).
  split; [exact Hv|split; [exact Hd|]].
  exact (X24_parse_after_counts true annotation_any [1; 0] "["%char
                                ["]"%char] [" "%char] Hv Hd).
Defined.

(** X25, on [|1,0,1>] and the state built from the vector [1, 0, 1]. *)
Lemma X25_witness :
  inv true (mk_fockstate 3 2 (Some [65; 67]))
  /\ inv true (fockstate_of_vect true [1; 0; 1])
  /\ to_str (mk_fockstate 3 2 (Some [65; 67]))
     = to_str (fockstate_of_vect true [1; 0; 1])
  /\ mk_fockstate 3 2 (Some [65; 67]) = fockstate_of_vect true [1; 0; 1]
  /\ operator_eq (mk_fockstate 3 2 (Some [65; 67]))
                 (fockstate_of_vect true [1; 0; 1]) = true.
Proof.
  assert (Ha : inv true (mk_fockstate 3 2 (Some [65; 67])))
    by (apply invb_sound; reflexivity).
  assert (Hb : inv true (fockstate_of_vect true [1; 0; 1]))
    by (apply invb_sound; reflexivity).
  assert (He : to_str (mk_fockstate 3 2 (Some [65; 67]))
               = to_str (fockstate_of_vect true [1; 0; 1]))
    by reflexivity.
  split; [exact Ha|split; [exact Hb|split; [exact He|]]].
  exact (X25_text_determines_state true (mk_fockstate 3 2 (Some [65; 67]))
           (fockstate_of_vect true [1; 0; 1]) [65; 67] [65; 67]
           Ha eq_refl Hb eq_refl He).
Defined.

(** X26, on [|2,0>] and [|3>]. *)
Lemma X26_witness :
  inv true (mk_fockstate 2 2 (Some [65; 65]))
  /\ inv true (mk_fockstate 1 3 (Some [65; 65; 65]))
  /\ fits true (2 + 1)
  /\ exists p wa wb,
       operator_mul true (mk_fockstate 2 2 (Some [65; 65]))
                         (mk_fockstate 1 3 (Some [65; 65; 65])) = Ok p
       /\ prodnfact (mk_fockstate 2 2 (Some [65; 65])) = Ok wa
       /\ prodnfact (mk_fockstate 1 3 (Some [65; 65; 65])) = Ok wb
       /\ prodnfact p = Ok ((wa * wb) mod 2 ^ 64).
Proof.
  assert (Ha : inv true (mk_fockstate 2 2 (Some [65; 65])))
    by (apply invb_sound; reflexivity).
  assert (Hb : inv true (mk_fockstate 1 3 (Some [65; 65; 65])))
    by (apply invb_sound; reflexivity).
  assert (Hf : fits true (2 + 1)) by (unfold fits, CHAR_MAX; lia).
  split; [exact Ha|split; [exact Hb|split; [exact Hf|]]].
  exact (X26_product_weight true (mk_fockstate 2 2 (Some [65; 65]))
                            (mk_fockstate 1 3 (Some [65; 65; 65]))
                            [65; 65] [65; 65; 65]
                            eq_refl eq_refl Ha Hb Hf).
Defined.
